(** * Editor-Backend: the heading tree builder, the export serializer and the
      markup sanitizers of [server.js]

    The development follows the program part by part: JavaScript strings and
    the regular expressions of the sanitizer, the document tree and the parser
    of the HTML library the program calls, the loop of [buildTreeFromHtml]
    over a store of Section objects, [sanitizeTable], [buildHtml] and the
    plain text of [buildDocxFromTree]; then the properties.

    Strings are byte strings: a JavaScript string is taken in its UTF-8
    encoding.  Every literal of the program is ASCII, so the regular
    expressions of [server.js] start and stop their matches on ASCII bytes and
    read the same on bytes as on UTF-16 code units.

    The HTML parser is a parameter [parse] of the functions that call it, and
    the properties that hold of every markup are proved for every [parse].
    Where a property is about one markup text, it is evaluated with [Html.parse],
    the parsing algorithm on the plain markup it is written out for. *)

From Stdlib Require Import String Ascii ZArith Lia Bool.
From stdpp Require Import base tactics option list strings.

Set Warnings "-register-all".

(** ** JavaScript strings *)

Module Js.

Definition code (c : ascii) : nat := nat_of_ascii c.

Definition between (lo hi : nat) (c : ascii) : bool :=
  (lo <=? code c)%nat && (code c <=? hi)%nat.

Definition isUpper (c : ascii) : bool := between 65 90 c.
Definition isLower (c : ascii) : bool := between 97 122 c.
Definition isDigit (c : ascii) : bool := between 48 57 c.

(** Case folding of the [i] flag without the [u] flag: only ASCII letters fold
    onto ASCII letters (a code unit above 127 never canonicalises to one
    below 128). *)
Definition lower (c : ascii) : ascii :=
  if isUpper c then ascii_of_nat (code c + 32) else c.

Definition upper (c : ascii) : ascii :=
  if isLower c then ascii_of_nat (code c - 32) else c.

Fixpoint map (f : ascii -> ascii) (s : string) : string :=
  match s with
  | EmptyString => EmptyString
  | String c s' => String (f c) (map f s')
  end.

(** [String.prototype.toUpperCase], on the ASCII letters.  No other character
    upper-cases to [H] or to a digit, which is all [buildTreeFromHtml] asks of
    it. *)
Definition toUpperCase (s : string) : string := map upper s.

Definition isEmpty (s : string) : bool :=
  match s with EmptyString => true | _ => false end.

Definition oneOf (s : string) (l : list string) : bool := existsb (String.eqb s) l.
Definition oneOfCode (n : nat) (l : list nat) : bool := existsb (Nat.eqb n) l.

(** Whether the text starts with the bytes of the given codes. *)
Fixpoint startsWith (codes : list nat) (s : string) : bool :=
  match codes with
  | [] => true
  | k :: codes' =>
      match s with
      | String c s' => (code c =? k)%nat && startsWith codes' s'
      | EmptyString => false
      end
  end.

(** The white space and line terminators of the language, which [\s] matches
    and [trim] removes, in UTF-8: U+0009 to U+000D and U+0020; U+00A0; U+1680,
    U+2000 to U+200A, U+2028, U+2029, U+202F, U+205F, U+3000 and U+FEFF. *)
Definition space1 : list (list nat) := [[9]; [10]; [11]; [12]; [13]; [32]].
Definition space2 : list (list nat) := [[194; 160]].
Definition space3 : list (list nat) :=
  [[225; 154; 128]] ++ List.map (fun k => [226; 128; k]) (seq 128 11) ++
  [[226; 128; 168]; [226; 128; 169]; [226; 128; 175]; [226; 129; 159];
   [227; 128; 128]; [239; 187; 191]].

(** The number of bytes of the white space the text starts with, [0] when it
    starts with none. *)
Definition wsLen (s : string) : nat :=
  if existsb (fun codes => startsWith codes s) space1 then 1
  else if existsb (fun codes => startsWith codes s) space2 then 2
  else if existsb (fun codes => startsWith codes s) space3 then 3
  else 0.

(** Drops the white space a string starts with.  [skip] counts the bytes of
    the current white-space character still to drop. *)
Fixpoint dropWs (skip : nat) (s : string) : string :=
  match s with
  | EmptyString => EmptyString
  | String _ s' =>
      match skip with
      | S k => dropWs k s'
      | O => match wsLen s with
             | O => s
             | S k => dropWs k s'
             end
      end
  end.

Definition trimStart (s : string) : string := dropWs 0 s.

Fixpoint trimEnd (s : string) : string :=
  match s with
  | EmptyString => EmptyString
  | String c s' => if isEmpty (trimStart s) then EmptyString else String c (trimEnd s')
  end.

(** [String.prototype.trim] *)
Definition trim (s : string) : string := trimEnd (trimStart s).

(** [String.prototype.slice(from, to)] for [0 <= from <= to] *)
Definition slice (from to : nat) (s : string) : string :=
  substring from (to - from) s.

(** Template-literal printing of an integer (below 10^21 in size, which
    JavaScript prints in full). *)
Fixpoint digits (fuel : nat) (n : nat) (acc : string) : string :=
  match fuel with
  | O => acc
  | S f =>
      let acc' := String (ascii_of_nat (48 + n mod 10)) acc in
      if (n <? 10)%nat then acc' else digits f (n / 10) acc'
  end.

Definition showNat (n : nat) : string := digits (S n) n EmptyString.

Definition showZ (z : Z) : string :=
  match z with
  | Zneg p => String "-" (showNat (Pos.to_nat p))
  | _ => showNat (Z.to_nat z)
  end.

End Js.

(** ** Regular expressions

    The expressions of [server.js] are sequences of literals, of runs over a
    character class and of optional literals.  [matchAt] is the backtracking
    matcher of the language on such sequences: a greedy run tries the longest
    stretch first, a lazy one the shortest, and each gives way one character at
    a time while the rest of the expression fails.  It reads the text at the
    current position and returns the length of the match there.  None of the
    expressions looks behind, so the text from the current position on
    decides. *)

Module Re.

Import Js.

(** The double quote, as a character and as a one-character string. *)
Definition dquote : ascii := "034"%char.
Definition Q : string := String dquote EmptyString.

(** The longest run of characters that satisfy [p] at the start of the text:
    its length and what follows. *)
Fixpoint span (p : ascii -> bool) (s : string) : nat * string :=
  match s with
  | EmptyString => (O, EmptyString)
  | String c s' =>
      if p c then let '(n, r) := span p s' in (S n, r) else (O, s)
  end.

(** A literal, read without regard to case when [ci] is set (the literals of
    the program are in lower case); returns what follows it. *)
Fixpoint lit (ci : bool) (l s : string) : option string :=
  match l with
  | EmptyString => Some s
  | String a l' =>
      match s with
      | EmptyString => None
      | String c s' =>
          if Ascii.eqb (if ci then lower c else c) a then lit ci l' s' else None
      end
  end.

(** A character class says how many bytes the character of the class takes
    that the text starts with, [0] when it starts with none. *)
Definition Class : Type := string -> nat.

Definition byte (p : ascii -> bool) : Class :=
  fun s => match s with
           | String c _ => if p c then 1 else 0
           | EmptyString => 0
           end.

Definition oneOfChars (chars : string) (c : ascii) : bool :=
  existsb (Ascii.eqb c) (list_ascii_of_string chars).

(** [[a-zA-Z0-9\-]] *)
Definition nameChar : Class :=
  byte (fun c => isLower c || isUpper c || isDigit c || oneOfChars "-" c).

(** [[^...]] *)
Definition noneOf (chars : string) : Class := byte (fun c => negb (oneOfChars chars c)).

(** [[\s\S]] *)
Definition anyChar : Class := byte (fun _ => true).

(** [\s] *)
Definition space : Class := wsLen.

Inductive Item :=
| Lit (ci : bool) (l : string)
| Many (cls : Class) (min : nat) (greedy : bool)
| Opt (l : string).

Definition Regex : Type := list Item.

Fixpoint skipn (n : nat) (s : string) : string :=
  match n, s with
  | S k, String _ s' => skipn k s'
  | _, _ => s
  end.

(** The places where a run over [cls] can stop: after no character, after
    one, and so on, each with the number of bytes passed and the text left. *)
Fixpoint stops (cls : Class) (fuel : nat) (passed : nat) (s : string)
  : list (nat * string) :=
  (passed, s) ::
  match fuel with
  | O => []
  | S f =>
      match cls s with
      | O => []
      | S k => stops cls f (passed + S k) (skipn (S k) s)
      end
  end.

(** The first alternative that succeeds. *)
Fixpoint first {A B} (f : A -> option B) (l : list A) : option B :=
  match l with
  | [] => None
  | x :: l' => match f x with
               | Some y => Some y
               | None => first f l'
               end
  end.

Fixpoint matchAt (r : Regex) (s : string) : option nat :=
  match r with
  | [] => Some O
  | Lit ci l :: r' =>
      match lit ci l s with
      | Some s' => Nat.add (String.length l) <$> matchAt r' s'
      | None => None
      end
  | Opt l :: r' =>
      match match lit false l s with
            | Some s' => Nat.add (String.length l) <$> matchAt r' s'
            | None => None
            end with
      | Some n => Some n
      | None => matchAt r' s
      end
  | Many cls min greedy :: r' =>
      let all := drop min (stops cls (String.length s) O s) in
      first (fun '(passed, s') => Nat.add passed <$> matchAt r' s')
            (if greedy then rev all else all)
  end.

(** [/w:[a-zA-Z0-9\-]+=Q[^Q]*Q/gi], Q standing for the double quote *)
Definition wordNamespace : Regex :=
  [Lit true "w:"; Many nameChar 1 true; Lit true ("=" +:+ Q); Many (noneOf Q) 0 true;
   Lit true Q].

(** [/mso-[^:;Q]+:[^;Q]+;?/gi] *)
Definition msoStyle : Regex :=
  [Lit true "mso-"; Many (noneOf (":;" +:+ Q)) 1 true; Lit true ":";
   Many (noneOf (";" +:+ Q)) 1 true; Opt ";"].

(** [/@[a-zA-Z0-9\-]+=Q[^Q]*Q/gi] *)
Definition atAttribute : Regex :=
  [Lit true "@"; Many nameChar 1 true; Lit true ("=" +:+ Q); Many (noneOf Q) 0 true;
   Lit true Q].

(** [/_[a-zA-Z0-9\-]+=Q[^Q]*Q/gi] *)
Definition underscoreAttribute : Regex :=
  [Lit true "_"; Many nameChar 1 true; Lit true ("=" +:+ Q); Many (noneOf Q) 0 true;
   Lit true Q].

(** [/<!--[\s\S]*?-->/gi] *)
Definition comment : Regex := [Lit true "<!--"; Many anyChar 0 false; Lit true "-->"].

(** [/width=Q[^Q]*Q/gi] *)
Definition width : Regex := [Lit true ("width=" +:+ Q); Many (noneOf Q) 0 true; Lit true Q].

(** [/style=Q[^Q]*?@[^Q]*?Q/gi] *)
Definition styleAt : Regex :=
  [Lit true ("style=" +:+ Q); Many (noneOf Q) 0 false; Lit true "@";
   Many (noneOf Q) 0 false; Lit true Q].

(** [/style=Q[^Q]*?mso-[^Q]*?Q/gi] *)
Definition styleMso : Regex :=
  [Lit true ("style=" +:+ Q); Many (noneOf Q) 0 false; Lit true "mso-";
   Many (noneOf Q) 0 false; Lit true Q].

(** [s.replace(re, by)] for a global [re] whose matches are never empty: one
    scan from the left; where [re] matches, [by] stands for the match and the
    scan goes on behind it.  [skip] counts the characters of the current match
    still to pass over. *)
Fixpoint replace (re : string -> option nat) (by_ : string) (skip : nat) (s : string)
  : string :=
  match s with
  | EmptyString => EmptyString
  | String c s' =>
      match skip with
      | S k => replace re by_ k s'
      | O =>
          match re s with
          | Some (S k) => by_ +:+ replace re by_ k s'
          | _ => String c (replace re by_ O s')
          end
      end
  end.

Definition replaceAll (r : Regex) (by_ : string) (s : string) : string :=
  replace (matchAt r) by_ O s.

Definition removeAll (r : Regex) (s : string) : string := replaceAll r EmptyString s.

(** Whether the expression matches somewhere in the text. *)
Fixpoint occursAt (re : string -> option nat) (s : string) : bool :=
  match s with
  | EmptyString => false
  | String _ s' =>
      match re s with
      | Some (S _) => true
      | _ => occursAt re s'
      end
  end.

Definition occurs (r : Regex) (s : string) : bool := occursAt (matchAt r) s.

End Re.

(** ** [cleanHtml] *)

Definition cleanHtml (html : string) : string :=
  let html := Re.removeAll Re.wordNamespace html in
  let html := Re.removeAll Re.msoStyle html in
  let html := Re.removeAll Re.atAttribute html in
  let html := Re.removeAll Re.underscoreAttribute html in
  let html := Re.removeAll Re.comment html in
  let html := Re.removeAll Re.width html in
  let html := Re.removeAll Re.styleAt html in
  let html := Re.removeAll Re.styleMso html in
  html.

(** ** The document tree of the HTML library

    [server.js] reads markup through jsdom.  A document body is a list of
    nodes; element names are as the HTML parser leaves them (lower case).  A
    [template] element keeps what it holds in its template contents, a
    fragment of its own: those nodes are not children of the element, so
    [textContent] and [querySelectorAll] do not see them, while the
    serialization of the element writes them out. *)

Module Dom.

Import Js.

Definition Attr : Type := string * string.

Inductive Node :=
| Text (data : string)
| Comment (data : string)
| Element (tag : string) (attributes : list Attr) (childNodes : list Node)
| Template (attributes : list Attr) (content : list Node).

Definition isElement (n : Node) : bool :=
  match n with
  | Element _ _ _ | Template _ _ => true
  | _ => false
  end.

(** [parent.children]: the element children, in order. *)
Definition children (nodes : list Node) : list Node := filter isElement nodes.

Definition localName (n : Node) : string :=
  match n with
  | Element tag _ _ => tag
  | Template _ _ => "template"
  | _ => EmptyString
  end.

(** [node.tagName] of an HTML element *)
Definition tagName (n : Node) : string := toUpperCase (localName n).

Definition concat (l : list string) : string := foldr String.append EmptyString l.

(** [node.textContent]: the data of the text nodes below the node, in tree
    order. *)
Fixpoint textContent (n : Node) : string :=
  match n with
  | Text d => d
  | Comment _ => EmptyString
  | Element _ _ cs => concat (List.map textContent cs)
  | Template _ _ => EmptyString
  end.

(** Escaping of the HTML fragment serialization: [&], the no-break space
    (bytes 194 160) and, in text, the angle brackets, in attribute values the
    double quote. *)
Fixpoint escape (attrMode : bool) (s : string) : string :=
  match s with
  | EmptyString => EmptyString
  | String c s' =>
      if (code c =? 38)%nat then "&amp;" +:+ escape attrMode s'
      else if (code c =? 60)%nat && negb attrMode then "&lt;" +:+ escape attrMode s'
      else if (code c =? 62)%nat && negb attrMode then "&gt;" +:+ escape attrMode s'
      else if (code c =? 34)%nat && attrMode then "&quot;" +:+ escape attrMode s'
      else
        match s' with
        | String c2 s'' =>
            if (code c =? 194)%nat && (code c2 =? 160)%nat
            then "&nbsp;" +:+ escape attrMode s''
            else String c (escape attrMode s')
        | EmptyString => String c EmptyString
        end
  end.

Definition voidTag (tag : string) : bool :=
  oneOf tag ["area"; "base"; "basefont"; "bgsound"; "br"; "col"; "embed";
             "frame"; "hr"; "img"; "input"; "keygen"; "link"; "meta";
             "param"; "source"; "track"; "wbr"].

Definition rawTextTag (tag : string) : bool :=
  oneOf tag ["style"; "script"; "xmp"; "iframe"; "noembed"; "noframes";
             "plaintext"].

Definition serializeAttr (a : Attr) : string :=
  " " +:+ a.1 +:+ "=" +:+ Re.Q +:+ escape true a.2 +:+ Re.Q.

Definition startTag (tag : string) (attrs : list Attr) : string :=
  "<" +:+ tag +:+ concat (List.map serializeAttr attrs) +:+ ">".

Definition endTag (tag : string) : string := "</" +:+ tag +:+ ">".

(** The HTML fragment serialization of one node; [raw] says that the parent
    holds raw text. *)
Fixpoint serialize (raw : bool) (n : Node) : string :=
  match n with
  | Text d => if raw then d else escape false d
  | Comment d => "<!--" +:+ d +:+ "-->"
  | Element tag attrs cs =>
      startTag tag attrs +:+
      (if voidTag tag then EmptyString
       else concat (List.map (serialize (rawTextTag tag)) cs) +:+ endTag tag)
  | Template attrs cs =>
      startTag "template" attrs +:+
      concat (List.map (serialize false) cs) +:+ endTag "template"
  end.

(** [node.outerHTML] of a child of the body, and [body.innerHTML] *)
Definition outerHTML (n : Node) : string := serialize false n.
Definition innerHTML (nodes : list Node) : string := concat (List.map outerHTML nodes).

(** [el.removeAttribute(name)]: the first attribute of that name goes. *)
Fixpoint removeAttribute (name : string) (attrs : list Attr) : list Attr :=
  match attrs with
  | [] => []
  | a :: rest =>
      if String.eqb a.1 name then rest else a :: removeAttribute name rest
  end.

End Dom.

(** ** The HTML parser, on plain markup

    jsdom's parser is not part of the repository.  [parseBody] follows the
    HTML parsing algorithm on the markup where its steps are the plain ones
    and answers [None] everywhere else: text without [<], [&], NUL or carriage
    return; start tags [<name attr=Qvalue Q ...>] with lower-case names and
    double-quoted values without character references; end tags that close
    the element that is open.  The elements are [div], [span], [p], [h1] to
    [h6], [template] and an empty [table]; inside [p] and the headings only
    text and [span] may stand, so that no start tag closes an open element.
    A [template] start tag that comes before anything of the body is placed in
    the head by the parser, and white space at the very start of a document
    is dropped: both are outside [parseBody]. *)

Module Html.

Import Js Re Dom.

Inductive Token :=
| TText (data : string)
| TStart (tag : string) (attrs : list Attr)
| TEnd (tag : string).

Definition isSpace (c : ascii) : bool :=
  oneOfCode (code c) [9; 10; 12; 32].

Definition textChar (c : ascii) : bool := negb (oneOfCode (code c) [0; 13; 38; 60]).
Definition valueChar (c : ascii) : bool := negb (oneOfCode (code c) [0; 13; 34; 38]).
Definition tagChar (c : ascii) : bool := isLower c || isDigit c.
Definition attrNameChar (c : ascii) : bool :=
  isLower c || isDigit c || oneOfCode (code c) [45; 58; 64; 95].

(** The attributes of a start tag up to its closing [>]. *)
Fixpoint attrs (fuel : nat) (s : string) : option (list Attr * string) :=
  match fuel with
  | O => None
  | S f =>
      let '(w, r) := span isSpace s in
      match lit false ">" r with
      | Some rest => Some ([], rest)
      | None =>
          let '(k, r1) := span attrNameChar r in
          match w, k, lit false ("=" +:+ Q) r1 with
          | S _, S _, Some r2 =>
              let '(j, r3) := span valueChar r2 in
              match lit false Q r3 with
              | Some r4 =>
                  '(l, rest) ← attrs f r4;
                  let name := substring 0 k r in
                  if existsb (fun a : Attr => String.eqb a.1 name) l then None
                  else Some ((name, substring 0 j r2) :: l, rest)
              | None => None
              end
          | _, _, _ => None
          end
      end
  end.

Fixpoint tokenize (fuel : nat) (s : string) : option (list Token) :=
  match s, fuel with
  | EmptyString, _ => Some []
  | _, O => None
  | _, S f =>
      match lit false "</" s, lit false "<" s with
      | Some r, _ =>
          let '(k, r1) := span tagChar r in
          match k, lit false ">" r1 with
          | S _, Some r2 => cons (TEnd (substring 0 k r)) <$> tokenize f r2
          | _, _ => None
          end
      | None, Some r =>
          let '(k, r1) := span tagChar r in
          match k with
          | S _ =>
              '(a, r2) ← attrs (S (String.length r1)) r1;
              cons (TStart (substring 0 k r) a) <$> tokenize f r2
          | O => None
          end
      | None, None =>
          let '(k, r) := span textChar s in
          match k with
          | S _ => cons (TText (substring 0 k s)) <$> tokenize f r
          | O => None
          end
      end
  end.

(** What may stand inside the open elements: anything of the fragment, only
    text and [span], or nothing. *)
Inductive Context := Flow | Phrasing | Closed.

(** An open element: its name, its attributes and the nodes that precede it in
    its parent, last first. *)
Definition Open : Type := string * list Attr * list Node.

Definition heading (tag : string) : bool :=
  oneOf tag ["h1"; "h2"; "h3"; "h4"; "h5"; "h6"].

Fixpoint context (stack : list Open) : Context :=
  match stack with
  | [] => Flow
  | (tag, _, _) :: rest =>
      if String.eqb tag "span" then context rest
      else if String.eqb tag "p" || heading tag then Phrasing
      else if String.eqb tag "table" then Closed
      else Flow
  end.

Definition allowed (tag : string) (stack : list Open) (kids : list Node) : bool :=
  match context stack with
  | Closed => false
  | Phrasing => String.eqb tag "span"
  | Flow =>
      if String.eqb tag "template"
      then negb (bool_decide (stack = []) && bool_decide (kids = []))
      else oneOf tag ["div"; "span"; "p"; "table"] || heading tag
  end.

Definition close (tag : string) (a : list Attr) (kids : list Node) : Node :=
  if String.eqb tag "template" then Template a (rev kids) else Element tag a (rev kids).

(** Tree construction.  [kids] holds the children of the current node so far,
    last first; [stack] the open elements, innermost first. *)
Fixpoint construct (toks : list Token) (stack : list Open) (kids : list Node)
  : option (list Node) :=
  match toks with
  | [] => match stack with [] => Some (rev kids) | _ => None end
  | TText d :: toks' =>
      match context stack with
      | Closed => None
      | _ => construct toks' stack (Text d :: kids)
      end
  | TStart tag a :: toks' =>
      if allowed tag stack kids then construct toks' ((tag, a, kids) :: stack) []
      else None
  | TEnd tag :: toks' =>
      match stack with
      | (t, a, before) :: stack' =>
          if String.eqb t tag then construct toks' stack' (close t a kids :: before)
          else None
      | [] => None
      end
  end.

(** The child nodes of the body of [new JSDOM(html)]. *)
Definition parseBody (html : string) : option (list Node) :=
  match html with
  | String c _ => if isSpace c || (code c =? 13)%nat then None
                  else toks ← tokenize (String.length html) html; construct toks [] []
  | EmptyString => Some []
  end.

(** The parser as a function of every string: the body is left empty outside
    the markup [parseBody] reads. *)
Definition parse (html : string) : list Node := default [] (parseBody html).

End Html.

(** ** Sections

    The objects [createNode] allocates live in a store; [tree], [stack] and
    the [children] arrays hold references into it, so that a Section reached
    through [stack] and through [tree] is one object.  A reference is the
    index of the object in the store, in order of creation. *)

Module Node.
Record t := mk {
  id : string;
  title : string;
  level : Z;
  contentHtml : string;
  children : list nat
}.
End Node.

(** The tree [buildTreeFromHtml] returns, read off the store, and the JSON the
    export endpoint receives. *)
Module Sec.
Inductive t := mk (id title : string) (level : Z) (contentHtml : string) (children : list t).

Definition id (s : t) : string := let 'mk i _ _ _ _ := s in i.
Definition title (s : t) : string := let 'mk _ x _ _ _ := s in x.
Definition level (s : t) : Z := let 'mk _ _ l _ _ := s in l.
Definition contentHtml (s : t) : string := let 'mk _ _ _ c _ := s in c.
Definition children (s : t) : list t := let 'mk _ _ _ _ k := s in k.
End Sec.

Record State := mkState {
  heap : list Node.t;
  tree : list nat;
  stack : list nat   (* the top of the stack, stack[stack.length - 1], is the head *)
}.

(** The branch of the loop body an element takes. *)
Inductive Branch := Heading | TopOfStack | Intro | FirstRoot.

#[global] Instance Branch_eq_dec : EqDecision Branch.
Proof. solve_decision. Defined.

#[global] Instance Node_inhabited : Inhabited Node.t :=
  populate (Node.mk EmptyString EmptyString 0 EmptyString []).

(** [tag.match(/^H([1-6])$/)] followed by [parseInt(headingMatch[1], 10)] *)
Definition headingMatch (tag : string) : option Z :=
  match tag with
  | String h (String d EmptyString) =>
      if Ascii.eqb h "H" && Js.between 49 54 d
      then Some (Z.of_nat (Js.code d - 48))
      else None
  | _ => None
  end.

Definition appendContent (htmlFragment : string) (n : Node.t) : Node.t :=
  Node.mk (Node.id n) (Node.title n) (Node.level n)
          (Node.contentHtml n +:+ htmlFragment) (Node.children n).

Definition pushChild (child : nat) (n : Node.t) : Node.t :=
  Node.mk (Node.id n) (Node.title n) (Node.level n) (Node.contentHtml n)
          (Node.children n ++ [child]).

Fixpoint popToLevel (h : list Node.t) (level : Z) (stack : list nat) : list nat :=
  match stack with
  | [] => []
  | top :: rest =>
      if (Node.level (h !!! top) >=? level)%Z then popToLevel h level rest else stack
  end.

Section Builder.

(** [random k] is what [Math.random().toString(36)] yields at its [k]-th
    call of the run. *)
Variable random : nat -> string.

Definition cryptoId (k : nat) : string := "n_" +:+ Js.slice 2 9 (random k).

(** [title || ''] is [title]: the only falsy string is the empty one. *)
Definition createNode (k : nat) (title : string) (level : Z) : Node.t :=
  Node.mk (cryptoId k) title level EmptyString [].

(** The body of the loop of [buildTreeFromHtml]. *)
Definition step (s : State) (node : Dom.Node) : State * Branch :=
  let tag := Js.toUpperCase (Dom.tagName node) in
  match headingMatch tag with
  | Some level =>
      let title := Js.trim (Dom.textContent node) in
      let stack1 := popToLevel (heap s) level (stack s) in
      let newNode := length (heap s) in
      let heap1 := heap s ++ [createNode newNode title level] in
      match stack1 with
      | [] => (mkState heap1 (tree s ++ [newNode]) (newNode :: stack1), Heading)
      | parent :: _ =>
          (mkState (alter (pushChild newNode) parent heap1) (tree s) (newNode :: stack1),
           Heading)
      end
  | None =>
      let htmlFragment := Dom.outerHTML node in
      match stack s with
      | current :: _ =>
          (mkState (alter (appendContent htmlFragment) current (heap s)) (tree s) (stack s),
           TopOfStack)
      | [] =>
          match tree s with
          | [] =>
              let intro := length (heap s) in
              (mkState (heap s ++ [appendContent htmlFragment (createNode intro "Intro" 1)])
                       (tree s ++ [intro]) (intro :: stack s),
               Intro)
          | first :: _ =>
              (mkState (alter (appendContent htmlFragment) first (heap s)) (tree s) (stack s),
               FirstRoot)
          end
      end
  end.

Definition init : State := mkState [] [] [].

(** The loop: the state after the elements and the branches taken. *)
Fixpoint exec (s : State) (nodes : list Dom.Node) : State * list Branch :=
  match nodes with
  | [] => (s, [])
  | node :: rest =>
      let '(s1, b) := step s node in
      let '(s2, bs) := exec s1 rest in
      (s2, b :: bs)
  end.

Definition run (s : State) (nodes : list Dom.Node) : State := (exec s nodes).1.
Definition trace (s : State) (nodes : list Dom.Node) : list Branch := (exec s nodes).2.

(** The Section a reference stands for, with the Sections below it.  A child
    is created after its parent, so [fuel] above the number of objects
    reaches every leaf. *)
Fixpoint reify (fuel : nat) (h : list Node.t) (r : nat) : Sec.t :=
  let n := h !!! r in
  Sec.mk (Node.id n) (Node.title n) (Node.level n) (Node.contentHtml n)
         (match fuel with
          | O => []
          | S f => List.map (reify f h) (Node.children n)
          end).

Definition result (s : State) : list Sec.t :=
  List.map (reify (length (heap s)) (heap s)) (tree s).

(** [buildTreeFromHtml], from the elements of the body on. *)
Definition buildTree (bodyChildren : list Dom.Node) : list Sec.t :=
  result (run init bodyChildren).

Variable parse : string -> list Dom.Node.

Definition buildTreeFromHtml (html : string) : list Sec.t :=
  buildTree (Dom.children (parse html)).

End Builder.

(** ** [sanitizeTable] *)

Module Table.

Import Dom.

(** The selector [table, tr, td, th, thead, tbody, tfoot] *)
Definition selected (tag : string) : bool :=
  Js.oneOf tag ["table"; "tr"; "td"; "th"; "thead"; "tbody"; "tfoot"].

(** [while (el.attributes.length > 0) el.removeAttribute(el.attributes[0].name)] *)
Fixpoint clear (fuel : nat) (attrs : list Attr) : list Attr :=
  match attrs, fuel with
  | [], _ => []
  | _, O => attrs
  | a :: _, S f => clear f (removeAttribute a.1 attrs)
  end.

Definition clearAttributes (attrs : list Attr) : list Attr := clear (length attrs) attrs.

(** The [forEach] over [doc.querySelectorAll(...)]: every element below the
    document is visited; template contents are not below the document. *)
Fixpoint strip (n : Node) : Node :=
  match n with
  | Element tag attrs cs =>
      Element tag (if selected tag then clearAttributes attrs else attrs) (List.map strip cs)
  | other => other
  end.

End Table.

Section Exporting.

Variable parse : string -> list Dom.Node.

Definition sanitizeTable (html : string) : string :=
  Dom.innerHTML (List.map Table.strip (parse html)).

(** One turn of the [forEach] of [buildHtml]: [finalHtml] is threaded through;
    [level] is the second parameter of [buildHtml], which counts the depth. *)
Fixpoint buildHtmlNode (level : nat) (finalHtml : string) (n : Sec.t) : string :=
  let finalHtml :=
    finalHtml +:+ ("<h" +:+ Js.showZ (Sec.level n) +:+ ">" +:+ Sec.title n +:+
                   "</h" +:+ Js.showZ (Sec.level n) +:+ ">") in
  let finalHtml :=
    if Js.isEmpty (Sec.contentHtml n) then finalHtml
    else finalHtml +:+ sanitizeTable (cleanHtml (Sec.contentHtml n)) in
  match n with
  | Sec.mk _ _ _ _ [] => finalHtml
  | Sec.mk _ _ _ _ kids => fold_left (buildHtmlNode (level + 1)) kids finalHtml
  end.

Definition buildHtml (list : list Sec.t) (level : nat) (finalHtml : string) : string :=
  fold_left (buildHtmlNode level) list finalHtml.

(** The markup the export endpoint hands to the document generator. *)
Definition exportHtml (nodes : list Sec.t) : string := buildHtml nodes 1 EmptyString.

End Exporting.

(** ** The plain text of [buildDocxFromTree] *)

Module Plain.

Import Js Re.

(** [/<br\s*\/?>/gi] *)
Definition br : Regex := [Lit true "<br"; Many space 0 true; Opt "/"; Lit true ">"].

(** [/<\/p>/gi] *)
Definition closeP : Regex := [Lit true "</p>"].

(** [/<[^>]+>/g] *)
Definition anyTag : Regex := [Lit false "<"; Many (noneOf ">") 1 true; Lit false ">"].

Definition newline : string := String "010"%char EmptyString.

Definition toPlainText (contentHtml : string) : string :=
  replaceAll anyTag EmptyString
    (replaceAll closeP newline (replaceAll br newline contentHtml)).

Inductive Paragraph :=
| HeadingParagraph (text : string) (level : Z)
| TextParagraph (text : string).

Fixpoint appendNode (paragraphs : list Paragraph) (n : Sec.t) : list Paragraph :=
  let paragraphs := paragraphs ++ [HeadingParagraph (Sec.title n) (Sec.level n)] in
  let plain := toPlainText (Sec.contentHtml n) in
  let paragraphs :=
    if isEmpty (trim plain) then paragraphs else paragraphs ++ [TextParagraph plain] in
  match n with
  | Sec.mk _ _ _ _ kids => fold_left appendNode kids paragraphs
  end.

Definition paragraphsOfTree (tree : list Sec.t) : list Paragraph :=
  fold_left appendNode tree [].

End Plain.

(** ** What the claims speak of *)

Definition chars (s : string) : list ascii := list_ascii_of_string s.



(** The level a heading element opens, [None] for any other element. *)
Definition headingLevel (node : Dom.Node) : option Z :=
  headingMatch (Js.toUpperCase (Dom.tagName node)).

Definition levelOf (h : list Node.t) (r : nat) : Z := Node.level (h !!! r).
Definition childrenOf (h : list Node.t) (r : nat) : list nat := Node.children (h !!! r).
Definition contentOf (h : list Node.t) (r : nat) : string := Node.contentHtml (h !!! r).

(** The open Sections run down the right edge of the forest: the bottom of
    the stack is the last root and every other entry is the last child of the
    entry below it. *)
Fixpoint Spine (h : list Node.t) (roots stack : list nat) : Prop :=
  match stack with
  | [] => True
  | c :: rest =>
      match rest with
      | [] => last roots = Some c
      | p :: _ => last (childrenOf h p) = Some c
      end ∧ Spine h roots rest
  end.

(** A chain of ancestors, innermost first: every entry is a child of the next
    and the last one is a root. *)
Fixpoint Chain (h : list Node.t) (roots path : list nat) : Prop :=
  match path with
  | [] => True
  | c :: rest =>
      match rest with
      | [] => c ∈ roots
      | p :: _ => c ∈ childrenOf h p
      end ∧ Chain h roots rest
  end.

(** What holds of the store, the roots and the stack between two turns of the
    loop. *)
Record Inv (s : State) : Prop := mkInv {
  inv_roots : ∀ r, r ∈ tree s → r < length (heap s);
  inv_child : ∀ p c, c ∈ childrenOf (heap s) p →
                p < c < length (heap s) ∧ (levelOf (heap s) p < levelOf (heap s) c)%Z;
  inv_level : ∀ r, r < length (heap s) → (1 ≤ levelOf (heap s) r ≤ 6)%Z;
  inv_top : match stack s with
            | [] => heap s = [] ∧ tree s = []
            | top :: _ => S top = length (heap s)
            end;
  inv_spine : Spine (heap s) (tree s) (stack s);
  inv_parent : ∀ p p' c, c ∈ childrenOf (heap s) p → c ∈ childrenOf (heap s) p' → p = p';
  inv_root : ∀ p c, c ∈ tree s → c ∉ childrenOf (heap s) p
}.

(** Every Section has a level from 1 to 6 that is above the level of each of
    its ancestors ([ancestors] holds their levels). *)
Fixpoint wellLevelled (ancestors : list Z) (s : Sec.t) : bool :=
  let 'Sec.mk _ _ l _ kids := s in
  (1 <=? l)%Z && (l <=? 6)%Z && forallb (λ a, (a <? l)%Z) ancestors &&
  forallb (wellLevelled (l :: ancestors)) kids.

(** A tree with its identifiers blanked: what is left are the titles, the
    levels, the [contentHtml] and the nesting. *)
Fixpoint eraseId (s : Sec.t) : Sec.t :=
  let 'Sec.mk _ title level content kids := s in
  Sec.mk EmptyString title level content (List.map eraseId kids).

Definition noId (n : Node.t) : Node.t :=
  Node.mk EmptyString (Node.title n) (Node.level n) (Node.contentHtml n) (Node.children n).

(** The Sections of a forest in depth-first pre-order: a Section, then the
    Sections below it child by child, then its next sibling. *)
Fixpoint preorder (s : Sec.t) : list Sec.t :=
  s :: flat_map preorder (Sec.children s).

Definition preorderAll (forest : list Sec.t) : list Sec.t := flat_map preorder forest.

(** The stores of two runs hold the same objects but for [id]. *)
Definition Sim (s1 s2 : State) : Prop :=
  noId <$> heap s1 = noId <$> heap s2 ∧ tree s1 = tree s2 ∧ stack s1 = stack s2.

(** The export written from the words of the specification: over the
    Sections in depth-first pre-order, the heading tag at the level the
    Section carries, around its title, and then its sanitized [contentHtml]. *)
Section ExportSpec.

Variable parse : string -> list Dom.Node.

Definition headingMarkup (s : Sec.t) : string :=
  "<h" +:+ Js.showZ (Sec.level s) +:+ ">" +:+ Sec.title s +:+
  "</h" +:+ Js.showZ (Sec.level s) +:+ ">".

Definition sanitizedContent (s : Sec.t) : string :=
  sanitizeTable parse (cleanHtml (Sec.contentHtml s)).

Definition emitSection (s : Sec.t) : string := headingMarkup s +:+ sanitizedContent s.

Definition serializeSpec (forest : list Sec.t) : string :=
  Dom.concat (List.map emitSection (preorderAll forest)).

End ExportSpec.

(** Every object of the store carries the identifier drawn at its creation. *)
Definition IdOk (random : nat -> string) (s : State) : Prop :=
  ∀ r, r < length (heap s) → Node.id (heap s !!! r) = cryptoId random r.

(** What a later state keeps of an earlier one: the objects that exist stay,
    with their identifier, title and level; no old reference becomes a child
    or a root or stops being one; the [contentHtml] of an object that is not
    the newest is final; roots are only added at the end. *)
Definition Extends (s s' : State) : Prop :=
  length (heap s) ≤ length (heap s') ∧
  (∀ r, r < length (heap s) →
     Node.id (heap s' !!! r) = Node.id (heap s !!! r) ∧
     Node.title (heap s' !!! r) = Node.title (heap s !!! r) ∧
     levelOf (heap s') r = levelOf (heap s) r) ∧
  (∀ p c, c < length (heap s) → c ∈ childrenOf (heap s') p ↔ c ∈ childrenOf (heap s) p) ∧
  (∀ c, c < length (heap s) → c ∈ tree s' ↔ c ∈ tree s) ∧
  (∀ r, S r < length (heap s) → contentOf (heap s') r = contentOf (heap s) r) ∧
  (∃ more, tree s' = tree s ++ more).

(** The state while only content has come: one synthesized root, open. *)
Definition introState (random : nat -> string) (content : string) : State :=
  mkState [Node.mk (cryptoId random 0) "Intro" 1 content []] [0] [0].

(** Whether every table, row and cell element of a node has no attribute,
    template contents included: they are part of the markup that
    [sanitizeTable] returns. *)
Fixpoint bare (n : Dom.Node) : bool :=
  match n with
  | Dom.Element tag attrs cs =>
      (if Table.selected tag then bool_decide (length attrs = 0) else true) &&
      forallb bare cs
  | Dom.Template _ cs => forallb bare cs
  | _ => true
  end.

(** The same without the template contents: the elements below the document,
    which [querySelectorAll] visits. *)
Fixpoint bareBelow (n : Dom.Node) : bool :=
  match n with
  | Dom.Element tag attrs cs =>
      (if Table.selected tag then bool_decide (length attrs = 0) else true) &&
      forallb bareBelow cs
  | _ => true
  end.

(** ** Reading the export back *)

(** The elements of a body spell out a forest: Section by Section in
    pre-order, a heading of the level of the Section whose trimmed text is its
    title, then elements that are no headings and whose outer markup makes up
    its [contentHtml], then the elements of its children, then those of its
    next siblings. *)
Inductive Reads : list Sec.t → list Dom.Node → Prop :=
| Reads_nil : Reads [] []
| Reads_cons i title level content kids rest h cs es1 es2 :
    headingLevel h = Some level →
    Js.trim (Dom.textContent h) = title →
    Forall (λ e, headingLevel e = None) cs →
    Dom.innerHTML cs = content →
    Reads kids es1 →
    Reads rest es2 →
    Reads (Sec.mk i title level content kids :: rest) (h :: cs ++ es1 ++ es2).

Fixpoint nonIncreasing (l : list Z) : bool :=
  match l with
  | a :: rest => match rest with
                 | b :: _ => (b <=? a)%Z
                 | [] => true
                 end && nonIncreasing rest
  | [] => true
  end.

(** The forests the builder makes: a child lies deeper than its parent, and
    of two neighbouring siblings the later one is not the deeper one. *)
Fixpoint canon (lo : Z) (s : Sec.t) : bool :=
  let 'Sec.mk _ _ l _ kids := s in
  (lo <? l)%Z && forallb (canon l) kids && nonIncreasing (List.map Sec.level kids).

Definition canonForest (lo : Z) (forest : list Sec.t) : bool :=
  forallb (canon lo) forest && nonIncreasing (List.map Sec.level forest).

(** Neighbouring references of a list, by level. *)
Definition SibSorted (h : list Node.t) (l : list nat) : Prop :=
  ∀ i a b, l !! i = Some a → l !! S i = Some b → (levelOf h b ≤ levelOf h a)%Z.

Definition Sorted2 (s : State) : Prop :=
  SibSorted (heap s) (tree s) ∧ ∀ p, SibSorted (heap s) (childrenOf (heap s) p).

Definition addChildren (refs : list nat) (n : Node.t) : Node.t :=
  Node.mk (Node.id n) (Node.title n) (Node.level n) (Node.contentHtml n)
          (Node.children n ++ refs).

(** ** Concrete inputs *)

(** The draws of a run. *)
Definition draws (k : nat) : string := "0.4fzyo82mvyr".

(** The markup of the example of the specification. *)
Definition headings : string := "<h1>A</h1><p>x</p><h2>B</h2><p>y</p><h1>C</h1>".

(** A body of three headings, a body that starts with content and goes on
    with a heading, and a tree whose levels do not follow its nesting. *)
Definition threeHeadings : list Dom.Node :=
  [Dom.Element "h1" [] [Dom.Text "A"]; Dom.Element "h3" [] [Dom.Text "B"];
   Dom.Element "h2" [] [Dom.Text "C"]].

Definition contentFirst : list Dom.Node :=
  [Dom.Element "p" [] [Dom.Text "a"]; Dom.Element "div" [] [Dom.Text "b"]].

Definition thenHeading : list Dom.Node :=
  [Dom.Element "h2" [] [Dom.Text "T"]; Dom.Element "p" [] [Dom.Text "c"]].

Definition edited : list Sec.t :=
  [Sec.mk "n_1" "T" 3 "<p>x</p>" [Sec.mk "n_2" "U" 1 EmptyString []]].

(** The markup of the sanitizer example of the specification. *)
Definition styled : string :=
  "<p style=" +:+ Re.Q +:+ "mso-foo:bar;color:red" +:+ Re.Q +:+
  " w:val=" +:+ Re.Q +:+ "x" +:+ Re.Q +:+ ">t</p>".

(** A table that keeps its attribute inside a template. *)
Definition templated : string :=
  "<p>a</p><template><table border=" +:+ Re.Q +:+ "1" +:+ Re.Q +:+ "></table></template>".

(** Markup whose [width] goes in the export. *)
Definition widthy : string := "<p width=" +:+ Re.Q +:+ "1" +:+ Re.Q +:+ ">x</p>".

(** ** What the further properties speak of *)

(** The heading that content before any heading is filed under. *)
Definition introHeading : Dom.Node := Dom.Element "h1" [] [Dom.Text "Intro"].

(** Whether an element of the body is content, that is, no heading. *)
Definition isContent (node : Dom.Node) : bool :=
  match headingLevel node with
  | Some _ => false
  | None => true
  end.

(** The level and the title that each heading of a body announces, in
    document order. *)
Definition announced (body : list Dom.Node) : list (Z * string) :=
  omap (λ e, (λ level, (level, Js.trim (Dom.textContent e))) <$> headingLevel e) body.

(** The body as the builder files it: with the heading [Intro] in front when
    it starts with content. *)
Definition withIntro (body : list Dom.Node) : list Dom.Node :=
  match body with
  | e :: _ => if isContent e then introHeading :: body else body
  | [] => body
  end.

(** The eight expressions of [cleanHtml], in the order of its passes. *)
Definition patterns : list Re.Regex :=
  [Re.wordNamespace; Re.msoStyle; Re.atAttribute; Re.underscoreAttribute; Re.comment;
   Re.width; Re.styleAt; Re.styleMso].

(** Whether a literal stands somewhere in a text. *)
Definition holds (ci : bool) (l : string) (s : string) : bool := Re.occurs [Re.Lit ci l] s.

(** The characters that [[^>]] takes. *)
Definition notGt (c : ascii) : bool := negb (Re.oneOfChars ">" c).

(** Whether a text starts with [>]. *)
Definition startsGt (s : string) : bool :=
  match s with
  | String c _ => Ascii.eqb c ">"
  | EmptyString => false
  end.

(** What one Section adds to the export: its heading and, when its
    [contentHtml] is not empty, the sanitized [contentHtml]. *)
Definition ownMarkup (parse : string -> list Dom.Node) (s : Sec.t) : string :=
  headingMarkup s +:+
  (if Js.isEmpty (Sec.contentHtml s) then EmptyString else sanitizedContent parse s).

(** A Section without its children, and the Sections of a forest side by
    side in pre-order. *)
Definition leaf (s : Sec.t) : Sec.t :=
  Sec.mk (Sec.id s) (Sec.title s) (Sec.level s) (Sec.contentHtml s) [].

Definition flatten (forest : list Sec.t) : list Sec.t := List.map leaf (preorderAll forest).

(** The paragraphs of one Section in the document of [buildDocxFromTree]:
    its heading and, when its plain text is not blank, the plain text. *)
Definition sectionParagraphs (s : Sec.t) : list Plain.Paragraph :=
  Plain.HeadingParagraph (Sec.title s) (Sec.level s) ::
  (if Js.isEmpty (Js.trim (Plain.toPlainText (Sec.contentHtml s))) then []
   else [Plain.TextParagraph (Plain.toPlainText (Sec.contentHtml s))]).

(** ** Data URLs: [getImage] and [/api/upload-base64] *)

Module Str.

(** [s.split(sep)] for a separator of one character: the pieces between the
    separators, in order; a text without the separator is the one piece. *)
Fixpoint split (sep : ascii) (s : string) : list string :=
  match s with
  | EmptyString => [EmptyString]
  | String c s' =>
      if Ascii.eqb c sep then EmptyString :: split sep s'
      else match split sep s' with
           | piece :: pieces => String c piece :: pieces
           | [] => [String c EmptyString]
           end
  end.

End Str.

(** What the [getImage] callback of the export answers: the buffer that
    [Buffer.from(base64, Qbase64Q)] decodes from a text, [null], or the
    rejection of its promise, as [Buffer.from] throws a [TypeError] when it
    is handed [undefined]. *)
Inductive Image :=
| Buffer (base64 : string)
| Null
| Rejected.

Definition getImage (url : string) : Image :=
  if String.prefix "data:image" url then
    match Str.split "," url !! 1 with
    | Some base64 => Buffer base64
    | None => Rejected
    end
  else Null.

(** The answers of [/api/upload-base64]: the tree, or one of its two error
    statuses. *)
Inductive Response :=
| Tree (tree : list Sec.t)
| Status400
| Status500.

Section Upload.

Variable random : nat -> string.
Variable parse : string -> list Dom.Node.

(** [convert text] stands for what lies between the base64 text and the
    markup: [Buffer.from(text, Qbase64Q)], the temporary file and
    [mammoth.convertToHtml]; [None] when one of them throws. *)
Variable convert : string -> option string.

(** The handler, from the [base64] field of the request body on ([None]
    when the body has no such field). *)
Definition uploadBase64 (base64 : option string) : Response :=
  match base64 with
  | None => Status400
  | Some base64 =>
      if Js.isEmpty base64 then Status400
      else
        match Str.split "," base64 !! 1 with
        | None => Status500
        | Some text =>
            match convert text with
            | None => Status500
            | Some html => Tree (buildTreeFromHtml random parse (Dom.innerHTML (parse html)))
            end
        end
  end.

End Upload.

(** A response with the identifiers of its tree blanked. *)
Definition eraseIds (r : Response) : Response :=
  match r with
  | Tree tree => Tree (List.map eraseId tree)
  | other => other
  end.

(** How deep a Section reaches: one for a Section without children. *)
Fixpoint depth (s : Sec.t) : nat :=
  let 'Sec.mk _ _ _ _ kids := s in S (foldr Nat.max 0 (List.map depth kids)).

Definition depthAll (forest : list Sec.t) : nat := foldr Nat.max 0 (List.map depth forest).

(** Whether every Section has a level that is at least the depth it sits
    at, [d] being the depth of the Section at hand. *)
Fixpoint levelCoversDepth (d : Z) (s : Sec.t) : bool :=
  let 'Sec.mk _ _ l _ kids := s in
  (d <=? l)%Z && forallb (levelCoversDepth (d + 1)) kids.

(** The element names that open a Section, with the level they open. *)
Definition headingNames : list (string * Z) :=
  [("h1", 1); ("h2", 2); ("h3", 3); ("h4", 4); ("h5", 5); ("h6", 6);
   ("H1", 1); ("H2", 2); ("H3", 3); ("H4", 4); ("H5", 5); ("H6", 6)]%Z.

(** The string of the bytes of the given codes. *)
Definition fromCodes (codes : list nat) : string :=
  foldr (λ k s, String (ascii_of_nat k) s) EmptyString codes.

(** Every title is [Intro] or the trimmed text of a heading: trimming it
    again changes nothing. *)
Fixpoint titlesTrimmed (s : Sec.t) : bool :=
  let 'Sec.mk _ title _ _ kids := s in
  String.eqb (Js.trim title) title && forallb titlesTrimmed kids.

(** ** What the round trip needs *)

(** The text nodes of an element whose text is [text]: none when it is
    empty. *)
Definition textNodes (text : string) : list Dom.Node :=
  if Js.isEmpty text then [] else [Dom.Text text].

(** A heading as the export writes it: of the level, without attributes,
    around the title as text. *)
Definition plainHeading (level : Z) (title : string) : Dom.Node :=
  Dom.Element ("h" +:+ Js.showZ level) [] (textNodes title).

(** What the export writes for a [contentHtml]: nothing for the empty one,
    which [buildHtml] skips, and else what [sanitizeTable] returns for the
    cleaned text; and the nodes that [sanitizeTable] serializes there. *)
Definition sanitized (parse : string -> list Dom.Node) (contentHtml : string) : string :=
  if Js.isEmpty contentHtml then EmptyString
  else sanitizeTable parse (cleanHtml contentHtml).

Definition sanitizedNodes (parse : string -> list Dom.Node) (contentHtml : string)
  : list Dom.Node :=
  if Js.isEmpty contentHtml then []
  else List.map Table.strip (parse (cleanHtml contentHtml)).

(** The nodes whose serialization the export of a forest is: Section by
    Section in pre-order, the plain heading and the sanitized nodes. *)
Fixpoint spellSec (parse : string -> list Dom.Node) (s : Sec.t) : list Dom.Node :=
  let 'Sec.mk _ title level content kids := s in
  plainHeading level title :: sanitizedNodes parse content ++ flat_map (spellSec parse) kids.

Definition spellBack (parse : string -> list Dom.Node) (forest : list Sec.t)
  : list Dom.Node :=
  flat_map (spellSec parse) forest.

(** A tree with every [contentHtml] as the export writes it. *)
Fixpoint sanitizeSec (parse : string -> list Dom.Node) (s : Sec.t) : Sec.t :=
  let 'Sec.mk i title level content kids := s in
  Sec.mk i title level (sanitized parse content) (List.map (sanitizeSec parse) kids).

(** Whether the export of a Section can be read back Section by Section:
    the title holds no character that the serialization of text escapes, and
    no heading stands among the sanitized nodes. *)
Definition readsBack (parse : string -> list Dom.Node) (s : Sec.t) : bool :=
  String.eqb (Dom.escape false (Sec.title s)) (Sec.title s) &&
  forallb isContent (sanitizedNodes parse (Sec.contentHtml s)).

(** Whether sanitizing leaves the [contentHtml] of a Section as it is. *)
Definition contentKept (parse : string -> list Dom.Node) (s : Sec.t) : bool :=
  String.eqb (sanitized parse (Sec.contentHtml s)) (Sec.contentHtml s).

(** ** What [cleanHtml] keeps *)

(** The scan of [Re.replace] once more, writing down for every character of
    the text whether it stays. *)
Fixpoint keeps (re : string -> option nat) (skip : nat) (s : string) : list bool :=
  match s with
  | EmptyString => []
  | String _ s' =>
      match skip with
      | S k => false :: keeps re k s'
      | O =>
          match re s with
          | Some (S k) => false :: keeps re k s'
          | _ => true :: keeps re O s'
          end
      end
  end.


(** The marks of a later pass, which run over what an earlier pass kept,
    brought back to the places of the text of the earlier pass. *)
Fixpoint lift (mask inner : list bool) : list bool :=
  match mask with
  | [] => []
  | false :: mask' => false :: lift mask' inner
  | true :: mask' =>
      match inner with
      | b :: inner' => b :: lift mask' inner'
      | [] => false :: lift mask' []
      end
  end.

(** For every character of a text, whether it comes through the passes over
    the given expressions, one after the other. *)
Fixpoint keptThrough (rs : list Re.Regex) (s : string) : list bool :=
  match rs with
  | [] => List.map (λ _, true) (chars s)
  | r :: rs' => lift (keeps (Re.matchAt r) 0 s) (keptThrough rs' (Re.removeAll r s))
  end.

(** For every character of a text, whether [cleanHtml] keeps it. *)
Definition kept (html : string) : list bool := keptThrough patterns html.

(** A stretch of a text comes through whole: every character of [run], which
    stands between [pre] and what follows, is kept. *)
Definition keptWhole (mask : list bool) (pre run : string) : Prop :=
  ∃ before after, mask = before ++ replicate (String.length run) true ++ after ∧
                  length before = String.length pre.


(** How many places a mask keeps. *)
Definition trues (mask : list bool) : nat := length (List.filter id mask).

(** * Properties *)

(** ** Strings and the matcher *)

Lemma startsWith_length codes s :
  Js.startsWith codes s = true → length codes ≤ String.length s.
Proof.
  revert s. induction codes as [|k codes IH]; intros s; simpl; [lia|].
  destruct s as [|c s]; [done|]. intros [_ H]%andb_prop. apply IH in H. simpl. lia.
Qed.

Lemma wsLen_le s : Js.wsLen s ≤ String.length s.
Proof.
  unfold Js.wsLen.
  repeat match goal with
  | |- context [existsb ?f ?l] =>
      let E := fresh "E" in
      destruct (existsb f l) eqn:E;
      [apply existsb_exists in E as (codes & Hin & Hs);
       apply startsWith_length in Hs;
       repeat (destruct Hin as [<-|Hin]; [simpl in Hs; lia|]); destruct Hin|]
  end.
  lia.
Qed.

Lemma byte_le p s : Re.byte p s ≤ String.length s.
Proof. destruct s as [|c s]; simpl; [lia|]. destruct (p c); lia. Qed.

Lemma skipn_length n s : String.length (Re.skipn n s) = String.length s - n.
Proof. revert s. induction n as [|n IH]; intros [|c s]; simpl; auto. Qed.

(** A run is bounded by the text: fuel above its length adds no stop. *)
Lemma stops_fuel cls :
  (∀ s, cls s ≤ String.length s) →
  ∀ f1 f2 passed s, String.length s ≤ f1 → String.length s ≤ f2 →
    Re.stops cls f1 passed s = Re.stops cls f2 passed s.
Proof.
  intros Hcls. induction f1 as [|f1 IH]; intros f2 passed s H1 H2.
  - destruct s; [|simpl in H1; lia]. pose proof (Hcls EmptyString) as H0. simpl in H0.
    destruct f2; simpl; [done|]. by destruct (cls EmptyString); [|lia].
  - destruct f2 as [|f2].
    + destruct s; [|simpl in H2; lia]. pose proof (Hcls EmptyString) as H0. simpl in H0.
      simpl. by destruct (cls EmptyString); [|lia].
    + cbn [Re.stops]. f_equal. pose proof (Hcls s) as Hs.
      destruct (cls s) as [|k]; [done|].
      apply IH; rewrite skipn_length; lia.
Qed.

(** The levels of the builder print as their digit. *)
Lemma showZ_level (level : Z) :
  (1 ≤ level ≤ 6)%Z →
  Js.showZ level = String (ascii_of_nat (48 + Z.to_nat level)) EmptyString.
Proof.
  intros H.
  assert (level = 1 ∨ level = 2 ∨ level = 3 ∨ level = 4 ∨ level = 5 ∨ level = 6)%Z
    as [->|[->|[->|[->|[->| ->]]]]] by lia; reflexivity.
Qed.

Example trim_title : Js.trim (String "009" "  Chapter 1 " +:+ String "194" (String "160" "")) = "Chapter 1".
Proof. by vm_compute. Qed.

Example lazy_comment :
  Re.matchAt Re.comment "<!-- a --> b -->" = Some 10 ∧ Re.matchAt Re.comment "<!-->" = None.
Proof. by vm_compute. Qed.

Example greedy_value :
  Re.matchAt Re.msoStyle "MSO-list:l0 level1;color:red" = Some 19 ∧
  Re.matchAt Re.msoStyle "mso-list:;" = None.
Proof. by vm_compute. Qed.

Example cleanHtml_styled :
  cleanHtml styled = "<p style=" +:+ Re.Q +:+ "color:red" +:+ Re.Q +:+ " >t</p>".
Proof. by vm_compute. Qed.

(** ** The scan of [replace] *)

Lemma chars_length s : length (chars s) = String.length s.
Proof. induction s; simpl; congruence. Qed.

Section Scan.

Variable re : string -> option nat.

Lemma remove_sublist skip s :
  chars (Re.replace re EmptyString skip s) `sublist_of` chars s.
Proof.
  revert skip; induction s as [|c s IH]; intros skip; simpl; [done|].
  destruct skip as [|k].
  - destruct (re (String c s)) as [[|k]|]; simpl.
    + by apply sublist_skip.
    + change (chars (Re.replace re EmptyString k s) `sublist_of` c :: chars s).
      by apply sublist_cons.
    + by apply sublist_skip.
  - by apply sublist_cons.
Qed.

Lemma remove_length skip s :
  String.length (Re.replace re EmptyString skip s) ≤ String.length s.
Proof.
  rewrite <- (chars_length s), <- (chars_length (Re.replace _ _ _ _)).
  apply sublist_length, remove_sublist.
Qed.

(** A pass that keeps the length found no match. *)
Lemma remove_same_length s :
  String.length (Re.replace re EmptyString 0 s) = String.length s →
  Re.replace re EmptyString 0 s = s ∧ Re.occursAt re s = false.
Proof.
  induction s as [|c s IH]; simpl; [done|].
  destruct (re (String c s)) as [[|k]|]; simpl.
  - intros [= H]. destruct (IH H) as [-> ->]. done.
  - change (EmptyString +:+ ?x) with x.
    intros H. pose proof (remove_length k s). lia.
  - intros [= H]. destruct (IH H) as [-> ->]. done.
Qed.

End Scan.

Lemma removeAll_length r s : String.length (Re.removeAll r s) ≤ String.length s.
Proof. apply remove_length. Qed.

(** A rewrite that keeps the length found nothing to cut. *)
Lemma removeAll_same_length r s :
  String.length (Re.removeAll r s) = String.length s →
  Re.removeAll r s = s ∧ Re.occurs r s = false.
Proof. apply remove_same_length. Qed.

Lemma cleanHtml_fixed_point html :
  cleanHtml html = html →
  Re.occurs Re.wordNamespace html = false ∧ Re.occurs Re.atAttribute html = false ∧
  Re.occurs Re.comment html = false.
Proof.
  unfold cleanHtml. intros H.
  remember (Re.removeAll Re.wordNamespace html) as s1 eqn:E1.
  remember (Re.removeAll Re.msoStyle s1) as s2 eqn:E2.
  remember (Re.removeAll Re.atAttribute s2) as s3 eqn:E3.
  remember (Re.removeAll Re.underscoreAttribute s3) as s4 eqn:E4.
  remember (Re.removeAll Re.comment s4) as s5 eqn:E5.
  remember (Re.removeAll Re.width s5) as s6 eqn:E6.
  remember (Re.removeAll Re.styleAt s6) as s7 eqn:E7.
  assert (L1 : String.length s1 ≤ String.length html) by (subst s1; apply removeAll_length).
  assert (L2 : String.length s2 ≤ String.length s1) by (subst s2; apply removeAll_length).
  assert (L3 : String.length s3 ≤ String.length s2) by (subst s3; apply removeAll_length).
  assert (L4 : String.length s4 ≤ String.length s3) by (subst s4; apply removeAll_length).
  assert (L5 : String.length s5 ≤ String.length s4) by (subst s5; apply removeAll_length).
  assert (L6 : String.length s6 ≤ String.length s5) by (subst s6; apply removeAll_length).
  assert (L7 : String.length s7 ≤ String.length s6) by (subst s7; apply removeAll_length).
  assert (L8 : String.length html ≤ String.length s7)
    by (rewrite <- H at 1; apply removeAll_length).
  destruct (removeAll_same_length Re.wordNamespace html) as [F1 O1]; [rewrite <- E1; lia|].
  rewrite F1 in E1; subst s1.
  destruct (removeAll_same_length Re.msoStyle html) as [F2 _]; [rewrite <- E2; lia|].
  rewrite F2 in E2; subst s2.
  destruct (removeAll_same_length Re.atAttribute html) as [F3 O3]; [rewrite <- E3; lia|].
  rewrite F3 in E3; subst s3.
  destruct (removeAll_same_length Re.underscoreAttribute html) as [F4 _]; [rewrite <- E4; lia|].
  rewrite F4 in E4; subst s4.
  destruct (removeAll_same_length Re.comment html) as [_ O5]; [rewrite <- E5; lia|].
  done.
Qed.

(** ** The store *)

Lemma lookup_total_snoc (h : list Node.t) (n : Node.t) r :
  (h ++ [n]) !!! r = if decide (r = length h) then n else h !!! r.
Proof.
  case_decide as E.
  - subst. rewrite lookup_total_app_r by lia. by rewrite Nat.sub_diag.
  - destruct (decide (r < length h)).
    + by rewrite lookup_total_app_l.
    + rewrite !list_lookup_total_alt.
      rewrite !lookup_ge_None_2; [done|lia|rewrite length_app; simpl; lia].
Qed.

Lemma levelOf_snoc h n r :
  levelOf (h ++ [n]) r = if decide (r = length h) then Node.level n else levelOf h r.
Proof. unfold levelOf. rewrite lookup_total_snoc. by case_decide. Qed.

Lemma childrenOf_snoc h n r :
  childrenOf (h ++ [n]) r = if decide (r = length h) then Node.children n else childrenOf h r.
Proof. unfold childrenOf. rewrite lookup_total_snoc. by case_decide. Qed.

Lemma levelOf_appendContent h f i r :
  levelOf (alter (appendContent f) i h) r = levelOf h r.
Proof. unfold levelOf. rewrite list_lookup_total_alter. by case_decide as E; [destruct E as [-> _]|]. Qed.

Lemma childrenOf_appendContent h f i r :
  childrenOf (alter (appendContent f) i h) r = childrenOf h r.
Proof. unfold childrenOf. rewrite list_lookup_total_alter. by case_decide as E; [destruct E as [-> _]|]. Qed.

Lemma levelOf_pushChild h c i r :
  levelOf (alter (pushChild c) i h) r = levelOf h r.
Proof. unfold levelOf. rewrite list_lookup_total_alter. by case_decide as E; [destruct E as [-> _]|]. Qed.

Lemma childrenOf_pushChild h c i r :
  i < length h →
  childrenOf (alter (pushChild c) i h) r =
    if decide (r = i) then childrenOf h r ++ [c] else childrenOf h r.
Proof.
  intros Hi. unfold childrenOf. rewrite list_lookup_total_alter.
  repeat case_decide; subst; simpl; try done; exfalso; intuition lia.
Qed.

Lemma childrenOf_out h r : length h ≤ r → childrenOf h r = [].
Proof.
  intros Hr. unfold childrenOf. by rewrite list_lookup_total_alt, lookup_ge_None_2.
Qed.

(** ** [popToLevel] *)

Lemma popToLevel_split h level stack :
  ∃ closed, stack = closed ++ popToLevel h level stack ∧
    Forall (λ r, (level ≤ levelOf h r)%Z) closed ∧
    match popToLevel h level stack with
    | [] => True
    | top :: _ => (levelOf h top < level)%Z
    end.
Proof.
  induction stack as [|top rest IH]; simpl.
  - by exists [].
  - fold (levelOf h top). destruct (Z.geb_spec (levelOf h top) level) as [Hge|Hlt].
    + destruct IH as (closed & E & Hc & Ht). exists (top :: closed).
      split; [by rewrite E at 1|]. split; [constructor; [lia|done]|done].
    + exists []. split; [done|]. split; [constructor|lia].
Qed.

Lemma Spine_one h roots c : last roots = Some c → Spine h roots [c].
Proof. by split. Qed.

Lemma Spine_push h roots c p rest :
  last (childrenOf h p) = Some c → Spine h roots (p :: rest) → Spine h roots (c :: p :: rest).
Proof. by split. Qed.

Lemma Spine_suffix h roots closed kept :
  Spine h roots (closed ++ kept) → Spine h roots kept.
Proof. induction closed as [|c closed IH]; simpl; [done|]. intros [_ H]. auto. Qed.

Lemma Spine_ext h h' roots stack :
  (∀ p, p ∈ tail stack → childrenOf h' p = childrenOf h p) →
  Spine h roots stack → Spine h' roots stack.
Proof.
  induction stack as [|c rest IH]; simpl; [done|].
  intros Hext [H1 H2]. split.
  - destruct rest as [|p rest']; [done|]. rewrite Hext; [done|]. by left.
  - apply IH; [|done]. intros p Hp. apply Hext. destruct rest; [done|]. by right.
Qed.

Lemma Spine_Chain h roots stack : Spine h roots stack → Chain h roots stack.
Proof.
  induction stack as [|c rest IH]; simpl; [done|].
  intros [H1 H2]. split; [|auto].
  destruct rest as [|p rest']; apply last_Some in H1 as [l' ->];
    apply elem_of_app; right; by left.
Qed.

(** Going down the stack the references fall: a child is younger than its
    parent. *)
Lemma Spine_below s c rest :
  Inv s → Spine (heap s) (tree s) (c :: rest) → ∀ p, p ∈ rest → p < c.
Proof.
  intros HI. revert c. induction rest as [|q rest IH]; intros c H p Hp.
  - by apply elem_of_nil in Hp.
  - destruct H as [H1 H2]. apply last_Some in H1 as [l' E].
    assert (q < c) as Hq.
    { apply (inv_child s HI q c). rewrite E. apply elem_of_app; right; by left. }
    apply elem_of_cons in Hp as [->|Hp]; [done|].
    specialize (IH q H2 p Hp). lia.
Qed.

Lemma headingMatch_range tag level : headingMatch tag = Some level → (1 ≤ level ≤ 6)%Z.
Proof.
  destruct tag as [|h [|d [|]]]; simpl; try done.
  destruct (Ascii.eqb h "H" && Js.between 49 54 d) eqn:E; [|done].
  intros [= <-]. apply andb_prop in E as [_ E]. unfold Js.between in E.
  apply andb_prop in E as [E1 E2].
  apply Nat.leb_le in E1, E2. lia.
Qed.

(** ** The loop body keeps the invariant *)

Section Steps.

Variable random : nat -> string.

Lemma Inv_init : Inv init.
Proof.
  split; simpl; try done.
  - intros r Hr. by apply elem_of_nil in Hr.
  - intros p c Hc. rewrite childrenOf_out in Hc by (simpl; lia). by apply elem_of_nil in Hc.
  - intros r Hr. lia.
  - intros p p' c Hc. rewrite childrenOf_out in Hc by (simpl; lia). by apply elem_of_nil in Hc.
  - intros p c Hc. by apply elem_of_nil in Hc.
Qed.

(** Appending to the [contentHtml] of an object touches nothing the invariant
    speaks of. *)
Lemma Inv_appendContent s f i :
  Inv s → Inv (mkState (alter (appendContent f) i (heap s)) (tree s) (stack s)).
Proof.
  intros [H1 H2 H3 H4 H5 H6 H7]. split; simpl.
  - intros r Hr. rewrite length_alter. auto.
  - intros p c. rewrite childrenOf_appendContent, length_alter, !levelOf_appendContent. auto.
  - intros r. rewrite length_alter, levelOf_appendContent. auto.
  - destruct (stack s).
    + destruct H4 as [-> ->]. done.
    + by rewrite length_alter.
  - eapply Spine_ext; [|done]. intros p _. apply childrenOf_appendContent.
  - intros p p' c. rewrite !childrenOf_appendContent. apply H6.
  - intros p c. rewrite childrenOf_appendContent. apply H7.
Qed.

Lemma stack_valid s r : Inv s → r ∈ stack s → r < length (heap s).
Proof.
  intros HI Hr. destruct (stack s) as [|top rest] eqn:E; [by apply elem_of_nil in Hr|].
  pose proof (inv_top s HI) as Ht. rewrite E in Ht.
  apply elem_of_cons in Hr as [->|Hr]; [lia|].
  pose proof (inv_spine s HI) as Hs. rewrite E in Hs.
  pose proof (Spine_below s top rest HI Hs r Hr). lia.
Qed.

Lemma Inv_heading s title level :
  Inv s → (1 ≤ level ≤ 6)%Z →
  let kept := popToLevel (heap s) level (stack s) in
  let new := length (heap s) in
  let heap1 := heap s ++ [createNode random new title level] in
  Inv (mkState (match kept with [] => heap1 | parent :: _ => alter (pushChild new) parent heap1 end)
               (match kept with [] => tree s ++ [new] | _ :: _ => tree s end)
               (new :: kept)).
Proof.
  intros HI HL kept new heap1.
  destruct (popToLevel_split (heap s) level (stack s)) as (closed & Esplit & Hclosed & Hkept).
  fold kept in Esplit, Hkept.
  assert (Hsp : Spine (heap s) (tree s) kept).
  { eapply Spine_suffix. rewrite <- Esplit. apply HI. }
  assert (Hlen1 : length heap1 = S new) by (unfold heap1; rewrite length_app; simpl; lia).
  assert (Hlv1 : ∀ r, levelOf heap1 r = if decide (r = new) then level else levelOf (heap s) r).
  { intros r. unfold heap1. by rewrite levelOf_snoc. }
  assert (Hch1 : ∀ r, childrenOf heap1 r = childrenOf (heap s) r).
  { intros r. unfold heap1. rewrite childrenOf_snoc. case_decide; [|done].
    subst. simpl. by rewrite childrenOf_out. }
  assert (Hfresh : ∀ p, new ∉ childrenOf (heap s) p).
  { intros p Hp. apply (inv_child s HI) in Hp. unfold new in Hp. lia. }
  destruct kept as [|parent rest] eqn:Ek.
  - split; cbn [heap tree stack].
    + intros r [Hr| ->%list_elem_of_singleton]%elem_of_app; [|lia].
      apply (inv_roots s HI) in Hr. lia.
    + intros p c. rewrite Hch1, !Hlv1. intros Hc.
      destruct (inv_child s HI p c Hc) as [? ?]. fold new in H.
      repeat case_decide; lia.
    + intros r Hr. rewrite Hlv1. case_decide; [done|]. apply (inv_level s HI). lia.
    + lia.
    + apply Spine_one, last_snoc.
    + intros p p' c. rewrite !Hch1. apply (inv_parent s HI).
    + intros p c. rewrite Hch1. intros [Hr| ->%list_elem_of_singleton]%elem_of_app.
      * by apply (inv_root s HI).
      * apply Hfresh.
  - assert (Hpv : parent < new).
    { apply (stack_valid s parent HI). rewrite Esplit. apply elem_of_app; right; by left. }
    assert (Hch2 : ∀ r, childrenOf (alter (pushChild new) parent heap1) r =
                        if decide (r = parent) then childrenOf (heap s) r ++ [new]
                        else childrenOf (heap s) r).
    { intros r. rewrite childrenOf_pushChild by lia. by rewrite Hch1. }
    assert (Hlv2 : ∀ r, levelOf (alter (pushChild new) parent heap1) r =
                        if decide (r = new) then level else levelOf (heap s) r).
    { intros r. by rewrite levelOf_pushChild, Hlv1. }
    split; cbn [heap tree stack].
    + intros r Hr. rewrite length_alter. apply (inv_roots s HI) in Hr. lia.
    + intros p c. rewrite Hch2, !Hlv2, length_alter. intros Hc.
      assert (Hcase : c ∈ childrenOf (heap s) p ∨ (p = parent ∧ c = new)).
      { case_decide; [|by left]. apply elem_of_app in Hc as [?| ->%list_elem_of_singleton]; auto. }
      destruct Hcase as [Hc'|[-> ->]].
      * destruct (inv_child s HI p c Hc') as [? ?]. fold new in H.
        repeat case_decide; lia.
      * repeat case_decide; lia.
    + intros r. rewrite length_alter, Hlv2. intros Hr.
      case_decide; [done|]. apply (inv_level s HI). lia.
    + rewrite length_alter. lia.
    + apply Spine_push.
      * rewrite Hch2. case_decide; [|done]. apply last_snoc.
      * eapply Spine_ext; [|exact Hsp]. intros p Hp. simpl in Hp.
        rewrite Hch2. case_decide; [|done]. subst p.
        pose proof (Spine_below s parent rest HI Hsp parent Hp). lia.
    + intros p p' c. rewrite !Hch2. intros Hc Hc'.
      destruct (decide (c = new)) as [->|Hne].
      * assert (Hnew : ∀ q, new ∈ (if decide (q = parent)
                                  then childrenOf (heap s) q ++ [new]
                                  else childrenOf (heap s) q) → q = parent).
        { intros q Hq. case_decide; [done|]. by apply Hfresh in Hq. }
        rewrite (Hnew p Hc), (Hnew p' Hc'). done.
      * assert (c ∈ childrenOf (heap s) p).
        { destruct (decide (p = parent)); [|done].
          apply elem_of_app in Hc as [?|?%list_elem_of_singleton]; done. }
        assert (c ∈ childrenOf (heap s) p').
        { destruct (decide (p' = parent)); [|done].
          apply elem_of_app in Hc' as [?|?%list_elem_of_singleton]; done. }
        by apply (inv_parent s HI p p' c).
    + intros p c Hr. rewrite Hch2. intros Hc.
      assert (c ∈ childrenOf (heap s) p ∨ c = new) as [?| ->].
      { case_decide; [|by left]. apply elem_of_app in Hc as [?| ->%list_elem_of_singleton]; auto. }
      * by apply (inv_root s HI p c).
      * apply (inv_roots s HI) in Hr. unfold new in Hr. lia.
Qed.

Lemma step_heading s node level :
  headingLevel node = Some level →
  let kept := popToLevel (heap s) level (stack s) in
  let new := length (heap s) in
  let heap1 := heap s ++ [createNode random new (Js.trim (Dom.textContent node)) level] in
  step random s node =
    (mkState (match kept with [] => heap1 | parent :: _ => alter (pushChild new) parent heap1 end)
             (match kept with [] => tree s ++ [new] | _ :: _ => tree s end)
             (new :: kept), Heading).
Proof.
  unfold headingLevel, step. intros ->. simpl.
  by destruct (popToLevel (heap s) level (stack s)).
Qed.

Lemma step_Inv s node : Inv s → Inv (step random s node).1.
Proof.
  intros HI. destruct (headingLevel node) as [level|] eqn:E.
  - rewrite (step_heading s node level E). simpl.
    apply Inv_heading; [done|]. by apply headingMatch_range in E.
  - unfold step. unfold headingLevel in E. rewrite E.
    destruct (stack s) as [|current rest] eqn:Es.
    + pose proof (inv_top s HI) as Ht. rewrite Es in Ht. destruct Ht as [Eh Et].
      rewrite Et. simpl.
      pose proof (Inv_heading s "Intro" 1 HI ltac:(lia)) as H1.
      rewrite Es, Eh, Et in H1. simpl in H1.
      apply (Inv_appendContent _ (Dom.outerHTML node) 0) in H1. simpl in H1.
      rewrite Eh. exact H1.
    + simpl. rewrite <- Es. by apply Inv_appendContent.
Qed.

Lemma run_nil s : run random s [] = s.
Proof. done. Qed.

Lemma run_cons s node rest :
  run random s (node :: rest) = run random (step random s node).1 rest.
Proof.
  unfold run. simpl. destruct (step random s node) as [s1 b]. simpl.
  by destruct (exec random s1 rest).
Qed.

Lemma trace_cons s node rest :
  trace random s (node :: rest) =
    (step random s node).2 :: trace random (step random s node).1 rest.
Proof.
  unfold trace. simpl. destruct (step random s node) as [s1 b]. simpl.
  by destruct (exec random s1 rest).
Qed.

Lemma run_app s pre post :
  run random s (pre ++ post) = run random (run random s pre) post.
Proof.
  revert s. induction pre as [|node pre IH]; intros s; [done|].
  simpl. by rewrite !run_cons, IH.
Qed.

Lemma run_snoc s pre node :
  run random s (pre ++ [node]) = (step random (run random s pre) node).1.
Proof. by rewrite run_app, run_cons, run_nil. Qed.

Lemma run_Inv s nodes : Inv s → Inv (run random s nodes).
Proof.
  revert s. induction nodes as [|node rest IH]; intros s HI; [done|].
  rewrite run_cons. by apply IH, step_Inv.
Qed.

End Steps.

Section Nodes.

Variable random : nat -> string.

(** The objects after a heading. *)
Lemma step_heading_nodes s node level :
  Inv s → headingLevel node = Some level →
  let s' := (step random s node).1 in
  let new := length (heap s) in
  let kept := popToLevel (heap s) level (stack s) in
  length (heap s') = S new ∧ stack s' = new :: kept ∧
  tree s' = match kept with [] => tree s ++ [new] | _ :: _ => tree s end ∧
  heap s' !!! new = createNode random new (Js.trim (Dom.textContent node)) level ∧
  (∀ x, x < new →
     heap s' !!! x = if decide (head kept = Some x) then pushChild new (heap s !!! x)
                     else heap s !!! x).
Proof.
  intros HI Eh s' new kept. unfold s'. rewrite (step_heading random s node level Eh).
  cbn [fst heap tree stack]. fold new kept.
  set (n := createNode random new (Js.trim (Dom.textContent node)) level).
  assert (Hlen1 : length (heap s ++ [n]) = S new) by (rewrite length_app; simpl; lia).
  destruct kept as [|parent rest] eqn:Ek.
  - split; [done|]. split; [done|]. split; [done|]. split.
    + rewrite lookup_total_snoc. by case_decide.
    + intros x Hx. simpl. rewrite lookup_total_snoc. case_decide; [lia|done].
  - assert (Hpv : parent < new).
    { destruct (popToLevel_split (heap s) level (stack s)) as (closed & E & _).
      fold kept in E. rewrite Ek in E.
      apply (stack_valid s parent HI). rewrite E. apply elem_of_app; right; by left. }
    split; [by rewrite length_alter|]. split; [done|]. split; [done|]. split.
    + rewrite list_lookup_total_alter_ne by lia. rewrite lookup_total_snoc. by case_decide.
    + intros x Hx. simpl. rewrite list_lookup_total_alter, !lookup_total_snoc.
      fold new. repeat case_decide; simplify_eq; try done; try lia.
      destruct H as [-> _]. done.
Qed.

End Nodes.

(** ** The stack between two turns of the loop *)

Section Stack.

Variable random : nat -> string.

Lemma step_not_FirstRoot s node : Inv s → (step random s node).2 ≠ FirstRoot.
Proof.
  intros HI. unfold step.
  destruct (headingMatch _) as [level|].
  - by destruct (popToLevel _ _ _).
  - pose proof (inv_top s HI) as Ht.
    destruct (stack s); [|done]. destruct Ht as [_ ->]. done.
Qed.

Lemma step_stack s node :
  Inv s → ∃ top rest, stack (step random s node).1 = top :: rest.
Proof.
  intros HI. unfold step.
  destruct (headingMatch _) as [level|].
  - destruct (popToLevel _ _ _); simpl; eauto.
  - pose proof (inv_top s HI) as Ht.
    destruct (stack s) as [|top rest] eqn:Es; simpl; [|eauto].
    destruct Ht as [_ ->]. simpl. eauto.
Qed.

Lemma run_stack pre :
  pre ≠ [] → ∃ top rest, stack (run random init pre) = top :: rest.
Proof.
  destruct pre as [|node pre _] using rev_ind; [done|]. intros _.
  rewrite run_snoc. apply step_stack, run_Inv, Inv_init.
Qed.

Lemma trace_not_FirstRoot s nodes : Inv s → FirstRoot ∉ trace random s nodes.
Proof.
  revert s. induction nodes as [|node rest IH]; intros s HI.
  - apply not_elem_of_nil.
  - rewrite trace_cons. apply not_elem_of_cons. split.
    + intros E. by apply (step_not_FirstRoot s node HI).
    + by apply IH, step_Inv.
Qed.

Lemma step_content s node top rest :
  headingLevel node = None → stack s = top :: rest →
  step random s node =
    (mkState (alter (appendContent (Dom.outerHTML node)) top (heap s)) (tree s) (stack s),
     TopOfStack).
Proof. unfold headingLevel, step. by intros -> ->. Qed.

End Stack.

(** C9. Once the first element of the body is through, the stack of open
    Sections is never empty again: at every later turn of the loop it has a
    top, which is the object created last.  So no turn takes the branch that
    appends to [tree[0]], and an element that is no heading goes to the top of
    the stack: after the turn the [contentHtml] of the top is what it was,
    followed by the outer markup of the element, while the other fields of
    the top, every other object, the roots and the stack are as before. *)
Theorem stack_stays_open random (body : list Dom.Node) :
  (FirstRoot ∉ trace random init body) ∧
  (∀ pre node post, body = pre ++ node :: post → pre ≠ [] →
    let s := run random init pre in
    let s' := run random init (pre ++ [node]) in
    ∃ top rest, stack s = top :: rest ∧ S top = length (heap s) ∧
      (step random s node).2 ≠ FirstRoot ∧
      (headingLevel node = None →
       (step random s node).2 = TopOfStack ∧
       Node.contentHtml (heap s' !!! top) =
         Node.contentHtml (heap s !!! top) +:+ Dom.outerHTML node ∧
       Node.id (heap s' !!! top) = Node.id (heap s !!! top) ∧
       Node.title (heap s' !!! top) = Node.title (heap s !!! top) ∧
       Node.level (heap s' !!! top) = Node.level (heap s !!! top) ∧
       Node.children (heap s' !!! top) = Node.children (heap s !!! top) ∧
       length (heap s') = length (heap s) ∧
       (∀ r, r ≠ top → heap s' !!! r = heap s !!! r) ∧
       tree s' = tree s ∧ stack s' = stack s)).
Proof.
  split; [apply trace_not_FirstRoot, Inv_init|].
  intros pre node post _ Hpre s s'.
  assert (HI : Inv s) by apply run_Inv, Inv_init.
  destruct (run_stack random pre Hpre) as (top & rest & Es). fold s in Es.
  exists top, rest. split; [done|].
  pose proof (inv_top s HI) as Ht. rewrite Es in Ht.
  split; [done|]. split; [by apply step_not_FirstRoot|].
  intros Hn.
  assert (E : step random s node =
              (mkState (alter (appendContent (Dom.outerHTML node)) top (heap s))
                       (tree s) (stack s), TopOfStack)) by by apply step_content with rest.
  assert (E' : s' = mkState (alter (appendContent (Dom.outerHTML node)) top (heap s))
                            (tree s) (stack s)).
  { unfold s'. rewrite run_snoc. fold s. by rewrite E. }
  rewrite E, E'. cbn [fst snd heap tree stack].
  rewrite list_lookup_total_alter_eq by lia. cbn [appendContent Node.contentHtml Node.id
    Node.title Node.level Node.children].
  repeat split; try done.
  - by rewrite length_alter.
  - intros r Hr. by rewrite list_lookup_total_alter_ne.
Qed.

(** ** Levels along the ancestors *)

Lemma reify_wellLevelled s :
  Inv s → ∀ fuel r ancestors,
    r < length (heap s) → length (heap s) ≤ fuel + r →
    Forall (λ a, (a < levelOf (heap s) r)%Z) ancestors →
    wellLevelled ancestors (reify fuel (heap s) r) = true.
Proof.
  intros HI. induction fuel as [|f IH]; intros r ancestors Hr Hf Ha; [lia|].
  simpl. fold (levelOf (heap s) r). fold (childrenOf (heap s) r).
  pose proof (inv_level s HI r Hr) as [H1 H6].
  repeat (apply andb_true_intro; split).
  - by apply Z.leb_le.
  - by apply Z.leb_le.
  - apply forallb_forall. intros a Ha'%list_elem_of_In.
    apply Z.ltb_lt. by eapply (proj1 (Forall_forall _ _) Ha).
  - apply forallb_forall. intros k (c & <- & Hc%list_elem_of_In)%in_map_iff.
    destruct (inv_child s HI r c Hc) as [Hc1 Hc2].
    apply IH; [lia|lia|].
    constructor; [done|].
    eapply Forall_impl; [exact Ha|]. simpl. intros a Hlt. lia.
Qed.

(** C8. In every tree the builder returns, whatever the markup, each Section
    has an integer level from 1 to 6 and each of its ancestors has a strictly
    smaller level; in particular a child lies strictly deeper than its parent,
    by any amount. *)
Theorem ancestors_have_smaller_levels random parse (html : string) :
  forallb (wellLevelled []) (buildTreeFromHtml random parse html) = true.
Proof.
  unfold buildTreeFromHtml, buildTree, result.
  set (s := run random init _).
  assert (HI : Inv s) by apply run_Inv, Inv_init.
  apply forallb_forall. intros k (r & <- & Hr%list_elem_of_In)%in_map_iff.
  apply (reify_wellLevelled s HI); [by apply (inv_roots s HI)|lia|constructor].
Qed.

(** ** Trees read off the store *)

Lemma Sec_induction (P : Sec.t → Prop) :
  (∀ i title level content kids, Forall P kids → P (Sec.mk i title level content kids)) →
  ∀ s, P s.
Proof.
  intros H. fix IH 1. intros [i title level content kids]. apply H.
  induction kids as [|k kids IHk]; constructor; [apply IH|exact IHk].
Qed.

(** Fuel above the number of objects is enough: more fuel reads the same
    tree. *)
Lemma reify_fuel s :
  Inv s → ∀ f1 f2 r,
    r < length (heap s) → length (heap s) ≤ f1 + r → length (heap s) ≤ f2 + r →
    reify f1 (heap s) r = reify f2 (heap s) r.
Proof.
  intros HI. induction f1 as [|f1 IH]; intros f2 r Hr H1 H2; [lia|].
  destruct f2 as [|f2]; [lia|]. simpl. f_equal.
  apply map_ext_in. intros c Hc%list_elem_of_In.
  destruct (inv_child s HI r c Hc) as [Hc1 _]. apply IH; lia.
Qed.

(** The children of the Section read at a reference are the Sections read
    at the references its object holds, in order. *)
Lemma reify_children fuel h r :
  Sec.children (reify (S fuel) h r) = List.map (reify fuel h) (childrenOf h r).
Proof. done. Qed.

Lemma result_fuel s fuel :
  Inv s → length (heap s) ≤ fuel → List.map (reify fuel (heap s)) (tree s) = result s.
Proof.
  intros HI Hf. unfold result. apply map_ext_in. intros r Hr%list_elem_of_In.
  pose proof (inv_roots s HI r Hr). apply (reify_fuel s HI); lia.
Qed.

(** ** Two runs on the same body *)

Section TwoRuns.

Variables random1 random2 : nat -> string.

Lemma noId_lookup (h : list Node.t) (r : nat) : noId (h !!! r) = (noId <$> h) !!! r.
Proof.
  destruct (decide (r < length h)).
  - symmetry. by apply list_lookup_total_fmap.
  - rewrite !list_lookup_total_alt, !lookup_ge_None_2; [done|rewrite length_fmap; lia|lia].
Qed.

Lemma Sim_levelOf (h1 h2 : list Node.t) r : noId <$> h1 = noId <$> h2 → levelOf h1 r = levelOf h2 r.
Proof.
  intros E. unfold levelOf.
  change (Node.level (noId (h1 !!! r)) = Node.level (noId (h2 !!! r))).
  by rewrite !noId_lookup, E.
Qed.

Lemma Sim_popToLevel (h1 h2 : list Node.t) level stack :
  noId <$> h1 = noId <$> h2 → popToLevel h1 level stack = popToLevel h2 level stack.
Proof.
  intros E. induction stack as [|top rest IH]; simpl; [done|].
  fold (levelOf h1 top) (levelOf h2 top). rewrite (Sim_levelOf h1 h2 top E), IH. done.
Qed.

Lemma noId_alter f i (h : list Node.t) :
  (∀ n, noId (f n) = f (noId n)) → noId <$> alter f i h = alter f i (noId <$> h).
Proof. intros Hf. apply list_fmap_alter, Forall_forall. auto. Qed.

Lemma Sim_step s1 s2 node :
  Sim s1 s2 →
  Sim (step random1 s1 node).1 (step random2 s2 node).1 ∧
  (step random1 s1 node).2 = (step random2 s2 node).2.
Proof.
  intros (Eh & Et & Es).
  assert (El : length (heap s1) = length (heap s2)).
  { by rewrite <- (length_fmap noId (heap s1)), Eh, length_fmap. }
  unfold step. destruct (headingMatch _) as [level|].
  - rewrite <- Es, <- (Sim_popToLevel _ _ _ _ Eh), El, Et.
    destruct (popToLevel _ _ _) as [|parent rest]; simpl.
    + split; [|done]. split; [|done]. simpl. by rewrite !fmap_app, Eh.
    + split; [|done]. split; [|done]. simpl.
      rewrite !noId_alter by done. by rewrite !fmap_app, Eh.
  - rewrite <- Es, <- Et. destruct (stack s1) as [|current rest]; simpl.
    + destruct (tree s1) as [|first roots]; simpl.
      * split; [|done]. split; [|by rewrite El]. simpl. by rewrite !fmap_app, Eh.
      * split; [|done]. split; [|done]. simpl. rewrite !noId_alter by done. by rewrite Eh.
    + split; [|done]. split; [|done]. simpl. rewrite !noId_alter by done. by rewrite Eh.
Qed.

Lemma Sim_run s1 s2 nodes :
  Sim s1 s2 → Sim (run random1 s1 nodes) (run random2 s2 nodes).
Proof.
  revert s1 s2. induction nodes as [|node rest IH]; intros s1 s2 HS; [done|].
  rewrite !run_cons. by apply IH, Sim_step.
Qed.

Lemma Sim_reify (h1 h2 : list Node.t) fuel r :
  noId <$> h1 = noId <$> h2 → eraseId (reify fuel h1 r) = eraseId (reify fuel h2 r).
Proof.
  intros E. revert r. induction fuel as [|f IH]; intros r; simpl.
  - pose proof (noId_lookup h1 r) as N1. pose proof (noId_lookup h2 r) as N2.
    rewrite E in N1. rewrite <- N2 in N1. injection N1 as E1 E2 E3 E4.
    by rewrite E1, E2, E3.
  - pose proof (noId_lookup h1 r) as N1. pose proof (noId_lookup h2 r) as N2.
    rewrite E in N1. rewrite <- N2 in N1. injection N1 as E1 E2 E3 E4.
    rewrite E1, E2, E3, E4. f_equal. rewrite !map_map. apply map_ext. intros c. apply IH.
Qed.

Lemma Sim_buildTree body :
  List.map eraseId (buildTree random1 body) = List.map eraseId (buildTree random2 body).
Proof.
  unfold buildTree, result.
  destruct (Sim_run init init body) as (Eh & Et & _); [done|].
  rewrite Et, !map_map.
  assert (El : length (heap (run random1 init body)) = length (heap (run random2 init body))).
  { by rewrite <- (length_fmap noId (heap (run random1 init body))), Eh, length_fmap. }
  rewrite El. apply map_ext. intros r. by apply Sim_reify.
Qed.

End TwoRuns.

(** ** The serializer *)

Lemma append_cons a s1 s2 : String a s1 +:+ s2 = String a (s1 +:+ s2).
Proof. done. Qed.

Lemma append_nil_l s : EmptyString +:+ s = s.
Proof. done. Qed.

Lemma append_nil_r s : s +:+ EmptyString = s.
Proof. induction s as [|a s IH]; [done|]. by rewrite append_cons, IH. Qed.

Lemma append_assoc s1 s2 s3 : (s1 +:+ s2) +:+ s3 = s1 +:+ (s2 +:+ s3).
Proof. induction s1 as [|a s1 IH]; [done|]. by rewrite !append_cons, IH. Qed.

Lemma concat_cons x l : Dom.concat (x :: l) = x +:+ Dom.concat l.
Proof. done. Qed.

Lemma concat_app l1 l2 : Dom.concat (l1 ++ l2) = Dom.concat l1 +:+ Dom.concat l2.
Proof.
  induction l1 as [|x l1 IH]; [done|].
  simpl. unfold Dom.concat in *. simpl. by rewrite IH, append_assoc.
Qed.

Section Serializer.

Variable parse : string -> list Dom.Node.
Hypothesis parse_empty : parse EmptyString = [].

Lemma sanitizeTable_empty : sanitizeTable parse (cleanHtml EmptyString) = EmptyString.
Proof. unfold sanitizeTable. change (cleanHtml EmptyString) with EmptyString. by rewrite parse_empty. Qed.

Lemma fold_buildHtmlNode (E : Sec.t → string) level kids :
  Forall (λ k, ∀ level acc, buildHtmlNode parse level acc k = acc +:+ E k) kids →
  ∀ acc, fold_left (buildHtmlNode parse level) kids acc =
         acc +:+ Dom.concat (List.map E kids).
Proof.
  induction 1 as [|k kids Hk _ IH]; intros acc; cbn [fold_left List.map].
  - by rewrite append_nil_r.
  - by rewrite IH, Hk, concat_cons, append_assoc.
Qed.

Lemma concat_flat_map (forest : list Sec.t) :
  Dom.concat (List.map (emitSection parse) (flat_map preorder forest)) =
  Dom.concat (List.map (λ k, Dom.concat (List.map (emitSection parse) (preorder k))) forest).
Proof.
  induction forest as [|k forest IH]; [done|].
  cbn [flat_map List.map]. rewrite List.map_app, concat_app, IH. done.
Qed.

Lemma buildHtmlNode_preorder n :
  ∀ level acc, buildHtmlNode parse level acc n =
               acc +:+ Dom.concat (List.map (emitSection parse) (preorder n)).
Proof.
  induction n as [i title lvl content kids IH] using Sec_induction.
  intros level acc.
  assert (Hkids := fold_buildHtmlNode _ (level + 1) kids IH).
  cbn [preorder List.map Sec.children].
  rewrite concat_cons, concat_flat_map.
  set (K := Dom.concat (List.map _ kids)) in *.
  assert (Hhead : ∀ acc',
    match kids with
    | [] => acc'
    | _ :: _ => fold_left (buildHtmlNode parse (level + 1)) kids acc'
    end = acc' +:+ K).
  { intros acc'. destruct kids; [|apply Hkids]. subst K. simpl. by rewrite append_nil_r. }
  unfold buildHtmlNode; fold buildHtmlNode. cbn [Sec.level Sec.title Sec.contentHtml].
  rewrite Hhead.
  unfold emitSection, headingMarkup, sanitizedContent.
  cbn [Sec.level Sec.title Sec.contentHtml].
  destruct content as [|c content]; cbn [Js.isEmpty].
  - rewrite sanitizeTable_empty. by rewrite !append_assoc, ?append_nil_l.
  - by rewrite !append_assoc.
Qed.

Lemma buildHtml_preorder nodes level acc :
  buildHtml parse nodes level acc = acc +:+ serializeSpec parse nodes.
Proof.
  unfold buildHtml, serializeSpec, preorderAll. rewrite concat_flat_map.
  apply fold_buildHtmlNode, Forall_forall. intros n _. apply buildHtmlNode_preorder.
Qed.

End Serializer.

(** C7. The export walks the tree depth-first in pre-order: for each Section
    it writes the heading tag whose number is the [level] field of the Section
    (the depth counter of [buildHtml] is never read) around the title, then
    the sanitized [contentHtml], then the children in order, and only then
    the next sibling.  Parsing the empty string is taken to give an empty
    body, as [contentHtml] is skipped when it is empty. *)
Theorem serialize_preorder_live_level parse (parse_empty : parse EmptyString = [])
    (nodes : list Sec.t) :
  exportHtml parse nodes = serializeSpec parse nodes ∧
  (∀ depth acc, buildHtml parse nodes depth acc = acc +:+ serializeSpec parse nodes).
Proof.
  split.
  - unfold exportHtml. by rewrite buildHtml_preorder.
  - intros depth acc. by apply buildHtml_preorder.
Qed.

(** ** Identifiers *)

Lemma fold_left_Forall2 {A B C} (f : A → B → A) (g : A → C → A) l l' :
  Forall2 (λ x y, ∀ a, f a x = g a y) l l' → ∀ a, fold_left f l a = fold_left g l' a.
Proof. induction 1 as [|x y l l' H _ IH]; intros a; simpl; [done|]. by rewrite H, IH. Qed.

Lemma Forall2_map_r {A B} (P : A → B → Prop) (f : A → B) l :
  Forall (λ x, P x (f x)) l → Forall2 P l (List.map f l).
Proof. induction 1; simpl; by constructor. Qed.

Lemma buildHtmlNode_eraseId parse n :
  ∀ level acc, buildHtmlNode parse level acc n = buildHtmlNode parse level acc (eraseId n).
Proof.
  induction n as [i title lvl content kids IH] using Sec_induction.
  intros level acc. simpl.
  destruct kids as [|k kids]; [done|].
  cbn [List.map]. apply fold_left_Forall2.
  change (eraseId k :: List.map eraseId kids) with (List.map eraseId (k :: kids)).
  apply Forall2_map_r. eapply Forall_impl; [exact IH|]. simpl. auto.
Qed.

Lemma exportHtml_eraseId parse t :
  exportHtml parse t = exportHtml parse (List.map eraseId t).
Proof.
  unfold exportHtml, buildHtml. apply fold_left_Forall2, Forall2_map_r, Forall_forall.
  intros n _ a. apply buildHtmlNode_eraseId.
Qed.

Lemma appendNode_eraseId n :
  ∀ acc, Plain.appendNode acc n = Plain.appendNode acc (eraseId n).
Proof.
  induction n as [i title lvl content kids IH] using Sec_induction.
  intros acc. simpl. apply fold_left_Forall2, Forall2_map_r.
  eapply Forall_impl; [exact IH|]. simpl. auto.
Qed.

Lemma paragraphsOfTree_eraseId t :
  Plain.paragraphsOfTree t = Plain.paragraphsOfTree (List.map eraseId t).
Proof.
  unfold Plain.paragraphsOfTree. apply fold_left_Forall2, Forall2_map_r, Forall_forall.
  intros n _ a. apply appendNode_eraseId.
Qed.

Section Ids.

Variable random : nat -> string.

Lemma IdOk_alter s f i :
  (∀ n, Node.id (f n) = Node.id n) → IdOk random s →
  IdOk random (mkState (alter f i (heap s)) (tree s) (stack s)).
Proof.
  intros Hf H r. simpl. rewrite length_alter. intros Hr.
  rewrite list_lookup_total_alter. case_decide as E; [|by apply H].
  destruct E as [-> _]. rewrite Hf. by apply H.
Qed.

Lemma IdOk_snoc h n roots stack roots' stack' :
  Node.id n = cryptoId random (length h) → IdOk random (mkState h roots stack) →
  IdOk random (mkState (h ++ [n]) roots' stack').
Proof.
  intros Hn H r. simpl. rewrite length_app. simpl. intros Hr.
  rewrite lookup_total_snoc. case_decide; [by subst|]. apply H. simpl. lia.
Qed.

Lemma step_IdOk s node : IdOk random s → IdOk random (step random s node).1.
Proof.
  intros H. destruct s as [h roots st]. unfold step. simpl.
  destruct (headingMatch _) as [level|].
  - destruct (popToLevel _ _ _) as [|parent rest]; simpl.
    + by eapply IdOk_snoc.
    + apply (IdOk_alter (mkState _ roots st)); [done|]. by eapply IdOk_snoc.
  - destruct st as [|current rest]; simpl.
    + destruct roots as [|first roots]; simpl.
      * by eapply IdOk_snoc.
      * by apply (IdOk_alter (mkState h _ _)).
    + by apply (IdOk_alter (mkState h _ _)).
Qed.

Lemma run_IdOk s nodes : IdOk random s → IdOk random (run random s nodes).
Proof.
  revert s. induction nodes as [|node rest IH]; intros s H; [done|].
  rewrite run_cons. by apply IH, step_IdOk.
Qed.

Lemma reify_ids s :
  Inv s → IdOk random s → ∀ fuel r, r < length (heap s) →
  Forall (λ sec, ∃ k, Sec.id sec = cryptoId random k) (preorder (reify fuel (heap s) r)).
Proof.
  intros HI Hid. induction fuel as [|f IH]; intros r Hr.
  - simpl. constructor; [|constructor]. exists r. by apply Hid.
  - simpl. constructor; [exists r; by apply Hid|].
    apply Forall_forall. intros sec (k & (c & <- & Hc%list_elem_of_In)%in_map_iff & Hsec)%list_elem_of_In%in_flat_map.
    fold (childrenOf (heap s) r) in Hc.
    destruct (inv_child s HI r c Hc) as [Hc1 _].
    eapply (proj1 (Forall_forall _ _) (IH c ltac:(lia))). by apply list_elem_of_In.
Qed.

Lemma buildTree_ids body :
  Forall (λ sec, ∃ k, Sec.id sec = cryptoId random k) (preorderAll (buildTree random body)).
Proof.
  unfold buildTree, result, preorderAll.
  set (s := run random init body).
  assert (HI : Inv s) by apply run_Inv, Inv_init.
  assert (Hid : IdOk random s).
  { apply run_IdOk. intros r Hr. simpl in Hr. lia. }
  apply Forall_forall.
  intros sec (k & (r & <- & Hr%list_elem_of_In)%in_map_iff & Hsec)%list_elem_of_In%in_flat_map.
  eapply (proj1 (Forall_forall _ _) (reify_ids s HI Hid _ r (inv_roots s HI r Hr))).
  by apply list_elem_of_In.
Qed.

End Ids.

(** C10. Two runs of the builder on the same markup return trees that agree
    in every field but [id]: titles, levels, [contentHtml] and nesting are a
    function of the markup.  Each [id] is [n_] followed by the characters
    cut out of the random draw of its creation.  The export and the plain-text
    projection read no [id], so they give the same text for both runs; like
    [cleanHtml] and [sanitizeTable] they are functions of their input alone. *)
Theorem deterministic_but_for_ids random1 random2 parse (html : string) :
  let t1 := buildTreeFromHtml random1 parse html in
  let t2 := buildTreeFromHtml random2 parse html in
  List.map eraseId t1 = List.map eraseId t2 ∧
  Forall (λ sec, ∃ k, Sec.id sec = "n_" +:+ Js.slice 2 9 (random1 k)) (preorderAll t1) ∧
  exportHtml parse t1 = exportHtml parse t2 ∧
  Plain.paragraphsOfTree t1 = Plain.paragraphsOfTree t2.
Proof.
  intros t1 t2.
  assert (E : List.map eraseId t1 = List.map eraseId t2) by apply Sim_buildTree.
  split; [done|]. split; [apply buildTree_ids|]. split.
  - by rewrite (exportHtml_eraseId parse t1), (exportHtml_eraseId parse t2), E.
  - by rewrite (paragraphsOfTree_eraseId t1), (paragraphsOfTree_eraseId t2), E.
Qed.

(** ** What later turns of the loop leave alone *)

Lemma lookup_alter_field {B} (g : Node.t → B) f i (h : list Node.t) r :
  (∀ n, g (f n) = g n) → g (alter f i h !!! r) = g (h !!! r).
Proof.
  intros Hf. rewrite list_lookup_total_alter. case_decide as E; [|done].
  destruct E as [-> _]. apply Hf.
Qed.

Lemma Extends_refl s : Extends s s.
Proof. repeat split; try done. exists []. by rewrite app_nil_r. Qed.

Lemma Extends_trans s1 s2 s3 : Extends s1 s2 → Extends s2 s3 → Extends s1 s3.
Proof.
  intros (L1 & F1 & C1 & R1 & K1 & [m1 T1]) (L2 & F2 & C2 & R2 & K2 & [m2 T2]).
  split; [lia|]. split; [|split; [|split; [|split]]].
  - intros r Hr. destruct (F1 r Hr) as (a1 & b1 & c1).
    destruct (F2 r ltac:(lia)) as (a2 & b2 & c2). split; [|split]; congruence.
  - intros p c Hc. rewrite C2 by lia. by apply C1.
  - intros c Hc. rewrite R2 by lia. by apply R1.
  - intros r Hr. rewrite K2 by lia. by apply K1.
  - exists (m1 ++ m2). by rewrite T2, T1, app_assoc.
Qed.

Section Frame.

Variable random : nat -> string.

Lemma Extends_appendContent s f top rest :
  Inv s → stack s = top :: rest →
  Extends s (mkState (alter (appendContent f) top (heap s)) (tree s) (stack s)).
Proof.
  intros HI Es. pose proof (inv_top s HI) as Ht. rewrite Es in Ht.
  split; [|split; [|split; [|split; [|split]]]]; cbn [heap tree stack].
  - by rewrite length_alter.
  - intros r Hr. split; [|split].
    + by apply (lookup_alter_field Node.id).
    + by apply (lookup_alter_field Node.title).
    + apply levelOf_appendContent.
  - intros p c _. by rewrite childrenOf_appendContent.
  - done.
  - intros r Hr. unfold contentOf. rewrite list_lookup_total_alter_ne; [done|lia].
  - exists []. by rewrite app_nil_r.
Qed.

Lemma Extends_heading s title level :
  Inv s →
  let kept := popToLevel (heap s) level (stack s) in
  let new := length (heap s) in
  let heap1 := heap s ++ [createNode random new title level] in
  Extends s
    (mkState (match kept with [] => heap1 | parent :: _ => alter (pushChild new) parent heap1 end)
             (match kept with [] => tree s ++ [new] | _ :: _ => tree s end)
             (new :: kept)).
Proof.
  intros HI kept new heap1.
  assert (Hold : ∀ r, r < new → heap1 !!! r = heap s !!! r).
  { intros r Hr. unfold heap1. by rewrite lookup_total_app_l. }
  assert (Hch1 : ∀ r, childrenOf heap1 r = childrenOf (heap s) r).
  { intros r. unfold heap1. rewrite childrenOf_snoc. case_decide; [|done].
    subst. simpl. by rewrite childrenOf_out. }
  destruct kept as [|parent rest] eqn:Ek;
    (split; [|split; [|split; [|split; [|split]]]]); cbn [heap tree stack].
  - unfold heap1. rewrite length_app. simpl. lia.
  - intros r Hr. unfold levelOf. by rewrite (Hold r Hr).
  - intros p c _. by rewrite Hch1.
  - intros c Hc. rewrite elem_of_app, list_elem_of_singleton. unfold new. intuition lia.
  - intros r Hr. unfold contentOf. rewrite Hold; [done|unfold new; lia].
  - by exists [new].
  - rewrite length_alter. unfold heap1. rewrite length_app. simpl. lia.
  - intros r Hr. split; [|split].
    + rewrite (lookup_alter_field Node.id) by done. by rewrite Hold.
    + rewrite (lookup_alter_field Node.title) by done. by rewrite Hold.
    + rewrite levelOf_pushChild. unfold levelOf. by rewrite Hold.
  - intros p c Hc.
    assert (Hpv : parent < new).
    { destruct (popToLevel_split (heap s) level (stack s)) as (closed & E & _).
      fold kept in E. rewrite Ek in E.
      apply (stack_valid s parent HI). rewrite E. apply elem_of_app; right; by left. }
    rewrite childrenOf_pushChild by (unfold heap1; rewrite length_app; simpl; lia).
    rewrite Hch1. case_decide; [|done].
    rewrite elem_of_app, list_elem_of_singleton. unfold new. intuition lia.
  - done.
  - intros r Hr. unfold contentOf.
    rewrite (lookup_alter_field Node.contentHtml) by done.
    rewrite Hold; [done|unfold new; lia].
  - exists []. by rewrite app_nil_r.
Qed.

Lemma step_Extends s node : Inv s → Extends s (step random s node).1.
Proof.
  intros HI. destruct (headingLevel node) as [level|] eqn:E.
  - rewrite (step_heading random s node level E). simpl. by apply Extends_heading.
  - destruct (stack s) as [|top rest] eqn:Es.
    + pose proof (inv_top s HI) as Ht. rewrite Es in Ht. destruct Ht as [Eh Et].
      unfold step. unfold headingLevel in E. rewrite E, Es, Et, Eh. simpl.
      split; [|split; [|split; [|split; [|split]]]]; cbn [heap tree stack];
        rewrite ?Eh, ?Et; simpl; try (intros; lia).
      by exists [0].
    + rewrite (step_content random s node top rest E Es). simpl.
      by apply Extends_appendContent with rest.
Qed.

Lemma run_Extends s nodes : Inv s → Extends s (run random s nodes).
Proof.
  revert s. induction nodes as [|node rest IH]; intros s HI; [apply Extends_refl|].
  rewrite run_cons. eapply Extends_trans; [by apply step_Extends|]. by apply IH, step_Inv.
Qed.

End Frame.

(** ** Content before the first heading *)

Section IntroNode.

Variable random : nat -> string.

Lemma step_first_content node :
  headingLevel node = None →
  step random init node = (introState random (Dom.outerHTML node), Intro).
Proof. unfold headingLevel, step. by intros ->. Qed.

Lemma step_more_content content node :
  headingLevel node = None →
  step random (introState random content) node =
    (introState random (content +:+ Dom.outerHTML node), TopOfStack).
Proof. unfold headingLevel, step. by intros ->. Qed.

Lemma run_more_content content nodes :
  Forall (λ e, headingLevel e = None) nodes →
  run random (introState random content) nodes =
    introState random (content +:+ Dom.innerHTML nodes).
Proof.
  intros H. revert content. induction H as [|node nodes Hn _ IH]; intros content.
  - rewrite run_nil. unfold Dom.innerHTML. simpl. by rewrite append_nil_r.
  - rewrite run_cons, (step_more_content content node Hn). simpl. rewrite IH.
    unfold Dom.innerHTML. cbn [List.map]. by rewrite concat_cons, append_assoc.
Qed.

Lemma run_content node nodes :
  Forall (λ e, headingLevel e = None) (node :: nodes) →
  run random init (node :: nodes) = introState random (Dom.innerHTML (node :: nodes)).
Proof.
  intros [Hn H]%Forall_cons.
  rewrite run_cons, (step_first_content node Hn). simpl.
  by rewrite (run_more_content _ nodes H).
Qed.

Lemma Inv_introState content : Inv (introState random content).
Proof.
  pose proof (Inv_heading random init "Intro" 1 Inv_init ltac:(lia)) as H.
  apply (Inv_appendContent _ content 0) in H. exact H.
Qed.

Lemma step_Intro_branch s node : (step random s node).2 = Intro → stack s = [].
Proof.
  unfold step. destruct (headingMatch _).
  - by destruct (popToLevel _ _ _).
  - destruct (stack s); [done|]. done.
Qed.

Lemma trace_no_Intro s nodes : Inv s → stack s ≠ [] → Intro ∉ trace random s nodes.
Proof.
  revert s. induction nodes as [|node rest IH]; intros s HI Hs.
  - apply not_elem_of_nil.
  - rewrite trace_cons. apply not_elem_of_cons. split.
    + intros E. symmetry in E. by apply step_Intro_branch in E.
    + apply IH; [by apply step_Inv|].
      destruct (step_stack random s node HI) as (top & rest' & ->). done.
Qed.

Lemma trace_app s pre post :
  trace random s (pre ++ post) = trace random s pre ++ trace random (run random s pre) post.
Proof.
  revert s. induction pre as [|node pre IH]; intros s; [done|].
  simpl. by rewrite !trace_cons, run_cons, IH.
Qed.

(** The first root after the run, when the body starts with content. *)
Lemma first_root_after pre rest :
  pre ≠ [] → Forall (λ e, headingLevel e = None) pre →
  match rest with [] => True | e :: _ => headingLevel e ≠ None end →
  let fin := run random init (pre ++ rest) in
  (∃ more, tree fin = 0 :: more) ∧
  Node.id (heap fin !!! 0) = cryptoId random 0 ∧
  Node.title (heap fin !!! 0) = "Intro" ∧
  Node.level (heap fin !!! 0) = 1%Z ∧
  Node.contentHtml (heap fin !!! 0) = Dom.innerHTML pre.
Proof.
  intros Hne Hpre Hrest fin. destruct pre as [|e pre]; [done|].
  assert (E1 : run random init (e :: pre) = introState random (Dom.innerHTML (e :: pre)))
    by by apply run_content.
  set (s1 := introState random (Dom.innerHTML (e :: pre))) in *.
  assert (HI1 : Inv s1) by (rewrite <- E1; apply run_Inv, Inv_init).
  unfold fin. rewrite run_app, E1.
  destruct rest as [|h rest].
  - rewrite run_nil. split; [by exists []|done].
  - destruct (headingLevel h) as [level|] eqn:Eh; [|done].
    rewrite run_cons.
    set (s2 := (step random s1 h).1).
    assert (HI2 : Inv s2) by by apply step_Inv.
    destruct (step_heading_nodes random s1 h level HI1 Eh) as (L2 & _ & T2 & _ & N2).
    fold s2 in L2, T2, N2. specialize (N2 0 ltac:(simpl; lia)).
    change (length (heap s1)) with 1 in L2.
    destruct (run_Extends random s2 rest HI2) as (_ & F & _ & _ & K & [more Tm]).
    destruct (F 0 ltac:(lia)) as (Fid & Ftitle & Flevel).
    split.
    { rewrite Tm, T2. destruct (popToLevel _ _ _); simpl; eauto. }
    unfold levelOf in Flevel. specialize (K 0 ltac:(lia)). unfold contentOf in K.
    rewrite Fid, Ftitle, Flevel, K, N2. by case_decide.
Qed.

End IntroNode.

(** C4. When the body starts with elements that are no headings, the builder
    synthesizes the Intro root once, at the first of them: the first root of
    the tree is titled Intro, has level 1 and holds, in order, the outer
    markup of all the elements before the first heading; the loop takes the
    synthesizing branch at the first element and at no later one.  The
    markup [<p>hello</p>] gives the tree of that one root. *)
Theorem intro_synthesized_once random (pre rest : list Dom.Node) :
  pre ≠ [] → Forall (λ e, headingLevel e = None) pre →
  match rest with [] => True | e :: _ => headingLevel e ≠ None end →
  let body := pre ++ rest in
  (∃ kids others,
     buildTree random body =
       Sec.mk (cryptoId random 0) "Intro" 1 (Dom.innerHTML pre) kids :: others) ∧
  (∃ later, trace random init body = Intro :: later ∧ Intro ∉ later) ∧
  (∀ parse, parse "<p>hello</p>" = [Dom.Element "p" [] [Dom.Text "hello"]] →
     buildTreeFromHtml random parse "<p>hello</p>" =
       [Sec.mk (cryptoId random 0) "Intro" 1 "<p>hello</p>" []]).
Proof.
  intros Hne Hpre Hrest body. split; [|split].
  - destruct (first_root_after random pre rest Hne Hpre Hrest)
      as ([more Ht] & Hid & Htitle & Hlevel & Hcontent).
    unfold buildTree, result. fold body in Ht, Hid, Htitle, Hlevel, Hcontent |- *.
    rewrite Ht. cbn [List.map].
    destruct (length (heap (run random init body))); simpl;
      rewrite Hid, Htitle, Hlevel, Hcontent; eauto.
  - destruct pre as [|e pre]; [done|]. apply Forall_cons in Hpre as [He _].
    unfold body. cbn [app]. rewrite trace_cons, (step_first_content random e He).
    eexists. split; [done|]. simpl.
    apply trace_no_Intro; [apply Inv_introState|done].
  - intros parse Hp. unfold buildTreeFromHtml. by rewrite Hp.
Qed.

(** ** Where a heading goes *)

Section Closure.

Variable random : nat -> string.

(** Going down the stack the levels fall. *)
Lemma Spine_levels s c rest :
  Inv s → Spine (heap s) (tree s) (c :: rest) →
  ∀ p, p ∈ rest → (levelOf (heap s) p < levelOf (heap s) c)%Z.
Proof.
  intros HI. revert c. induction rest as [|q rest IH]; intros c H p Hp.
  - by apply elem_of_nil in Hp.
  - destruct H as [H1 H2]. apply last_Some in H1 as [l' E].
    assert (levelOf (heap s) q < levelOf (heap s) c)%Z as Hq.
    { apply (inv_child s HI q c). rewrite E. apply elem_of_app; right; by left. }
    apply elem_of_cons in Hp as [->|Hp]; [done|].
    specialize (IH q H2 p Hp). lia.
Qed.

Lemma step_heading_effect s node level :
  Inv s → headingLevel node = Some level →
  let s' := (step random s node).1 in
  let new := length (heap s) in
  let kept := popToLevel (heap s) level (stack s) in
  length (heap s') = S new ∧ levelOf (heap s') new = level ∧ stack s' = new :: kept ∧
  (∀ p, new ∈ childrenOf (heap s') p ↔ head kept = Some p).
Proof.
  intros HI Eh s' new kept. unfold s'. rewrite (step_heading random s node level Eh).
  cbn [fst heap tree stack]. fold new kept.
  set (heap1 := heap s ++ [createNode random new (Js.trim (Dom.textContent node)) level]).
  assert (Hlen1 : length heap1 = S new) by (unfold heap1; rewrite length_app; simpl; lia).
  assert (Hlv1 : levelOf heap1 new = level).
  { unfold heap1. rewrite levelOf_snoc. by case_decide. }
  assert (Hch1 : ∀ r, childrenOf heap1 r = childrenOf (heap s) r).
  { intros r. unfold heap1. rewrite childrenOf_snoc. case_decide as Er; [|done].
    rewrite Er. simpl. by rewrite childrenOf_out. }
  assert (Hfresh : ∀ p, new ∉ childrenOf (heap s) p).
  { intros p Hp. apply (inv_child s HI) in Hp. unfold new in Hp. lia. }
  destruct kept as [|parent rest] eqn:Ek.
  - split; [done|]. split; [done|]. split; [done|]. intros p. rewrite Hch1. split.
    + intros H. by apply Hfresh in H.
    + done.
  - assert (Hpv : parent < new).
    { destruct (popToLevel_split (heap s) level (stack s)) as (closed & E & _).
      fold kept in E. rewrite Ek in E.
      apply (stack_valid s parent HI). rewrite E. apply elem_of_app; right; by left. }
    split; [by rewrite length_alter|]. split; [by rewrite levelOf_pushChild|].
    split; [done|]. intros p.
    rewrite childrenOf_pushChild by lia. rewrite Hch1. simpl. case_decide as Ep.
    + rewrite Ep. split; [done|]. intros _. apply elem_of_app; right; by left.
    + split; [intros H'; by apply Hfresh in H'|]. by intros [= ->].
Qed.

Lemma run_headings_length s hs :
  Inv s → Forall (λ e, is_Some (headingLevel e)) hs →
  length (heap (run random s hs)) = length (heap s) + length hs.
Proof.
  intros HI H. revert s HI. induction H as [|e hs [level He] _ IH]; intros s HI.
  - rewrite run_nil. simpl. lia.
  - rewrite run_cons, IH by by apply step_Inv.
    destruct (step_heading_effect s e level HI He) as (-> & _). simpl. lia.
Qed.

Lemma Chain_Extends s s' path :
  Extends s s' → (∀ r, r ∈ path → r < length (heap s)) →
  Chain (heap s) (tree s) path → Chain (heap s') (tree s') path.
Proof.
  intros (_ & _ & C & R & _). induction path as [|c rest IH]; [done|].
  intros Hv [H1 H2]. split.
  - destruct rest as [|p rest'].
    + apply R; [|done]. apply Hv. by left.
    + apply C; [|done]. apply Hv. by left.
  - apply IH; [|done]. intros r Hr. apply Hv. by right.
Qed.

(** A Section has one chain of ancestors. *)
Lemma Chain_unique s c path1 path2 :
  Inv s → Chain (heap s) (tree s) (c :: path1) → Chain (heap s) (tree s) (c :: path2) →
  path1 = path2.
Proof.
  intros HI. revert c path2.
  induction path1 as [|p path1 IH]; intros c [|q path2] [H1 H1'] [H2 H2']; try done.
  - by apply (inv_root s HI q c) in H1.
  - by apply (inv_root s HI p c) in H2.
  - pose proof (inv_parent s HI p q c H1 H2) as <-. f_equal. by apply (IH p).
Qed.

End Closure.

(** C1. In a body of headings only, the Section of heading [i+1] is a child
    of the Section of heading [i] exactly when its level is the greater one.
    In every case the stack that heading [i+1] finds splits into the entries
    at its level or deeper, which are closed, and the entries below them,
    whose levels are strictly smaller: these, the first open Sections in the
    order of the array, are the chain of ancestors of the new Section in the
    tree that is returned, and its only one.  Sections are numbered like
    their headings; the stack is written top first. *)
Theorem heading_closure random (hs : list Dom.Node) (i : nat) (Li Lj : Z) :
  Forall (λ e, is_Some (headingLevel e)) hs →
  headingLevel <$> hs !! i = Some (Some Li) →
  headingLevel <$> hs !! S i = Some (Some Lj) →
  let fin := run random init hs in
  let arriving := run random init (take (S i) hs) in
  (levelOf (heap fin) i = Li ∧ levelOf (heap fin) (S i) = Lj) ∧
  (S i ∈ childrenOf (heap fin) i ↔ (Li < Lj)%Z) ∧
  ∃ closed kept,
    stack arriving = closed ++ kept ∧
    Forall (λ r, (Lj ≤ levelOf (heap arriving) r)%Z) closed ∧
    Forall (λ r, (levelOf (heap arriving) r < Lj)%Z) kept ∧
    Chain (heap fin) (tree fin) (S i :: kept) ∧
    (∀ path, Chain (heap fin) (tree fin) (S i :: path) → path = kept).
Proof.
  intros Hall Hi Hj fin arriving.
  destruct (hs !! i) as [ei|] eqn:Ei; [|done]. injection Hi as Hi.
  destruct (hs !! S i) as [ej|] eqn:Ej; [|done]. injection Hj as Hj.
  pose proof (lookup_lt_Some _ _ _ Ej) as Hlen.
  set (before := run random init (take i hs)).
  assert (HIb : Inv before) by apply run_Inv, Inv_init.
  assert (Hlb : length (heap before) = i).
  { unfold before. rewrite run_headings_length; [|apply Inv_init|by apply Forall_take].
    simpl. rewrite length_take. lia. }
  assert (Ea : arriving = (step random before ei).1).
  { unfold arriving. rewrite (take_S_r _ _ _ Ei). apply run_snoc. }
  assert (HIa : Inv arriving) by apply run_Inv, Inv_init.
  destruct (step_heading_effect random before ei Li HIb Hi) as (Hla & Hlva & Hsa & _).
  rewrite <- Ea, Hlb in Hla, Hlva, Hsa.
  set (after := (step random arriving ej).1).
  assert (HIf : Inv after) by by apply step_Inv.
  destruct (step_heading_effect random arriving ej Lj HIa Hj) as (Hlf & Hlvf & Hsf & Hcf).
  fold after in Hlf, Hlvf, Hsf, Hcf. rewrite Hla in Hlf, Hlvf, Hsf, Hcf.
  assert (Efin : fin = run random after (drop (S (S i)) hs)).
  { unfold fin. rewrite <- (take_drop_middle hs (S i) ej Ej) at 1.
    rewrite run_app, run_cons. done. }
  assert (HIfin : Inv fin) by apply run_Inv, Inv_init.
  assert (Hext : Extends after fin) by (rewrite Efin; by apply run_Extends).
  assert (Hexta : Extends arriving after) by by apply step_Extends.
  destruct Hext as (Le & Fe & Ce & Re & Ke & Te).
  destruct (popToLevel_split (heap arriving) Lj (stack arriving)) as (closed & Esplit & Hclosed & Hkept).
  set (kept := popToLevel (heap arriving) Lj (stack arriving)) in *.
  split; [|split].
  - destruct (Fe i ltac:(lia)) as (_ & _ & ->). destruct (Fe (S i) ltac:(lia)) as (_ & _ & ->).
    split; [|done].
    destruct Hexta as (_ & Fa & _). destruct (Fa i ltac:(lia)) as (_ & _ & ->). done.
  - rewrite Ce by lia. rewrite Hcf. unfold kept. rewrite Hsa. simpl.
    fold (levelOf (heap arriving) i). rewrite Hlva.
    destruct (Z.geb_spec Li Lj) as [Hge|Hlt].
    + split; [|lia]. intros Hh. exfalso.
      assert (i ∈ popToLevel (heap arriving) Lj (popToLevel (heap before) Li (stack before))) as Hin.
      { destruct (popToLevel (heap arriving) Lj (popToLevel (heap before) Li (stack before)))
          as [|x l]; [done|]. simpl in Hh. injection Hh as ->. by left. }
      destruct (popToLevel_split (heap arriving) Lj (popToLevel (heap before) Li (stack before)))
        as (cl & E & _).
      assert (i ∈ popToLevel (heap before) Li (stack before)) as Hin'.
      { rewrite E. apply elem_of_app. by right. }
      pose proof (inv_spine arriving HIa) as Hsp. rewrite Hsa in Hsp.
      pose proof (Spine_below arriving i _ HIa Hsp i Hin'). lia.
    + split; [lia|done].
  - exists closed, kept. split; [done|]. split; [done|].
    assert (Hk : Forall (λ r, (levelOf (heap arriving) r < Lj)%Z) kept).
    { destruct kept as [|t rest] eqn:Ek; [constructor|].
      constructor; [done|]. apply Forall_forall. intros p Hp.
      assert (Hsp : Spine (heap arriving) (tree arriving) (t :: rest)).
      { eapply Spine_suffix. rewrite <- Esplit. apply HIa. }
      pose proof (Spine_levels arriving t rest HIa Hsp p Hp). lia. }
    split; [done|].
    assert (Hchain : Chain (heap fin) (tree fin) (S i :: kept)).
    { apply (Chain_Extends after fin); [by rewrite Efin; apply run_Extends| |].
      - intros r Hr. apply (stack_valid after r HIf). by rewrite Hsf.
      - apply Spine_Chain. rewrite <- Hsf. apply HIf. }
    split; [done|]. intros path Hpath. by apply (Chain_unique fin (S i)).
Qed.

(** C3. The tree of the markup of the example: two roots, A with the child B,
    and C; the markup is read as its five elements. *)
Theorem example_two_roots random parse :
  parse headings =
    [Dom.Element "h1" [] [Dom.Text "A"]; Dom.Element "p" [] [Dom.Text "x"];
     Dom.Element "h2" [] [Dom.Text "B"]; Dom.Element "p" [] [Dom.Text "y"];
     Dom.Element "h1" [] [Dom.Text "C"]] →
  buildTreeFromHtml random parse headings =
    [Sec.mk (cryptoId random 0) "A" 1 "<p>x</p>"
       [Sec.mk (cryptoId random 1) "B" 2 "<p>y</p>" []];
     Sec.mk (cryptoId random 2) "C" 1 EmptyString []].
Proof. intros Hp. unfold buildTreeFromHtml. by rewrite Hp. Qed.

(** ** [cleanHtml] only cuts *)




(** ** [sanitizeTable] *)

Lemma clear_nil fuel attrs : length attrs ≤ fuel → Table.clear fuel attrs = [].
Proof.
  revert attrs. induction fuel as [|f IH]; intros [|a attrs] Hf; simpl in *; try done; [lia|].
  rewrite String.eqb_refl. apply IH. lia.
Qed.

(** The loop over the attributes ends, with none left. *)
Lemma clearAttributes_nil attrs : Table.clearAttributes attrs = [].
Proof. by apply clear_nil. Qed.

Lemma Node_induction (P : Dom.Node → Prop) :
  (∀ d, P (Dom.Text d)) → (∀ d, P (Dom.Comment d)) →
  (∀ tag attrs cs, Forall P cs → P (Dom.Element tag attrs cs)) →
  (∀ attrs cs, Forall P cs → P (Dom.Template attrs cs)) →
  ∀ n, P n.
Proof.
  intros Ht Hc He Hm. fix IH 1. intros [d|d|tag attrs cs|attrs cs].
  - apply Ht.
  - apply Hc.
  - apply He. induction cs as [|c cs IHc]; constructor; [apply IH|exact IHc].
  - apply Hm. induction cs as [|c cs IHc]; constructor; [apply IH|exact IHc].
Qed.

(** Every table, row and cell element below the document loses its
    attributes. *)
Lemma strip_bareBelow n : bareBelow (Table.strip n) = true.
Proof.
  induction n as [d|d|tag attrs cs IH|attrs cs _] using Node_induction; try done.
  simpl. apply andb_true_intro. split.
  - destruct (Table.selected tag); [|done]. by rewrite clearAttributes_nil.
  - apply forallb_forall. intros k (c & <- & Hc%list_elem_of_In)%in_map_iff.
    by apply (proj1 (Forall_forall _ _) IH).
Qed.

(** C6 fails on [templated]: the markup is read as a paragraph and a template
    holding the table, and [sanitizeTable] returns it as it came, the
    attribute of the table still there. *)
Theorem sanitizeTable_skips_templates :
  Html.parseBody templated =
    Some [Dom.Element "p" [] [Dom.Text "a"];
          Dom.Template [] [Dom.Element "table" [("border", "1")] []]] ∧
  sanitizeTable Html.parse templated = templated ∧
  forallb bare (List.map Table.strip (Html.parse templated)) = false.
Proof. by vm_compute. Qed.

(** ** Siblings by level *)

Lemma SibSorted_ext h h' l :
  (∀ r, r ∈ l → levelOf h' r = levelOf h r) → SibSorted h l → SibSorted h' l.
Proof.
  intros Hext H i a b Ha Hb.
  rewrite !Hext by (eapply list_elem_of_lookup_2; eassumption). by apply (H i).
Qed.

Lemma SibSorted_snoc h l x :
  SibSorted h l → (∀ a, last l = Some a → (levelOf h x ≤ levelOf h a)%Z) →
  SibSorted h (l ++ [x]).
Proof.
  intros H Hl i a b Ha Hb.
  pose proof (lookup_lt_Some _ _ _ Hb) as Hlen. rewrite length_app in Hlen. simpl in Hlen.
  rewrite lookup_app_l in Ha by lia.
  destruct (decide (S i < length l)) as [Hi|Hi].
  - rewrite lookup_app_l in Hb by lia. by apply (H i).
  - rewrite lookup_app_r in Hb by lia.
    replace (S i - length l) with 0 in Hb by lia. injection Hb as <-.
    apply Hl. rewrite last_lookup. replace (pred (length l)) with i by lia. done.
Qed.

Lemma SibSorted_nil h : SibSorted h [].
Proof. by intros i a b Ha. Qed.

Lemma nonIncreasing_SibSorted h l :
  SibSorted h l → nonIncreasing (List.map (levelOf h) l) = true.
Proof.
  induction l as [|a l IH]; intros H; [done|].
  cbn [List.map nonIncreasing]. apply andb_true_intro. split.
  - destruct l as [|b l]; [done|]. simpl. apply Z.leb_le. by apply (H 0).
  - apply IH. intros i x y Hx Hy. by apply (H (S i)).
Qed.

Section Siblings.

Variable random : nat -> string.

Lemma top_no_children s top rest :
  Inv s → stack s = top :: rest → childrenOf (heap s) top = [].
Proof.
  intros HI Es. pose proof (inv_top s HI) as Ht. rewrite Es in Ht.
  destruct (childrenOf (heap s) top) as [|c l] eqn:E; [done|].
  assert (Hc : c ∈ childrenOf (heap s) top) by (rewrite E; by left).
  apply (inv_child s HI) in Hc. lia.
Qed.

(** What a heading closes lies at its level or deeper, up to the last child
    of the Section it goes under, or up to the last root. *)
Lemma closed_last s level (l : list nat) :
  Inv s →
  match popToLevel (heap s) level (stack s) with
  | [] => l = tree s
  | parent :: _ => l = childrenOf (heap s) parent
  end →
  ∀ a, last l = Some a → (level ≤ levelOf (heap s) a)%Z.
Proof.
  intros HI Hl a Ha.
  destruct (popToLevel_split (heap s) level (stack s)) as (closed & E & Hclosed & _).
  destruct closed as [|c closed _] using rev_ind.
  - simpl in E. rewrite <- E in Hl. destruct (stack s) as [|top rest] eqn:Es.
    + pose proof (inv_top s HI) as Ht. rewrite Es in Ht. destruct Ht as [_ Ht].
      subst l. by rewrite Ht in Ha.
    + subst l. by rewrite (top_no_children s top rest HI Es) in Ha.
  - pose proof (inv_spine s HI) as Hsp. rewrite E, <- app_assoc in Hsp.
    apply Spine_suffix in Hsp. simpl in Hsp. destruct Hsp as [Hsp _].
    assert (Hc : (level ≤ levelOf (heap s) c)%Z).
    { apply (proj1 (Forall_forall _ _) Hclosed). apply elem_of_app; right; by left. }
    destruct (popToLevel (heap s) level (stack s)); subst l;
      rewrite Hsp in Ha; by injection Ha as <-.
Qed.

Lemma step_Sorted2 s node : Inv s → Sorted2 s → Sorted2 (step random s node).1.
Proof.
  intros HI [Ht Hc]. destruct (headingLevel node) as [level|] eqn:E.
  - destruct (step_heading_nodes random s node level HI E) as (Hlen & _ & Htree & Hnew & Hold).
    set (s' := (step random s node).1) in *. set (new := length (heap s)) in *.
    assert (Hlv : ∀ x, x < new → levelOf (heap s') x = levelOf (heap s) x).
    { intros x Hx. unfold levelOf. rewrite (Hold x Hx). by case_decide. }
    assert (Hlvn : levelOf (heap s') new = level) by (unfold levelOf; by rewrite Hnew).
    split.
    + rewrite Htree.
      pose proof (closed_last s level (tree s) HI) as Hcl.
      assert (Hs : SibSorted (heap s') (tree s)).
      { eapply SibSorted_ext; [|exact Ht]. intros r Hr. apply Hlv. by apply (inv_roots s HI). }
      destruct (popToLevel (heap s) level (stack s)); [|done].
      apply SibSorted_snoc; [done|]. intros a Ha. rewrite Hlvn.
      rewrite Hlv; [by apply Hcl|]. apply (inv_roots s HI).
      apply last_Some in Ha as [l' ->]. apply elem_of_app; right; by left.
    + intros p. destruct (decide (p < new)) as [Hp|Hp].
      * assert (Hs : SibSorted (heap s') (childrenOf (heap s) p)).
        { eapply SibSorted_ext; [|apply Hc]. intros r Hr. apply Hlv.
          by apply (inv_child s HI) in Hr as [[_ ?] _]. }
        unfold childrenOf at 1. rewrite (Hold p Hp). case_decide as Eh; [|exact Hs].
        simpl. fold (childrenOf (heap s) p).
        apply SibSorted_snoc; [done|]. intros a Ha. rewrite Hlvn.
        pose proof (closed_last s level (childrenOf (heap s) p) HI) as Hcl.
        destruct (popToLevel (heap s) level (stack s)) as [|parent rest]; [done|].
        injection Eh as ->.
        rewrite Hlv; [by apply Hcl|].
        apply last_Some in Ha as [l' Ha].
        assert (Hin : a ∈ childrenOf (heap s) p) by (rewrite Ha; apply elem_of_app; right; by left).
        by apply (inv_child s HI) in Hin as [[_ ?] _].
      * destruct (decide (p = new)) as [->|Hne].
        -- unfold childrenOf. rewrite Hnew. simpl. apply SibSorted_nil.
        -- rewrite childrenOf_out by lia. apply SibSorted_nil.
  - unfold step. unfold headingLevel in E. rewrite E.
    destruct (stack s) as [|current rest] eqn:Es.
    + pose proof (inv_top s HI) as Hi. rewrite Es in Hi. destruct Hi as [Eh Et].
      rewrite Et, Eh. simpl. split; simpl.
      * intros [|i] a b Ha Hb; done.
      * intros p [|i] a b Ha Hb; destruct p as [|[|p]]; done.
    + simpl. split; simpl.
      * eapply SibSorted_ext; [|exact Ht]. intros r _. apply levelOf_appendContent.
      * intros p. rewrite childrenOf_appendContent.
        eapply SibSorted_ext; [|apply Hc]. intros r _. apply levelOf_appendContent.
Qed.

Lemma run_Sorted2 s nodes : Inv s → Sorted2 s → Sorted2 (run random s nodes).
Proof.
  revert s. induction nodes as [|node rest IH]; intros s HI HS; [done|].
  rewrite run_cons. apply IH; [by apply step_Inv|by apply step_Sorted2].
Qed.

Lemma Sorted2_init : Sorted2 init.
Proof.
  split; [apply SibSorted_nil|]. intros p. rewrite childrenOf_out by (simpl; lia).
  apply SibSorted_nil.
Qed.

End Siblings.

Lemma reify_level fuel h r : Sec.level (reify fuel h r) = levelOf h r.
Proof. by destruct fuel. Qed.

Lemma reify_canon s :
  Inv s → Sorted2 s → ∀ fuel r lo,
    r < length (heap s) → length (heap s) ≤ fuel + r → (lo < levelOf (heap s) r)%Z →
    canon lo (reify fuel (heap s) r) = true.
Proof.
  intros HI [_ HS]. induction fuel as [|f IH]; intros r lo Hr Hf Hlo; [lia|].
  simpl. fold (levelOf (heap s) r) (childrenOf (heap s) r).
  repeat (apply andb_true_intro; split).
  - by apply Z.ltb_lt.
  - apply forallb_forall. intros k (c & <- & Hc%list_elem_of_In)%in_map_iff.
    destruct (inv_child s HI r c Hc) as [Hc1 Hc2]. apply IH; [lia|lia|done].
  - rewrite map_map. erewrite map_ext; [apply nonIncreasing_SibSorted, HS|].
    intros c. apply reify_level.
Qed.

Lemma buildTree_canon random body : canonForest 0 (buildTree random body) = true.
Proof.
  unfold buildTree, result, canonForest.
  set (s := run random init body).
  assert (HI : Inv s) by apply run_Inv, Inv_init.
  assert (HS : Sorted2 s) by (apply run_Sorted2; [apply Inv_init|apply Sorted2_init]).
  apply andb_true_intro. split.
  - apply forallb_forall. intros k (r & <- & Hr%list_elem_of_In)%in_map_iff.
    pose proof (inv_roots s HI r Hr).
    apply (reify_canon s HI HS); [done|lia|]. pose proof (inv_level s HI r). lia.
  - rewrite map_map. erewrite map_ext; [apply nonIncreasing_SibSorted, HS|].
    intros c. apply reify_level.
Qed.

(** ** Running over the elements of a forest *)

Lemma popToLevel_app h level junk base :
  (∀ x, x ∈ junk → (level ≤ levelOf h x)%Z) →
  popToLevel h level (junk ++ base) = popToLevel h level base.
Proof.
  induction junk as [|x junk IH]; intros H; [done|].
  simpl. fold (levelOf h x).
  destruct (Z.geb_spec (levelOf h x) level) as [_|Hlt].
  - apply IH. intros y Hy. apply H. by right.
  - specialize (H x ltac:(by left)). lia.
Qed.

Lemma popToLevel_keep h level base :
  (∀ P, head base = Some P → (levelOf h P < level)%Z) → popToLevel h level base = base.
Proof.
  destruct base as [|P base]; [done|]. intros H. simpl. fold (levelOf h P).
  destruct (Z.geb_spec (levelOf h P) level) as [Hge|_]; [|done].
  specialize (H P eq_refl). lia.
Qed.

Lemma appendContent_empty n : appendContent EmptyString n = n.
Proof. destruct n. unfold appendContent. simpl. by rewrite append_nil_r. Qed.

Lemma appendContent_twice a b n :
  appendContent b (appendContent a n) = appendContent (a +:+ b) n.
Proof. unfold appendContent. simpl. by rewrite append_assoc. Qed.

Lemma addChildren_nil n : addChildren [] n = n.
Proof. destruct n. unfold addChildren. simpl. by rewrite app_nil_r. Qed.

Lemma addChildren_pushChild c refs n :
  addChildren refs (pushChild c n) = addChildren (c :: refs) n.
Proof. unfold addChildren, pushChild. simpl. by rewrite <- app_assoc. Qed.

Lemma Forall2_map_eq {A B C} (f : A → C) (g : B → C) l l' :
  Forall2 (λ x y, f x = g y) l l' → List.map f l = List.map g l'.
Proof. induction 1; simpl; congruence. Qed.

Section Reading.

Variable random : nat -> string.

(** Elements that are no headings all go to the top of the stack. *)
Lemma run_contents s n below cs :
  stack s = n :: below → Forall (λ e, headingLevel e = None) cs →
  run random s cs =
    mkState (alter (appendContent (Dom.innerHTML cs)) n (heap s)) (tree s) (stack s).
Proof.
  intros Es H. revert s Es. induction H as [|c cs Hc _ IH]; intros s Es.
  - rewrite run_nil. unfold Dom.innerHTML. simpl.
    rewrite list_alter_id by apply appendContent_empty. by destruct s.
  - rewrite run_cons, (step_content random s c n below Hc Es). simpl.
    rewrite IH by done. simpl. f_equal.
    rewrite list_alter_alter_eq. apply list_alter_ext; [|done].
    intros x _. simpl. by rewrite appendContent_twice.
Qed.

(** Over objects that two stores share, a reference reads as the same tree. *)
Lemma reify_agree s (h' : list Node.t) a :
  Inv s →
  (∀ x, a ≤ x → x < length (heap s) → h' !!! x = heap s !!! x) →
  ∀ f f' c, a ≤ c → c < length (heap s) →
    length (heap s) ≤ f + c → length (heap s) ≤ f' + c →
    reify f' h' c = reify f (heap s) c.
Proof.
  intros HI Hag. induction f as [|f IH]; intros f' c Ha Hc Hf Hf'; [lia|].
  destruct f' as [|f']; [lia|]. simpl. rewrite (Hag c Ha Hc). f_equal.
  apply map_ext_in. intros k Hk%list_elem_of_In.
  destruct (inv_child s HI c k Hk) as [Hk1 _]. apply IH; lia.
Qed.

Lemma Spine_sorted s up n base :
  Inv s → stack s = up ++ n :: base →
  ∀ x, x ∈ up → (levelOf (heap s) n < levelOf (heap s) x)%Z.
Proof.
  intros HI Es x Hx. pose proof (inv_spine s HI) as Hsp. rewrite Es in Hsp.
  apply list_elem_of_split in Hx as (u1 & u2 & ->).
  rewrite <- app_assoc in Hsp. apply Spine_suffix in Hsp.
  apply (Spine_levels s x (u2 ++ n :: base) HI Hsp).
  apply elem_of_app; right; by left.
Qed.

End Reading.

Section Rebuild.

Variable random : nat -> string.

Lemma canonForest_cons lo i title level content kids rest :
  canonForest lo (Sec.mk i title level content kids :: rest) = true →
  (lo < level)%Z ∧ canonForest level kids = true ∧ canonForest lo rest = true ∧
  (∀ T, head rest = Some T → (Sec.level T ≤ level)%Z).
Proof.
  unfold canonForest. cbn [forallb List.map nonIncreasing canon Sec.level].
  intros H.
  repeat match goal with
         | H : _ && _ = true |- _ => apply andb_prop in H as [? ?]
         end.
  split; [by apply Z.ltb_lt|]. split; [by apply andb_true_intro|].
  split; [by apply andb_true_intro|].
  intros T HT. destruct rest as [|T' rest]; [done|]. injection HT as ->.
  by apply Z.leb_le.
Qed.

(** From a state whose stack, once the heading has closed what lies at its
    level or deeper, is [base], the elements of a canonical forest put the
    forest under the top of [base] (among the roots when [base] is empty):
    the new Sections read as the forest, and nothing else of the store
    changes. *)
Lemma run_reads forest es :
  Reads forest es → ∀ s junk base lo,
  Inv s → canonForest lo forest = true → stack s = junk ++ base →
  (∀ T x, head forest = Some T → x ∈ junk → (Sec.level T ≤ levelOf (heap s) x)%Z) →
  (∀ P, head base = Some P → (levelOf (heap s) P ≤ lo)%Z) →
  ∃ newrefs up,
    let s' := run random s es in
    tree s' = match base with [] => tree s ++ newrefs | _ :: _ => tree s end ∧
    (∀ x, x < length (heap s) →
       heap s' !!! x = if decide (head base = Some x) then addChildren newrefs (heap s !!! x)
                       else heap s !!! x) ∧
    Forall2 (λ r T, length (heap s) ≤ r < length (heap s') ∧
                    eraseId (reify (length (heap s')) (heap s') r) = eraseId T)
            newrefs forest ∧
    stack s' = up ++ base.
Proof.
  induction 1 as [|i title level content kids rest h cs es1 es2 Hh Htitle Hcs Hcontent
                    Hkids IHkids Hrest IHrest];
    intros s junk base lo HI Hcanon Hstack Hjunk Hbase.
  - exists [], junk. rewrite run_nil. split; [|split; [|split]].
    + destruct base; [by rewrite app_nil_r|done].
    + intros x _. case_decide; [by rewrite addChildren_nil|done].
    + constructor.
    + done.
  - apply canonForest_cons in Hcanon as (Hlo & Hck & Hcr & Hnext).
    set (n := length (heap s)).
    assert (Hpop : popToLevel (heap s) level (stack s) = base).
    { rewrite Hstack, popToLevel_app by (intros x Hx; by apply (Hjunk _ x eq_refl)).
      apply popToLevel_keep. intros P HP. specialize (Hbase P HP). lia. }
    assert (HbaseLt : ∀ P, head base = Some P → P < n).
    { intros P HP. apply (stack_valid s P HI). rewrite Hstack.
      apply elem_of_app; right. destruct base; [done|]. injection HP as ->. by left. }
    (* the heading *)
    destruct (step_heading_nodes random s h level HI Hh) as (Hlen1 & Hst1 & Htr1 & Hnew1 & Hold1).
    rewrite Hpop in Hst1, Htr1, Hold1. fold n in Hlen1, Hst1, Htr1, Hnew1, Hold1.
    set (s1 := (step random s h).1) in *.
    assert (HI1 : Inv s1) by by apply step_Inv.
    (* its content *)
    set (s2 := run random s1 cs).
    assert (E2 : s2 = mkState (alter (appendContent (Dom.innerHTML cs)) n (heap s1))
                              (tree s1) (stack s1))
      by by apply run_contents with base.
    assert (HI2 : Inv s2) by by apply run_Inv.
    assert (Hlen2 : length (heap s2) = S n) by (rewrite E2; simpl; by rewrite length_alter).
    assert (Hst2 : stack s2 = n :: base) by by rewrite E2.
    assert (Htr2 : tree s2 = tree s1) by by rewrite E2.
    assert (Hnew2 : heap s2 !!! n =
                    appendContent content (createNode random n title level)).
    { rewrite E2. simpl. rewrite list_lookup_total_alter_eq by lia.
      by rewrite Hnew1, Htitle, Hcontent. }
    assert (Hold2 : ∀ x, x < n → heap s2 !!! x = heap s1 !!! x).
    { intros x Hx. rewrite E2. simpl. rewrite list_lookup_total_alter_ne; [done|lia]. }
    (* its children *)
    destruct (IHkids s2 [] (n :: base) level HI2 Hck Hst2) as (refsK & upK & HK).
    { intros T x _ Hx. by apply elem_of_nil in Hx. }
    { intros P [= <-]. unfold levelOf. rewrite Hnew2. simpl. lia. }
    set (s3 := run random s2 es1) in *. cbn zeta in HK.
    destruct HK as (Htr3 & Hold3 & HF3 & Hst3).
    assert (HI3 : Inv s3) by by apply run_Inv.
    assert (Hlen3 : S n ≤ length (heap s3)).
    { rewrite <- Hlen2. apply (run_Extends random s2 es1 HI2). }
    assert (Hnew3 : heap s3 !!! n = addChildren refsK (heap s2 !!! n)).
    { rewrite Hold3 by lia. by rewrite decide_True. }
    assert (Hold3' : ∀ x, x < n → heap s3 !!! x = heap s1 !!! x).
    { intros x Hx. rewrite Hold3 by lia. rewrite decide_False by (simpl; intros [= ?]; lia).
      by apply Hold2. }
    (* its later siblings *)
    destruct (IHrest s3 (upK ++ [n]) base lo HI3 Hcr) as (refsR & upR & HR).
    { by rewrite Hst3, <- app_assoc. }
    { intros T x HT [Hx| ->%list_elem_of_singleton]%elem_of_app.
      - pose proof (Spine_sorted s3 upK n base HI3 Hst3 x Hx) as Hx'.
        unfold levelOf at 1 in Hx'. rewrite Hnew3, Hnew2 in Hx'. simpl in Hx'.
        specialize (Hnext T HT). lia.
      - unfold levelOf. rewrite Hnew3, Hnew2. simpl. by apply Hnext. }
    { intros P HP. pose proof (HbaseLt P HP) as HPn.
      unfold levelOf. rewrite (Hold3' P HPn), (Hold1 P HPn).
      specialize (Hbase P HP). unfold levelOf in Hbase. by case_decide. }
    set (s4 := run random s3 es2) in *. cbn zeta in HR.
    destruct HR as (Htr4 & Hold4 & HF4 & Hst4).
    assert (HI4 : Inv s4) by by apply run_Inv.
    assert (Hlen4 : length (heap s3) ≤ length (heap s4)) by apply (run_Extends random s3 es2 HI3).
    assert (Erun : run random s (h :: cs ++ es1 ++ es2) = s4).
    { by rewrite run_cons, !run_app. }
    exists (n :: refsR), upR. cbn zeta. rewrite Erun.
    split; [|split; [|split]].
    + rewrite Htr4, Htr3, Htr2, Htr1. destruct base; [by rewrite <- app_assoc|done].
    + intros x Hx. fold n in Hx. rewrite Hold4 by lia. rewrite (Hold3' x Hx), (Hold1 x Hx).
      case_decide; [by rewrite addChildren_pushChild|done].
    + constructor.
      * split; [lia|].
        assert (E4 : heap s4 !!! n = addChildren refsK (heap s2 !!! n)).
        { rewrite Hold4 by lia. rewrite decide_False; [done|].
          intros HP. apply HbaseLt in HP. lia. }
        destruct (length (heap s4)) as [|f] eqn:Ef; [lia|].
        cbn [reify]. rewrite E4, Hnew2. cbn [eraseId]. f_equal. simpl.
        rewrite map_map. apply Forall2_map_eq.
        eapply Forall2_impl; [exact HF3|]. simpl. intros c T [Hc <-].
        f_equal. rewrite Hlen2 in Hc.
        apply (reify_agree s3 (heap s4) (S n) HI3); try lia.
        intros x Hx1 Hx2. rewrite Hold4 by lia. rewrite decide_False; [done|].
        intros HP. apply HbaseLt in HP. lia.
      * eapply Forall2_impl; [exact HF4|]. simpl. intros r T [Hr HT].
        split; [lia|done].
    + done.
Qed.

End Rebuild.

Lemma rebuild_canonical random parse (forest : list Sec.t) (html : string) :
  canonForest 0 forest = true →
  Reads forest (Dom.children (parse html)) →
  List.map eraseId (buildTreeFromHtml random parse html) = List.map eraseId forest.
Proof.
  intros Hc Hr. unfold buildTreeFromHtml, buildTree, result.
  destruct (run_reads random forest _ Hr init [] [] 0 Inv_init Hc eq_refl)
    as (newrefs & up & Htree & _ & HF & _); [by intros T x _ Hx%elem_of_nil|done|].
  cbn zeta in Htree, HF. rewrite Htree. simpl. rewrite map_map.
  apply Forall2_map_eq. eapply Forall2_impl; [exact HF|]. simpl. by intros r T [_ ?].
Qed.

(** The claim C2 fails: the export drops the [width] of [widthy], so the tree
    built from the export has another [contentHtml].  The three texts that
    are parsed on the way are read as their elements. *)
Lemma round_trip_loses_width :
  let t := buildTreeFromHtml draws Html.parse widthy in
  Html.parseBody widthy = Some [Dom.Element "p" [("width", "1")] [Dom.Text "x"]] ∧
  t = [Sec.mk "n_4fzyo82" "Intro" 1 widthy []] ∧
  cleanHtml widthy = "<p >x</p>" ∧
  Html.parseBody "<p >x</p>" = Some [Dom.Element "p" [] [Dom.Text "x"]] ∧
  exportHtml Html.parse t = "<h1>Intro</h1><p>x</p>" ∧
  Html.parseBody "<h1>Intro</h1><p>x</p>" =
    Some [Dom.Element "h1" [] [Dom.Text "Intro"]; Dom.Element "p" [] [Dom.Text "x"]] ∧
  buildTreeFromHtml draws Html.parse (exportHtml Html.parse t) =
    [Sec.mk "n_4fzyo82" "Intro" 1 "<p>x</p>" []] ∧
  List.map eraseId (buildTreeFromHtml draws Html.parse (exportHtml Html.parse t)) ≠
  List.map eraseId t.
Proof. vm_compute. repeat split. discriminate. Qed.

(** ** The tree spells out the body *)

Lemma span_content (es : list Dom.Node) :
  ∃ cs es1, es = cs ++ es1 ∧ Forall (λ e, headingLevel e = None) cs ∧
            match es1 with [] => True | e :: _ => is_Some (headingLevel e) end.
Proof.
  induction es as [|e es (cs & es1 & -> & Hcs & H1)].
  - by exists [], [].
  - destruct (headingLevel e) as [l|] eqn:E.
    + exists [], (e :: cs ++ es1). repeat split; [constructor|]. by rewrite E.
    + exists (e :: cs), es1. repeat split; [by constructor|done].
Qed.

(** Every body that does not start with content is the spelling of a
    canonical forest: the headings above [lo] and what follows them up to the
    first heading at [lo] or less. *)
Lemma spell n : ∀ (es : list Dom.Node) (lo : Z),
  length es ≤ n →
  match es with [] => True | e :: _ => is_Some (headingLevel e) end →
  ∃ forest flat rest,
    es = flat ++ rest ∧ Reads forest flat ∧ canonForest lo forest = true ∧
    length rest ≤ length es ∧
    match rest with
    | [] => True
    | e :: _ => ∃ l, headingLevel e = Some l ∧ (l ≤ lo)%Z
    end ∧
    (∀ T, head forest = Some T → ∃ e, head es = Some e ∧ headingLevel e = Some (Sec.level T)).
Proof.
  induction n as [|n IH]; intros es lo Hn Hes.
  { destruct es; [|simpl in Hn; lia]. exists [], [], []. repeat split; try done. constructor. }
  destruct es as [|h es]; [exists [], [], []; repeat split; try done; constructor|].
  destruct Hes as [level Hh].
  destruct (decide (level ≤ lo)%Z) as [Hle|Hgt].
  { exists [], [], (h :: es). repeat split; try done; [constructor|]. by exists level. }
  destruct (span_content es) as (cs & es1 & -> & Hcs & H1).
  simpl in Hn. rewrite length_app in Hn.
  destruct (IH es1 level) as (kids & flat1 & rest1 & -> & Hr1 & Hc1 & Hl1 & Hrest1 & Hhead1);
    [lia|done|].
  destruct (IH rest1 lo) as (sibs & flat2 & rest2 & E2 & Hr2 & Hc2 & Hl2 & Hrest2 & Hhead2);
    [rewrite length_app in Hl1, Hn; lia| |].
  { destruct rest1 as [|e ?]; [done|]. destruct Hrest1 as (l & -> & _). by eexists. }
  exists (Sec.mk EmptyString (Js.trim (Dom.textContent h)) level (Dom.innerHTML cs) kids :: sibs),
         (h :: cs ++ flat1 ++ flat2), rest2.
  split; [rewrite E2; simpl; by rewrite <- !app_assoc|]. split; [by constructor|].
  split; [|split; [|split]].
  - unfold canonForest in *. cbn [forallb List.map nonIncreasing canon Sec.level].
    apply andb_prop in Hc1 as [Hc1 Hn1]. apply andb_prop in Hc2 as [Hc2 Hn2].
    rewrite Hc1, Hn1, Hc2, Hn2. replace (lo <? level)%Z with true by (symmetry; apply Z.ltb_lt; lia).
    simpl. destruct sibs as [|T sibs]; [done|]. simpl.
    destruct (Hhead2 T eq_refl) as (e & He & HeT).
    destruct rest1 as [|e' ?]; [done|]. injection He as ->.
    destruct Hrest1 as (l' & Hl & Hle). rewrite HeT in Hl. injection Hl as <-.
    apply andb_true_intro. split; [|done]. by apply Z.leb_le.
  - simpl. rewrite !length_app in *. lia.
  - done.
  - intros T [= <-]. exists h. by split.
Qed.

Lemma Reads_eraseId forest es :
  Reads forest es → ∀ forest', List.map eraseId forest' = List.map eraseId forest →
  Reads forest' es.
Proof.
  induction 1 as [|i title level content kids rest h cs es1 es2 Hh Htitle Hcs Hcontent
                    Hkids IHkids Hrest IHrest]; intros forest' E.
  - destruct forest'; [constructor|done].
  - destruct forest' as [|[i' title' level' content' kids'] rest']; [done|].
    simpl in E. injection E as -> -> -> Ek Er.
    constructor; auto.
Qed.

Section Spelling.

Variable random : nat -> string.

Lemma rebuild_elements (forest : list Sec.t) (es : list Dom.Node) :
  canonForest 0 forest = true → Reads forest es →
  List.map eraseId (buildTree random es) = List.map eraseId forest.
Proof.
  intros Hc Hr. unfold buildTree, result.
  destruct (run_reads random forest _ Hr init [] [] 0 Inv_init Hc eq_refl)
    as (newrefs & up & Htree & _ & HF & _); [by intros T x _ Hx%elem_of_nil|done|].
  cbn zeta in Htree, HF. rewrite Htree. simpl. rewrite map_map.
  apply Forall2_map_eq. eapply Forall2_impl; [exact HF|]. simpl. by intros r T [_ ?].
Qed.

Lemma headingLevel_range e l : headingLevel e = Some l → (1 ≤ l ≤ 6)%Z.
Proof. apply headingMatch_range. Qed.

Lemma buildTree_reads (es : list Dom.Node) :
  match es with [] => True | e :: _ => is_Some (headingLevel e) end →
  Reads (buildTree random es) es.
Proof.
  intros Hes.
  destruct (spell (length es) es 0 (le_n _) Hes)
    as (forest & flat & rest & E & Hr & Hc & _ & Hrest & _).
  destruct rest as [|e rest].
  - rewrite app_nil_r in E. subst flat.
    apply (Reads_eraseId forest es Hr). by apply rebuild_elements.
  - destruct Hrest as (l & Hl & Hle). apply headingLevel_range in Hl. lia.
Qed.

Lemma run_intro_heading e rest :
  headingLevel e = None →
  run random init (introHeading :: e :: rest) = run random init (e :: rest).
Proof.
  intros He. rewrite !run_cons. f_equal.
  rewrite (step_first_content random e He).
  unfold step, headingLevel in *. rewrite He. reflexivity.
Qed.

End Spelling.

Lemma buildTree_withIntro random (body : list Dom.Node) :
  buildTree random (withIntro body) = buildTree random body.
Proof.
  destruct body as [|e rest]; [done|]. unfold withIntro, isContent.
  destruct (headingLevel e) as [l|] eqn:He; [done|].
  unfold buildTree. by rewrite run_intro_heading.
Qed.

Lemma withIntro_heading_first (body : list Dom.Node) :
  match withIntro body with [] => True | e :: _ => is_Some (headingLevel e) end.
Proof.
  destruct body as [|e rest]; [done|]. unfold withIntro, isContent.
  destruct (headingLevel e) as [l|] eqn:He; simpl; [by rewrite He|]. by eexists.
Qed.

Lemma buildTree_spells random (body : list Dom.Node) :
  Reads (buildTree random body) (withIntro body).
Proof.
  rewrite <- buildTree_withIntro. apply buildTree_reads, withIntro_heading_first.
Qed.

Lemma preorderAll_cons T rest :
  preorderAll (T :: rest) = T :: preorderAll (Sec.children T) ++ preorderAll rest.
Proof. by destruct T. Qed.

Lemma announced_content cs :
  Forall (λ e, headingLevel e = None) cs → announced cs = [].
Proof.
  induction 1 as [|e cs He _ IH]; [done|]. unfold announced in *. simpl. by rewrite He.
Qed.

Lemma announced_app a b : announced (a ++ b) = announced a ++ announced b.
Proof. apply omap_app. Qed.

Lemma announced_heading h level es :
  headingLevel h = Some level →
  announced (h :: es) = (level, Js.trim (Dom.textContent h)) :: announced es.
Proof. intros Hh. unfold announced. simpl. by rewrite Hh. Qed.

Lemma Reads_announced forest es :
  Reads forest es →
  List.map (λ s, (Sec.level s, Sec.title s)) (preorderAll forest) = announced es.
Proof.
  induction 1 as [|i title level content kids rest h cs es1 es2 Hh Htitle Hcs Hcontent
                    Hkids IHkids Hrest IHrest]; [done|].
  rewrite preorderAll_cons. cbn [List.map Sec.children Sec.level Sec.title].
  rewrite List.map_app, IHkids, IHrest.
  rewrite (announced_heading h level) by done.
  by rewrite !announced_app, (announced_content cs Hcs), Htitle.
Qed.

Lemma filter_content cs :
  Forall (λ e, headingLevel e = None) cs → List.filter isContent cs = cs.
Proof.
  induction 1 as [|e cs He _ IH]; [done|]. simpl. unfold isContent at 1. by rewrite He, IH.
Qed.

Lemma innerHTML_app a b : Dom.innerHTML (a ++ b) = Dom.innerHTML a +:+ Dom.innerHTML b.
Proof. unfold Dom.innerHTML. by rewrite List.map_app, concat_app. Qed.

Lemma Reads_content forest es :
  Reads forest es →
  Dom.concat (List.map Sec.contentHtml (preorderAll forest)) =
  Dom.innerHTML (List.filter isContent es).
Proof.
  induction 1 as [|i title level content kids rest h cs es1 es2 Hh Htitle Hcs Hcontent
                    Hkids IHkids Hrest IHrest]; [done|].
  rewrite preorderAll_cons. cbn [List.map Sec.children Sec.contentHtml].
  rewrite List.map_app, concat_cons, concat_app, IHkids, IHrest.
  cbn [List.filter]. unfold isContent at 3. rewrite Hh.
  rewrite !List.filter_app, !innerHTML_app, (filter_content cs Hcs). by rewrite Hcontent.
Qed.

Lemma filter_withIntro body :
  List.filter isContent (withIntro body) = List.filter isContent body.
Proof.
  destruct body as [|e rest]; [done|]. unfold withIntro.
  destruct (isContent e) eqn:E; [|done]. reflexivity.
Qed.

(** X1.  The tree that [buildTreeFromHtml] returns spells out the body it was
    built from, with the heading [Intro] of level 1 in front when the body
    starts with content: Section by Section in pre-order there is one heading
    of the level of the Section whose trimmed text is its title, then the
    elements up to the next heading, whose outer markup makes up its
    [contentHtml], then the elements of its children and of its later
    siblings. *)
Theorem built_tree_spells_body random parse (html : string) :
  Reads (buildTreeFromHtml random parse html) (withIntro (Dom.children (parse html))).
Proof. apply buildTree_spells. Qed.

(** X2.  Content in front of the first heading is filed as if the heading
    [Intro] of level 1 stood before it: the tree is the same, identifiers
    included. *)
Theorem intro_as_heading random (e : Dom.Node) (rest : list Dom.Node) :
  headingLevel e = None →
  buildTree random (e :: rest) = buildTree random (introHeading :: e :: rest).
Proof. intros He. unfold buildTree. by rewrite run_intro_heading. Qed.

(** X3.  No content is lost, doubled or moved: the [contentHtml] of the
    Sections of the returned tree, put together in pre-order, is the outer
    markup of the elements of the body that are no headings, in document
    order. *)
Theorem content_attribution random parse (html : string) :
  Dom.concat (List.map Sec.contentHtml (preorderAll (buildTreeFromHtml random parse html))) =
  Dom.innerHTML (List.filter isContent (Dom.children (parse html))).
Proof.
  unfold buildTreeFromHtml.
  rewrite (Reads_content _ _ (buildTree_spells random _)). by rewrite filter_withIntro.
Qed.

(** X4.  One Section per heading, in document order: the levels and titles
    of the Sections of the returned tree in pre-order are the levels and
    trimmed texts of the headings of the body, behind the pair of [Intro]
    when the body starts with content. *)
Theorem sections_follow_headings random parse (html : string) :
  List.map (λ s, (Sec.level s, Sec.title s))
           (preorderAll (buildTreeFromHtml random parse html)) =
  announced (withIntro (Dom.children (parse html))).
Proof. apply Reads_announced, buildTree_spells. Qed.

(** X5.  In every tree that [buildTreeFromHtml] returns, among the roots and
    among the children of any Section, a Section is never deeper than its
    previous sibling, and every child lies deeper than its parent. *)
Theorem later_sibling_never_deeper random parse (html : string) :
  canonForest 0 (buildTreeFromHtml random parse html) = true.
Proof. apply buildTree_canon. Qed.

(** X6.  The builder undoes the spelling of every such forest: when the
    elements of the body spell out a forest in which children lie deeper than
    their parent and no Section is deeper than its previous sibling, the
    returned tree is that forest, identifiers apart. *)
Theorem builder_inverts_spelling random parse (forest : list Sec.t) (html : string) :
  canonForest 0 forest = true →
  Reads forest (Dom.children (parse html)) →
  List.map eraseId (buildTreeFromHtml random parse html) = List.map eraseId forest.
Proof. intros Hc Hr. by apply rebuild_elements. Qed.

(** ** Matches and the literals of an expression *)

Lemma skipn_skipn a b s : Re.skipn a (Re.skipn b s) = Re.skipn (b + a) s.
Proof.
  revert s. induction b as [|b IH]; intros [|c s]; simpl; try done. by destruct a.
Qed.

Lemma lit_skipn ci l : ∀ s s', Re.lit ci l s = Some s' → s' = Re.skipn (String.length l) s.
Proof.
  induction l as [|a l IH]; intros s s'; simpl.
  - intros [= <-]. by destruct s.
  - destruct s as [|c s]; [done|].
    destruct (Ascii.eqb _ a); [|done]. apply IH.
Qed.

Lemma stops_skipn cls : ∀ fuel passed s x,
  x ∈ Re.stops cls fuel passed s → ∃ k, x.2 = Re.skipn k s.
Proof.
  induction fuel as [|fuel IH]; intros passed s x; cbn [Re.stops].
  - intros ->%list_elem_of_singleton. exists 0. by destruct s.
  - intros [->|Hx]%elem_of_cons; [exists 0; by destruct s|].
    destruct (cls s) as [|k] eqn:E; [by apply elem_of_nil in Hx|].
    apply IH in Hx as [j ->]. exists (S k + j). by rewrite skipn_skipn.
Qed.

Lemma first_Some {A B} (f : A → option B) l y :
  Re.first f l = Some y → ∃ x, x ∈ l ∧ f x = Some y.
Proof.
  induction l as [|x l IH]; simpl; [done|].
  destruct (f x) as [y'|] eqn:E.
  - intros [= <-]. exists x. split; [by left|done].
  - intros (x' & Hx' & Hy)%IH. exists x'. split; [by right|done].
Qed.

Lemma first_None {A B} (f : A → option B) l :
  Re.first f l = None ↔ ∀ x, x ∈ l → f x = None.
Proof.
  induction l as [|x l IH]; simpl.
  - split; [|done]. by intros _ x Hx%elem_of_nil.
  - destruct (f x) as [y|] eqn:E.
    + split; [done|]. intros H. rewrite <- E. apply H. by left.
    + rewrite IH. split.
      * intros H x' [->|Hx']%elem_of_cons; auto.
      * intros H x' Hx'. apply H. by right.
Qed.

Lemma elem_of_rev {A} (x : A) l : x ∈ rev l ↔ x ∈ l.
Proof. rewrite !list_elem_of_In. symmetry. apply in_rev. Qed.

Lemma elem_of_candidates {A} (x : A) (greedy : bool) min l :
  x ∈ (if greedy then rev (drop min l) else drop min l) ↔ x ∈ drop min l.
Proof. destruct greedy; [apply elem_of_rev|done]. Qed.

(** Where an expression matches, each of its literals stands somewhere in
    the text from there on. *)
Lemma matchAt_literal r : ∀ s n ci l,
  Re.matchAt r s = Some n → Re.Lit ci l ∈ r → ∃ k, is_Some (Re.lit ci l (Re.skipn k s)).
Proof.
  induction r as [|[ci0 l0|cls min greedy|l0] r IH]; intros s n ci l; simpl.
  - by intros _ ?%elem_of_nil.
  - destruct (Re.lit ci0 l0 s) as [s'|] eqn:E; [|done].
    destruct (Re.matchAt r s') as [n'|] eqn:E'; [|done]. intros _.
    intros [[= -> ->]|Hin]%elem_of_cons.
    + exists 0. replace (Re.skipn 0 s) with s by by destruct s. by rewrite E.
    + destruct (IH s' n' ci l E' Hin) as [k Hk].
      apply lit_skipn in E as ->. rewrite skipn_skipn in Hk. by eexists.
  - intros (x & Hx & Hy)%first_Some [?|Hin]%elem_of_cons; [done|].
    apply elem_of_candidates, subseteq_drop, stops_skipn in Hx as [j Hj].
    destruct x as [passed s']. simpl in Hj. subst s'.
    destruct (Re.matchAt r (Re.skipn j s)) as [n'|] eqn:E'; [|done].
    destruct (IH _ n' ci l E' Hin) as [k Hk]. rewrite skipn_skipn in Hk. by eexists.
  - intros H [?|Hin]%elem_of_cons; [done|].
    destruct (Re.lit false l0 s) as [s'|] eqn:E.
    + destruct (Re.matchAt r s') as [n'|] eqn:E'; [|by eapply IH].
      destruct (IH s' n' ci l E' Hin) as [k Hk].
      apply lit_skipn in E as ->. rewrite skipn_skipn in Hk. by eexists.
    + by eapply IH.
Qed.

Lemma occursAt_skipn re s :
  Re.occursAt re s = true → ∃ k n, re (Re.skipn k s) = Some n.
Proof.
  induction s as [|c s IH]; simpl; [done|].
  destruct (re (String c s)) as [[|n]|] eqn:E.
  - intros _. by exists 0, 0.
  - intros _. by exists 0, (S n).
  - intros (k & n & H)%IH. by exists (S k), n.
Qed.

Lemma holds_skipn ci a l s k :
  is_Some (Re.lit ci (String a l) (Re.skipn k s)) → holds ci (String a l) s = true.
Proof.
  unfold holds, Re.occurs. revert k. induction s as [|c s IH]; intros k H.
  - destruct k; simpl in H; by destruct H.
  - cbn [Re.occursAt]. destruct k as [|k].
    + cbn [Re.skipn] in H. cbn [Re.matchAt]. destruct H as [s' ->]. done.
    + cbn [Re.skipn] in H. rewrite (IH k H). by destruct (Re.matchAt _ _) as [[|]|].
Qed.

(** Where an expression matches somewhere in a text, so does each of its
    literals. *)
Lemma occurs_holds r ci a l s :
  Re.Lit ci (String a l) ∈ r → Re.occurs r s = true → holds ci (String a l) s = true.
Proof.
  intros Hin (k & n & H)%occursAt_skipn.
  destruct (matchAt_literal r _ n ci _ H Hin) as [j Hj].
  rewrite skipn_skipn in Hj. by eapply holds_skipn.
Qed.

(** ** What a pass changes *)

Section Passes.

Variable re : string -> option nat.

Lemma replace_no_match by_ s :
  Re.occursAt re s = false → Re.replace re by_ 0 s = s.
Proof.
  induction s as [|c s IH]; simpl; [done|].
  destruct (re (String c s)) as [[|k]|]; [|done|]; intros H; by rewrite IH.
Qed.

End Passes.

Lemma removeAll_no_match r s : Re.occurs r s = false → Re.removeAll r s = s.
Proof. apply replace_no_match. Qed.

Lemma cleanHtml_passes html :
  cleanHtml html = fold_left (λ s r, Re.removeAll r s) patterns html.
Proof. reflexivity. Qed.

Lemma passes_length rs : ∀ s,
  String.length (fold_left (λ s r, Re.removeAll r s) rs s) ≤ String.length s.
Proof.
  induction rs as [|r rs IH]; intros s; simpl; [lia|].
  etrans; [apply IH|]. apply removeAll_length.
Qed.

Lemma passes_fixed_point rs : ∀ s,
  fold_left (λ s r, Re.removeAll r s) rs s = s ↔ ∀ r, r ∈ rs → Re.occurs r s = false.
Proof.
  induction rs as [|r rs IH]; intros s; simpl.
  - split; [|done]. by intros _ r ?%elem_of_nil.
  - split.
    + intros H.
      destruct (removeAll_same_length r s) as [E O].
      { pose proof (passes_length rs (Re.removeAll r s)) as L1.
        pose proof (removeAll_length r s) as L2. rewrite H in L1. lia. }
      rewrite E in H. pose proof (proj1 (IH s) H) as H'.
      intros r' [->|Hr']%elem_of_cons; auto.
    + intros H. rewrite removeAll_no_match by (apply H; by left).
      apply IH. intros r' Hr'. apply H. by right.
Qed.

Lemma passes_shorter rs : ∀ s,
  fold_left (λ s r, Re.removeAll r s) rs s = s ∨
  String.length (fold_left (λ s r, Re.removeAll r s) rs s) < String.length s.
Proof.
  induction rs as [|r rs IH]; intros s; simpl; [by left|].
  pose proof (removeAll_length r s) as L.
  destruct (decide (String.length (Re.removeAll r s) = String.length s)) as [E|NE].
  - apply removeAll_same_length in E as [-> _]. apply IH.
  - right. pose proof (passes_length rs (Re.removeAll r s)). lia.
Qed.

Lemma cleanHtml_fixed html :
  cleanHtml html = html ↔ ∀ r, r ∈ patterns → Re.occurs r html = false.
Proof. rewrite cleanHtml_passes. apply passes_fixed_point. Qed.

(** X7.  [cleanHtml] returns a text as it is exactly when none of its eight
    expressions matches anywhere in it; every other text comes back
    shorter. *)
Theorem cleanHtml_unchanged_iff (html : string) :
  (cleanHtml html = html ↔ ∀ r, r ∈ patterns → Re.occurs r html = false) ∧
  (cleanHtml html = html ∨ String.length (cleanHtml html) < String.length html).
Proof.
  split; [apply cleanHtml_fixed|]. rewrite cleanHtml_passes. apply passes_shorter.
Qed.

(** X8.  Text that holds no double quote, no [mso-] and no [<!--], in
    whatever case of the letters, passes through [cleanHtml] as it is. *)
Theorem cleanHtml_keeps_plain_text (html : string) :
  holds true Re.Q html = false →
  holds true "mso-" html = false →
  holds true "<!--" html = false →
  cleanHtml html = html.
Proof.
  intros Hq Hm Hc. apply cleanHtml_fixed. intros r Hr.
  destruct (Re.occurs r html) eqn:E; [|done].
  unfold patterns in Hr.
  repeat (apply elem_of_cons in Hr as [->|Hr]);
    [rewrite <- Hq|rewrite <- Hm|rewrite <- Hq|rewrite <- Hq|rewrite <- Hc|
     rewrite <- Hq|rewrite <- Hq|rewrite <- Hq|by apply elem_of_nil in Hr];
    symmetry; (eapply occurs_holds; [|exact E]);
    unfold Re.wordNamespace, Re.msoStyle, Re.atAttribute, Re.underscoreAttribute,
           Re.comment, Re.width, Re.styleAt, Re.styleMso;
    repeat first [by left | right].
Qed.


(** ** The plain text of a Section *)

Lemma lower_fixed a c : Js.isLower a = false → Js.lower c = a → c = a.
Proof.
  unfold Js.lower. destruct (Js.isUpper c) eqn:E; [|done].
  intros Ha <-. exfalso. revert Ha. unfold Js.isUpper, Js.isLower, Js.between, Js.code in *.
  apply andb_prop in E as [E1%Nat.leb_le E2%Nat.leb_le].
  rewrite nat_ascii_embedding by lia.
  intros [H|H]%andb_false_iff; apply Nat.leb_gt in H; lia.
Qed.

Lemma holds_elim ci l s :
  holds ci l s = true → ∃ k, is_Some (Re.lit ci l (Re.skipn k s)).
Proof.
  intros (k & n & H)%occursAt_skipn. exists k. simpl in H.
  by destruct (Re.lit ci l (Re.skipn k s)).
Qed.

Lemma holds_first ci a l s :
  Js.isLower a = false → holds ci (String a l) s = true →
  holds false (String a EmptyString) s = true.
Proof.
  intros Ha [k [s' H]]%holds_elim. apply (holds_skipn false a EmptyString s k).
  simpl in *. destruct (Re.skipn k s) as [|c t]; [done|].
  destruct (Ascii.eqb _ a) eqn:E; [|done]. apply Ascii.eqb_eq in E.
  assert (c = a) as -> by (destruct ci; [by apply lower_fixed|done]).
  rewrite Ascii.eqb_refl. by eexists.
Qed.

Lemma replaceAll_no_match r by_ s : Re.occurs r s = false → Re.replaceAll r by_ s = s.
Proof. apply replace_no_match. Qed.

(** X9.  A [contentHtml] without [<] is its own plain text. *)
Theorem toPlainText_without_tags (contentHtml : string) :
  holds false "<" contentHtml = false →
  Plain.toPlainText contentHtml = contentHtml.
Proof.
  intros H. unfold Plain.toPlainText.
  assert (G : ∀ r ci l, Re.Lit ci (String "<" l) ∈ r → Re.occurs r contentHtml = false).
  { intros r ci l Hin. destruct (Re.occurs r contentHtml) eqn:E; [|done].
    rewrite <- H. symmetry. apply (holds_first ci "<" l); [done|].
    by apply (occurs_holds r). }
  rewrite (replaceAll_no_match Plain.br) by (eapply G; by left).
  rewrite (replaceAll_no_match Plain.closeP) by (eapply G; by left).
  apply replaceAll_no_match. eapply G; by left.
Qed.

(** *** Runs over a class of single bytes *)

Lemma skipn_0 s : Re.skipn 0 s = s.
Proof. by destruct s. Qed.

Lemma stops_byte_lookup p : ∀ fuel passed s i,
  i ≤ fuel → i ≤ (Re.span p s).1 →
  Re.stops (Re.byte p) fuel passed s !! i = Some (passed + i, Re.skipn i s).
Proof.
  induction fuel as [|fuel IH]; intros passed s i Hf Hi.
  - assert (i = 0) as -> by lia. cbn [Re.stops]. simpl. by rewrite Nat.add_0_r, ?skipn_0.
  - destruct i as [|i]; [cbn [Re.stops]; simpl; by rewrite Nat.add_0_r, ?skipn_0|].
    cbn [Re.stops]. simpl lookup.
    destruct s as [|c s]; [simpl in Hi; lia|]. simpl in Hi. simpl Re.byte.
    destruct (p c) eqn:E; [|simpl in Hi; lia].
    destruct (Re.span p s) as [n r] eqn:En. simpl in Hi.
    cbn [Re.skipn]. rewrite ?skipn_0, IH by (rewrite ?En; simpl; lia).
    do 2 f_equal. lia.
Qed.

Lemma stops_byte_elem p : ∀ fuel passed s x,
  x ∈ Re.stops (Re.byte p) fuel passed s →
  ∃ i, i ≤ (Re.span p s).1 ∧ Re.stops (Re.byte p) fuel passed s !! i = Some x ∧
       x = (passed + i, Re.skipn i s).
Proof.
  induction fuel as [|fuel IH]; intros passed s x; cbn [Re.stops].
  - intros ->%list_elem_of_singleton. exists 0. rewrite Nat.add_0_r, ?skipn_0.
    repeat split; lia.
  - intros [->|Hx]%elem_of_cons.
    { exists 0. rewrite Nat.add_0_r, ?skipn_0. repeat split; lia. }
    destruct s as [|c s]; [by apply elem_of_nil in Hx|]. simpl Re.byte in *.
    destruct (p c) eqn:E; [|by apply elem_of_nil in Hx].
    cbn [Re.skipn] in *. rewrite ?skipn_0 in *.
    apply IH in Hx as (i & Hi & Hl & ->). exists (S i). simpl. rewrite E.
    destruct (Re.span p s) as [n r]. simpl in *.
    split; [lia|]. split; [exact Hl|]. f_equal. lia.
Qed.

Lemma span_le p s : (Re.span p s).1 ≤ String.length s.
Proof.
  induction s as [|c s IH]; simpl; [lia|].
  destruct (p c); [|simpl; lia]. destruct (Re.span p s). simpl in *. lia.
Qed.

(** A run over a class of single bytes, greedy or lazy, lets the expression
    match exactly when what follows the run matches behind some stretch of
    it that is long enough. *)
Lemma many_byte_Some p min greedy r s m :
  Re.matchAt (Re.Many (Re.byte p) min greedy :: r) s = Some m →
  ∃ k m', min ≤ k ≤ (Re.span p s).1 ∧ Re.matchAt r (Re.skipn k s) = Some m' ∧ m = k + m'.
Proof.
  cbn [Re.matchAt]. intros (x & Hx & Hm)%first_Some.
  apply elem_of_candidates in Hx.
  apply list_elem_of_lookup in Hx as [j Hj]. rewrite lookup_drop in Hj.
  assert (Hin : x ∈ Re.stops (Re.byte p) (String.length s) 0 s)
    by (eapply list_elem_of_lookup_2; exact Hj).
  apply stops_byte_elem in Hin as (i & Hi & Hl & ->).
  assert (i = min + j) as ->.
  { pose proof (stops_byte_lookup p (String.length s) 0 s (min + j)) as H.
    destruct (decide (min + j ≤ (Re.span p s).1)) as [Hle|Hgt].
    - rewrite H in Hj by (pose proof (span_le p s); lia). injection Hj as Hj _. lia.
    - pose proof (stops_byte_lookup p (String.length s) 0 s i) as H'.
      rewrite H' in Hl by (pose proof (span_le p s); lia).
      assert (Hlen : min + j < length (Re.stops (Re.byte p) (String.length s) 0 s))
        by (eapply lookup_lt_Some; exact Hj).
      exfalso. clear -Hlen Hgt.
      assert (G : ∀ fuel passed s, length (Re.stops (Re.byte p) fuel passed s)
                                   ≤ S (Re.span p s).1).
      { clear. induction fuel as [|fuel IH]; intros passed s; cbn [Re.stops]; simpl; [lia|].
        destruct s as [|c s]; simpl; [lia|]. destruct (p c); simpl; [|lia].
        rewrite ?skipn_0. specialize (IH (passed + 1) s).
        destruct (Re.span p s). simpl in *. lia. }
      specialize (G (String.length s) 0 s). lia. }
  simpl in Hm. destruct (Re.matchAt r (Re.skipn (min + j) s)) as [m'|] eqn:E; [|done].
  injection Hm as <-. exists (min + j), m'. repeat split; try lia. done.
Qed.

Lemma many_byte_None p min greedy r s k :
  Re.matchAt (Re.Many (Re.byte p) min greedy :: r) s = None →
  min ≤ k ≤ (Re.span p s).1 → Re.matchAt r (Re.skipn k s) = None.
Proof.
  cbn [Re.matchAt]. intros H Hk.
  pose proof (proj1 (first_None _ _) H (k, Re.skipn k s)) as G. simpl in G.
  destruct (Re.matchAt r (Re.skipn k s)); [|done].
  discriminate G. apply elem_of_candidates.
  apply list_elem_of_lookup. exists (k - min). rewrite lookup_drop.
  replace (min + (k - min)) with k by lia.
  rewrite stops_byte_lookup; [done| |lia]. pose proof (span_le p s). lia.
Qed.

(** *** No tag is left *)

Lemma span_rest p s : Re.skipn (Re.span p s).1 s = (Re.span p s).2.
Proof.
  induction s as [|c s IH]; [done|]. simpl. destruct (p c); [|done].
  destruct (Re.span p s). simpl in *. done.
Qed.

Lemma span_stop p s c r : (Re.span p s).2 = String c r → p c = false.
Proof.
  induction s as [|c' s IH]; [done|]. simpl. destruct (p c') eqn:E.
  - destruct (Re.span p s). simpl in *. done.
  - simpl. by intros [= <- _].
Qed.

Lemma span_all p s : (Re.span p s).2 = EmptyString → ∀ c, c ∈ chars s → p c = true.
Proof.
  induction s as [|c' s IH]; simpl; [by intros _ c ?%elem_of_nil|].
  destruct (p c') eqn:E; [|done].
  destruct (Re.span p s). simpl in *. intros H c [->|Hc]%elem_of_cons; auto.
Qed.

Lemma chars_skipn k : ∀ s c, c ∈ chars (Re.skipn k s) → c ∈ chars s.
Proof.
  induction k as [|k IH]; intros [|c' s] c; simpl; try done.
  intros H. right. by apply IH.
Qed.

Lemma startsGt_chars s : startsGt s = true → ">"%char ∈ chars s.
Proof. destruct s as [|c s]; [done|]. simpl. intros ->%Ascii.eqb_eq. by left. Qed.

Lemma matchAt_Lit ci l r s :
  Re.matchAt (Re.Lit ci l :: r) s =
  match Re.lit ci l s with
  | Some s' => Nat.add (String.length l) <$> Re.matchAt r s'
  | None => None
  end.
Proof. reflexivity. Qed.

Lemma anyTag_unfold c t :
  Re.matchAt Plain.anyTag (String c t) =
  if Ascii.eqb c "<"
  then S <$> Re.matchAt [Re.Many (Re.byte notGt) 1 true; Re.Lit false ">"] t
  else None.
Proof.
  unfold Plain.anyTag. rewrite matchAt_Lit. cbn [Re.lit].
  by destruct (Ascii.eqb c "<").
Qed.

Lemma anyTag_Some c t m :
  Re.matchAt Plain.anyTag (String c t) = Some m →
  c = "<"%char ∧ (∃ m', m = S m') ∧
  ∃ k, 1 ≤ k ≤ (Re.span notGt t).1 ∧ startsGt (Re.skipn k t) = true.
Proof.
  rewrite anyTag_unfold.
  destruct (Ascii.eqb c "<") eqn:E; [|done]. apply Ascii.eqb_eq in E as ->.
  destruct (Re.matchAt [Re.Many (Re.byte notGt) 1 true; Re.Lit false ">"] t)
    as [m1|] eqn:E1; [|done].
  intros [= <-]. split; [done|]. split; [by eexists|].
  apply many_byte_Some in E1 as (k & m' & Hk & Hm & _). exists k. split; [done|].
  simpl in Hm. destruct (Re.skipn k t) as [|d r]; [done|]. simpl.
  by destruct (Ascii.eqb d ">").
Qed.

Lemma anyTag_None t k :
  Re.matchAt Plain.anyTag (String "<" t) = None →
  1 ≤ k ≤ (Re.span notGt t).1 → startsGt (Re.skipn k t) = false.
Proof.
  rewrite anyTag_unfold. simpl Ascii.eqb. cbv iota.
  destruct (Re.matchAt [Re.Many (Re.byte notGt) 1 true; Re.Lit false ">"] t)
    as [m1|] eqn:E1; [done|]. intros _ Hk.
  pose proof (many_byte_None _ _ _ _ _ k E1 Hk) as H. simpl in H.
  destruct (Re.skipn k t) as [|d r]; [done|]. simpl.
  by destruct (Ascii.eqb d ">").
Qed.

(** A [<] that is followed by something other than [>] and, further on, by a
    [>] starts a tag. *)
Lemma anyTag_complete d r :
  notGt d = true → ">"%char ∈ chars (String d r) →
  Re.matchAt Plain.anyTag (String "<" (String d r)) ≠ None.
Proof.
  intros Hd Hgt Hnone. set (t := String d r) in *.
  assert (H1 : 1 ≤ (Re.span notGt t).1).
  { unfold t. simpl. rewrite Hd. destruct (Re.span notGt r). simpl. lia. }
  pose proof (anyTag_None t _ Hnone (conj H1 (le_n _))) as H.
  rewrite span_rest in H.
  destruct (Re.span notGt t).2 as [|c r'] eqn:E.
  - pose proof (span_all notGt t E _ Hgt). done.
  - apply span_stop in E. simpl in H. unfold notGt, Re.oneOfChars in E. simpl in E.
    rewrite H in E. done.
Qed.

Lemma anyTag_scan s : ∀ skip,
  Re.occursAt (Re.matchAt Plain.anyTag)
              (Re.replace (Re.matchAt Plain.anyTag) EmptyString skip s) = false.
Proof.
  induction s as [|c s IH]; intros skip; [done|].
  cbn [Re.replace]. destruct skip as [|skip]; [|apply IH].
  destruct (Re.matchAt Plain.anyTag (String c s)) as [[|k]|] eqn:E.
  { apply anyTag_Some in E as (_ & [m' ?] & _). done. }
  { change (EmptyString +:+ ?x) with x. apply IH. }
  cbn [Re.occursAt]. rewrite IH.
  destruct (Re.matchAt Plain.anyTag
              (String c (Re.replace (Re.matchAt Plain.anyTag) EmptyString 0 s)))
    as [m|] eqn:E'; [|done].
  exfalso. apply anyTag_Some in E' as (-> & _ & k & Hk & Hgt).
  set (o := Re.replace (Re.matchAt Plain.anyTag) EmptyString 0 s) in *.
  assert (Ho : ">"%char ∈ chars o) by (eapply chars_skipn, startsGt_chars, Hgt).
  assert (Hs : ">"%char ∈ chars s).
  { apply (elem_of_sublist (chars o)); [exact Ho|apply remove_sublist]. }
  destruct s as [|d' r']; [by apply elem_of_nil in Hs|].
  destruct (notGt d') eqn:Hd'.
  { by apply (anyTag_complete d' r' Hd' Hs). }
  assert (d' = ">"%char) as ->.
  { unfold notGt, Re.oneOfChars in Hd'. simpl in Hd'.
    apply Ascii.eqb_eq. by destruct (Ascii.eqb d' ">"). }
  assert (Eo : o = String ">" (Re.replace (Re.matchAt Plain.anyTag) EmptyString 0 r')).
  { unfold o. cbn [Re.replace]. by rewrite anyTag_unfold. }
  rewrite Eo in Hk. simpl in Hk. lia.
Qed.

(** X10.  The plain text of a [contentHtml] holds no tag: nowhere in it does
    [<[^>]+>] match, whatever the [contentHtml]. *)
Theorem toPlainText_leaves_no_tag (contentHtml : string) :
  Re.occurs Plain.anyTag (Plain.toPlainText contentHtml) = false.
Proof. apply anyTag_scan. Qed.


(** ** [sanitizeTable] keeps what it does not clear *)

Lemma map_id_Forall {A} (f : A → A) l : Forall (λ x, f x = x) l → List.map f l = l.
Proof. induction 1; simpl; congruence. Qed.

Lemma strip_textContent n : Dom.textContent (Table.strip n) = Dom.textContent n.
Proof.
  induction n as [d|d|tag attrs cs IH|attrs cs _] using Node_induction; try done.
  simpl. f_equal. rewrite map_map. apply Forall2_map_eq.
  induction IH; constructor; auto.
Qed.

Lemma strip_fixed n : bareBelow n = true → Table.strip n = n.
Proof.
  induction n as [d|d|tag attrs cs IH|attrs cs _] using Node_induction; try done.
  simpl. intros [Ha Hc]%andb_prop. f_equal.
  - destruct (Table.selected tag); [|done].
    apply bool_decide_eq_true in Ha. destruct attrs; [done|discriminate Ha].
  - apply map_id_Forall. rewrite forallb_forall in Hc.
    rewrite Forall_forall in IH |- *. intros c Hc'. apply IH; [done|].
    apply Hc. by apply list_elem_of_In.
Qed.

(** X11.  [sanitizeTable] leaves every table, row and cell element below
    the document without attributes, and changes nothing else: the text of
    a node stays, a second run changes nothing, and a node comes back as it
    was exactly when none of those elements carried an attribute. *)
Theorem strip_clears_and_keeps (n : Dom.Node) :
  bareBelow (Table.strip n) = true ∧
  Dom.textContent (Table.strip n) = Dom.textContent n ∧
  Table.strip (Table.strip n) = Table.strip n ∧
  (Table.strip n = n ↔ bareBelow n = true).
Proof.
  split; [apply strip_bareBelow|]. split; [apply strip_textContent|].
  split; [apply strip_fixed, strip_bareBelow|].
  split; [|apply strip_fixed]. intros <-. apply strip_bareBelow.
Qed.

(** X12.  Markup in which no table, row or cell element below the document
    carries an attribute comes back from [sanitizeTable] as the parser's
    reading of it, serialized. *)
Theorem sanitizeTable_of_bare parse (html : string) :
  forallb bareBelow (parse html) = true →
  sanitizeTable parse html = Dom.innerHTML (parse html).
Proof.
  intros H. unfold sanitizeTable. f_equal. apply map_id_Forall, Forall_forall.
  intros n Hn. apply strip_fixed. rewrite forallb_forall in H. apply H.
  by apply list_elem_of_In.
Qed.

(** ** The export does not read the nesting *)

Section Flat.

Variable parse : string -> list Dom.Node.

Lemma concat_preorder (E : Sec.t → string) (forest : list Sec.t) :
  Dom.concat (List.map E (flat_map preorder forest)) =
  Dom.concat (List.map (λ k, Dom.concat (List.map E (preorder k))) forest).
Proof.
  induction forest as [|k forest IH]; [done|].
  cbn [flat_map List.map]. rewrite List.map_app, concat_app, IH. done.
Qed.

Lemma buildHtmlNode_own n :
  ∀ level acc, buildHtmlNode parse level acc n =
               acc +:+ Dom.concat (List.map (ownMarkup parse) (preorder n)).
Proof.
  induction n as [i title lvl content kids IH] using Sec_induction.
  intros level acc.
  assert (Hkids := fold_buildHtmlNode parse _ (level + 1) kids IH).
  cbn [preorder List.map Sec.children].
  rewrite concat_cons, concat_preorder.
  set (K := Dom.concat (List.map _ kids)) in *.
  assert (Hhead : ∀ acc',
    match kids with
    | [] => acc'
    | _ :: _ => fold_left (buildHtmlNode parse (level + 1)) kids acc'
    end = acc' +:+ K).
  { intros acc'. destruct kids; [|apply Hkids]. subst K. simpl. by rewrite append_nil_r. }
  unfold buildHtmlNode; fold buildHtmlNode. cbn [Sec.level Sec.title Sec.contentHtml].
  rewrite Hhead.
  unfold ownMarkup, headingMarkup, sanitizedContent.
  cbn [Sec.level Sec.title Sec.contentHtml].
  destruct content as [|c content]; cbn [Js.isEmpty].
  - by rewrite !append_assoc, ?append_nil_l.
  - by rewrite !append_assoc.
Qed.

Lemma buildHtml_own nodes level acc :
  buildHtml parse nodes level acc =
  acc +:+ Dom.concat (List.map (ownMarkup parse) (preorderAll nodes)).
Proof.
  unfold buildHtml, preorderAll. rewrite concat_preorder.
  apply fold_buildHtmlNode, Forall_forall. intros n _. apply buildHtmlNode_own.
Qed.

Lemma preorderAll_flatten forest : preorderAll (flatten forest) = flatten forest.
Proof.
  unfold flatten. induction (preorderAll forest) as [|s l IH]; [done|].
  rewrite List.map_cons, preorderAll_cons, IH. done.
Qed.

End Flat.

(** X13.  The export reads the [level] field and never the nesting: a
    forest exports as the flat list of its Sections in pre-order does, and
    the export of two forests one after the other is the export of the first
    followed by the export of the second.  This holds for every parser. *)
Theorem export_forgets_nesting parse (forest more : list Sec.t) :
  exportHtml parse forest = exportHtml parse (flatten forest) ∧
  exportHtml parse (forest ++ more) = exportHtml parse forest +:+ exportHtml parse more.
Proof.
  unfold exportHtml. rewrite !buildHtml_own, !append_nil_l. split.
  - rewrite preorderAll_flatten. unfold flatten. rewrite map_map. done.
  - unfold preorderAll. by rewrite flat_map_app, List.map_app, concat_app.
Qed.

(** ** The paragraphs of [buildDocxFromTree] *)

Lemma fold_appendNode kids :
  Forall (λ k, ∀ acc, Plain.appendNode acc k = acc ++ flat_map sectionParagraphs (preorder k))
         kids →
  ∀ acc, fold_left Plain.appendNode kids acc =
         acc ++ flat_map sectionParagraphs (preorderAll kids).
Proof.
  induction 1 as [|k kids Hk _ IH]; intros acc; cbn [fold_left].
  - by rewrite app_nil_r.
  - unfold preorderAll in *. cbn [flat_map]. rewrite IH, Hk, flat_map_app. by rewrite <- app_assoc.
Qed.

Lemma appendNode_preorder n :
  ∀ acc, Plain.appendNode acc n = acc ++ flat_map sectionParagraphs (preorder n).
Proof.
  induction n as [i title lvl content kids IH] using Sec_induction.
  intros acc. cbn [Plain.appendNode Sec.title Sec.level Sec.contentHtml].
  rewrite (fold_appendNode kids IH).
  change (preorder (Sec.mk i title lvl content kids))
    with (Sec.mk i title lvl content kids :: preorderAll kids).
  cbn [flat_map]. unfold sectionParagraphs at 2.
  cbn [Sec.title Sec.level Sec.contentHtml].
  destruct (Js.isEmpty _); simpl; by rewrite <- ?app_assoc.
Qed.

(** X14.  [buildDocxFromTree] writes the Sections in depth-first pre-order:
    for each Section the heading paragraph with its title and level and,
    only when the plain text of its [contentHtml] is not blank, one
    paragraph with that plain text; then its children, then its next
    sibling. *)
Theorem docx_paragraphs_preorder (tree : list Sec.t) :
  Plain.paragraphsOfTree tree = flat_map sectionParagraphs (preorderAll tree).
Proof.
  unfold Plain.paragraphsOfTree. rewrite fold_appendNode; [done|].
  apply Forall_forall. intros n _. apply appendNode_preorder.
Qed.

(** ** Data URLs *)

Lemma split_nonempty sep s : Str.split sep s ≠ [].
Proof.
  induction s as [|c s IH]; simpl; [done|].
  destruct (Ascii.eqb c sep); [done|]. by destruct (Str.split sep s).
Qed.

Lemma split_sep sep a b :
  sep ∉ chars a → Str.split sep (a +:+ String sep b) = a :: Str.split sep b.
Proof.
  induction a as [|c a IH]; intros Ha.
  - simpl. by rewrite Ascii.eqb_refl.
  - rewrite append_cons. cbn [Str.split].
    apply not_elem_of_cons in Ha as [Hc Ha].
    destruct (Ascii.eqb c sep) eqn:E; [by apply Ascii.eqb_eq in E|].
    by rewrite IH.
Qed.

Lemma split_one sep s : sep ∉ chars s ↔ Str.split sep s = [s].
Proof.
  induction s as [|c s IH]; simpl.
  - split; [done|]. by intros _ ?%elem_of_nil.
  - destruct (Ascii.eqb c sep) eqn:E.
    + apply Ascii.eqb_eq in E as ->. split; [|done]. intros []. by left.
    + rewrite not_elem_of_cons, IH. split.
      * by intros [_ ->].
      * intros H. split; [intros ->; by rewrite Ascii.eqb_refl in E|].
        pose proof (split_nonempty sep s).
        destruct (Str.split sep s) as [|x [|y l]]; [done| |done].
        by injection H as ->.
Qed.

Lemma split_second_None sep s : Str.split sep s !! 1 = None ↔ sep ∉ chars s.
Proof.
  rewrite split_one. split.
  - induction s as [|c s IH]; simpl; [done|].
    destruct (Ascii.eqb c sep) eqn:E.
    + pose proof (split_nonempty sep s). by destruct (Str.split sep s).
    + pose proof (split_nonempty sep s).
      destruct (Str.split sep s) as [|x [|y l]]; [done| |done].
      intros _. f_equal. f_equal. assert ([x] = [s]) as [= ->] by by apply IH. done.
  - by intros ->.
Qed.

Lemma prefix_app p s t : String.prefix p s = true → String.prefix p (s +:+ t) = true.
Proof.
  revert p. induction s as [|c s IH]; intros [|a p]; try done.
  - by destruct t.
  - rewrite append_cons. simpl. destruct (ascii_dec a c); [apply IH|done].
Qed.

(** X15.  For a data URL, that is [data:image...] up to a first comma and a
    payload behind it, [getImage] decodes the payload, and it reads the
    payload no further than a second comma. *)
Theorem getImage_data_url (header payload rest : string) :
  String.prefix "data:image" header = true →
  ","%char ∉ chars header → ","%char ∉ chars payload →
  getImage (header +:+ "," +:+ payload) = Buffer payload ∧
  getImage (header +:+ "," +:+ payload +:+ "," +:+ rest) = Buffer payload.
Proof.
  intros Hp Hh Hpay. unfold getImage.
  rewrite !prefix_app by done.
  change ("," +:+ ?x) with (String "," x).
  rewrite !split_sep by done. simpl lookup.
  change ("," +:+ rest) with (String "," rest).
  by rewrite (split_sep _ payload rest Hpay), (proj1 (split_one _ _) Hpay).
Qed.

(** X16.  [getImage] rejects exactly the URLs that start with [data:image]
    and hold no comma; it answers [null] exactly for the URLs that do not
    start with [data:image], in this case of the letters. *)
Theorem getImage_rejects_without_comma (url : string) :
  (getImage url = Rejected ↔ String.prefix "data:image" url = true ∧ ","%char ∉ chars url) ∧
  (getImage url = Null ↔ String.prefix "data:image" url = false).
Proof.
  unfold getImage. destruct (String.prefix "data:image" url); split.
  - rewrite <- split_second_None. destruct (Str.split "," url !! 1) as [text|].
    + split; [done|]. by intros [_ ?].
    + by split.
  - by destruct (Str.split "," url !! 1).
  - split; [done|]. by intros [? _].
  - done.
Qed.

Section Uploads.

Variable random : nat -> string.
Variable parse : string -> list Dom.Node.
Variable convert : string -> option string.

(** X17.  [/api/upload-base64] answers 500 to every base64 text that holds
    no comma, whatever the converter would do: the text of a data URL is
    taken from behind the first comma. *)
Theorem uploadBase64_without_comma (base64 : string) :
  base64 ≠ EmptyString → ","%char ∉ chars base64 →
  uploadBase64 random parse convert (Some base64) = Status500.
Proof.
  intros Hne Hc. unfold uploadBase64.
  destruct base64 as [|c s]; [done|]. cbn [Js.isEmpty].
  by rewrite (proj2 (split_second_None _ _) Hc).
Qed.

End Uploads.

(** X18.  What stands before the first comma of the base64 text is not
    read: two requests whose texts have the same payload behind it get the
    same answer, the same status or trees with the same titles, levels,
    [contentHtml] and nesting.  The identifiers are drawn anew for each
    request. *)
Theorem uploadBase64_header_unread random1 random2 parse convert
    (header1 header2 payload : string) :
  ","%char ∉ chars header1 → ","%char ∉ chars header2 →
  eraseIds (uploadBase64 random1 parse convert (Some (header1 +:+ "," +:+ payload))) =
  eraseIds (uploadBase64 random2 parse convert (Some (header2 +:+ "," +:+ payload))).
Proof.
  intros H1 H2. unfold uploadBase64.
  change ("," +:+ ?x) with (String "," x).
  rewrite !split_sep by done. simpl lookup.
  assert (G : ∀ h, Js.isEmpty (h +:+ String "," payload) = false) by (by intros [|]).
  rewrite !G.
  destruct (Str.split "," payload !! 0) as [text|]; [|done].
  destruct (convert text) as [html|]; [|done].
  cbn [eraseIds]. f_equal. apply Sim_buildTree.
Qed.


(** ** How deep the tree goes *)

Lemma max_le_Forall (bound : nat) l :
  Forall (λ n, n ≤ bound) l → foldr Nat.max 0 l ≤ bound.
Proof. induction 1; simpl; lia. Qed.

Lemma wellLevelled_depth s :
  ∀ ancestors, wellLevelled ancestors s = true → (Z.of_nat (depth s) ≤ 7 - Sec.level s)%Z.
Proof.
  induction s as [i title l content kids IH] using Sec_induction.
  intros ancestors H. cbn [wellLevelled] in H. cbn [depth Sec.level].
  apply andb_prop in H as [H Hk]. apply andb_prop in H as [H _].
  apply andb_prop in H as [H1%Z.leb_le H6%Z.leb_le].
  assert (G : foldr Nat.max 0 (List.map depth kids) ≤ Z.to_nat (6 - l)).
  { apply max_le_Forall, Forall_forall. intros n (k & <- & Hin)%list_elem_of_In%in_map_iff.
    rewrite forallb_forall in Hk. pose proof (Hk k Hin) as Hwl.
    apply list_elem_of_In in Hin.
    pose proof (proj1 (Forall_forall _ _) IH k Hin _ Hwl) as Hd.
    destruct k as [i' t' l' c' k']. cbn [wellLevelled forallb] in Hwl.
    cbn [Sec.level] in Hd.
    apply andb_prop in Hwl as [Hwl _]. apply andb_prop in Hwl as [_ Hwl].
    apply andb_prop in Hwl as [Hlt%Z.ltb_lt _]. lia. }
  lia.
Qed.

Lemma canon_covers s :
  ∀ lo d, (d ≤ lo + 1)%Z → canon lo s = true → levelCoversDepth d s = true.
Proof.
  induction s as [i title l content kids IH] using Sec_induction.
  intros lo d Hd H. cbn [canon] in H. cbn [levelCoversDepth].
  apply andb_prop in H as [H _]. apply andb_prop in H as [Hlo%Z.ltb_lt Hk].
  apply andb_true_intro. split; [apply Z.leb_le; lia|].
  apply forallb_forall. intros k Hin.
  rewrite forallb_forall in Hk. pose proof (Hk k Hin) as Hc.
  apply list_elem_of_In in Hin.
  apply (proj1 (Forall_forall _ _) IH k Hin l); [lia|done].
Qed.

Lemma buildTree_wellLevelled random body :
  forallb (wellLevelled []) (buildTree random body) = true.
Proof.
  unfold buildTree, result.
  set (s := run random init _).
  assert (HI : Inv s) by apply run_Inv, Inv_init.
  apply forallb_forall. intros k (r & <- & Hr%list_elem_of_In)%in_map_iff.
  apply (reify_wellLevelled s HI); [by apply (inv_roots s HI)|lia|constructor].
Qed.

(** X19.  The returned tree is at most six Sections deep, and no Section
    sits deeper than its level says: a root has a level of 1 or more, a
    child of a root a level of 2 or more, and so on. *)
Theorem tree_depth_within_levels random parse (html : string) :
  depthAll (buildTreeFromHtml random parse html) ≤ 6 ∧
  forallb (levelCoversDepth 1) (buildTreeFromHtml random parse html) = true.
Proof.
  unfold buildTreeFromHtml. set (body := Dom.children (parse html)). split.
  - apply max_le_Forall, Forall_forall. intros n (k & <- & Hin)%list_elem_of_In%in_map_iff.
    pose proof (buildTree_wellLevelled random body) as H.
    rewrite forallb_forall in H. pose proof (H k Hin) as Hk.
    pose proof (wellLevelled_depth k [] Hk) as Hd.
    destruct k as [i t l c kids]. cbn [wellLevelled] in Hk. cbn [Sec.level] in Hd.
    apply andb_prop in Hk as [Hk _]. apply andb_prop in Hk as [Hk _].
    apply andb_prop in Hk as [H1%Z.leb_le _]. lia.
  - pose proof (buildTree_canon random body) as H. unfold canonForest in H.
    apply andb_prop in H as [H _]. apply forallb_forall. intros k Hin.
    rewrite forallb_forall in H. apply (canon_covers k 0); [lia|by apply H].
Qed.

(** ** Which elements are headings *)

Lemma upper_H c : Js.upper c = "H"%char → c = "h"%char ∨ c = "H"%char.
Proof.
  destruct c as [[] [] [] [] [] [] [] []]; vm_compute; intros H;
    first [by left | by right | discriminate H].
Qed.

Lemma upper_digit c : Js.between 49 54 (Js.upper c) = true → Js.upper c = c.
Proof.
  destruct c as [[] [] [] [] [] [] [] []]; vm_compute; intros H;
    first [reflexivity | discriminate H].
Qed.

Lemma upper_upper c : Js.upper (Js.upper c) = Js.upper c.
Proof. by destruct c as [[] [] [] [] [] [] [] []]. Qed.

Lemma toUpperCase_twice s : Js.toUpperCase (Js.toUpperCase s) = Js.toUpperCase s.
Proof.
  unfold Js.toUpperCase. induction s as [|c s IH]; [done|].
  simpl. by rewrite upper_upper, IH.
Qed.

Lemma headingLevel_names (node : Dom.Node) (level : Z) :
  headingLevel node = Some level ↔
  ∃ attrs cs name, node = Dom.Element name attrs cs ∧ (name, level) ∈ headingNames.
Proof.
  split.
  - destruct node as [d|d|tag attrs cs|attrs cs]; try done.
    unfold headingLevel, Dom.tagName. cbn [Dom.localName].
    rewrite toUpperCase_twice. intros H. exists attrs, cs, tag. split; [done|].
    destruct tag as [|a [|b [|]]]; try done.
    unfold Js.toUpperCase in H. cbn [Js.map headingMatch] in H.
    destruct (Ascii.eqb (Js.upper a) "H" && Js.between 49 54 (Js.upper b)) eqn:E; [|done].
    apply andb_prop in E as [Ea%Ascii.eqb_eq Eb].
    injection H as <-. pose proof (upper_digit b Eb) as Eu. rewrite Eu in Eb |- *.
    apply upper_H in Ea.
    unfold Js.between in Eb. apply andb_prop in Eb as [E1%Nat.leb_le E2%Nat.leb_le].
    assert (Hb : b = ascii_of_nat (Js.code b)) by (symmetry; apply ascii_nat_embedding).
    unfold Js.code in *.
    assert (Hc : nat_of_ascii b = 49 ∨ nat_of_ascii b = 50 ∨ nat_of_ascii b = 51 ∨
                 nat_of_ascii b = 52 ∨ nat_of_ascii b = 53 ∨ nat_of_ascii b = 54) by lia.
    unfold headingNames.
    destruct Ea as [-> | ->];
      destruct Hc as [Hc|[Hc|[Hc|[Hc|[Hc|Hc]]]]]; rewrite Hc in Hb |- *; rewrite Hb;
      simpl; repeat first [by left | right].
  - intros (attrs & cs & name & -> & Hin). unfold headingNames in Hin.
    repeat (apply elem_of_cons in Hin as [[= -> ->]|Hin]; [reflexivity|]).
    by apply elem_of_nil in Hin.
Qed.

(** X20.  For a node handed to it the loop takes the heading branch exactly
    when the node is an element named [h1] to [h6], the letter in either
    case, and the level it reads is the digit of the name; on any other
    element, [h7], [header] or a template say, it takes one of the content
    branches. *)
Theorem headings_are_h1_to_h6 random (s : State) (node : Dom.Node) :
  ((step random s node).2 = Heading ↔
   ∃ attrs cs name level, node = Dom.Element name attrs cs ∧ (name, level) ∈ headingNames) ∧
  (∀ level, headingLevel node = Some level ↔
            ∃ attrs cs name, node = Dom.Element name attrs cs ∧ (name, level) ∈ headingNames).
Proof.
  split; [|intros level; apply headingLevel_names].
  assert (E : (step random s node).2 = Heading ↔ ∃ level, headingLevel node = Some level).
  { unfold step, headingLevel. destruct (headingMatch _) as [level|].
    - split; [by eexists|]. intros _. by destruct (popToLevel _ _ _).
    - split; [|by intros [? ?]]. by destruct (stack s); [destruct (tree s)|]. }
  rewrite E. split.
  - intros [level (attrs & cs & name & H)%headingLevel_names]. by exists attrs, cs, name, level.
  - intros (attrs & cs & name & level & H). exists level. apply headingLevel_names. eauto.
Qed.

(** ** [trim] *)

Lemma startsWith_split codes : ∀ s,
  Js.startsWith codes s = true → ∃ rest, s = fromCodes codes +:+ rest.
Proof.
  induction codes as [|k codes IH]; intros s; simpl.
  - intros _. by exists s.
  - destruct s as [|c s]; [done|]. intros [Hc%Nat.eqb_eq Hs]%andb_prop.
    apply IH in Hs as [rest ->]. exists rest. rewrite append_cons. f_equal.
    unfold Js.code in Hc. rewrite <- Hc. symmetry. apply ascii_nat_embedding.
Qed.

Lemma wsLen_cases s :
  Js.wsLen s = 0 ∨
  ∃ codes rest, In codes (Js.space1 ++ Js.space2 ++ Js.space3) ∧ s = fromCodes codes +:+ rest.
Proof.
  unfold Js.wsLen.
  destruct (existsb _ Js.space1) eqn:E1.
  { right. apply existsb_exists in E1 as (codes & Hin & [rest ->]%startsWith_split).
    exists codes, rest. split; [|done]. apply in_or_app. by left. }
  destruct (existsb _ Js.space2) eqn:E2.
  { right. apply existsb_exists in E2 as (codes & Hin & [rest ->]%startsWith_split).
    exists codes, rest. split; [|done]. apply in_or_app. right. apply in_or_app. by left. }
  destruct (existsb _ Js.space3) eqn:E3; [|by left].
  right. apply existsb_exists in E3 as (codes & Hin & [rest ->]%startsWith_split).
  exists codes, rest. split; [|done]. apply in_or_app. right. apply in_or_app. by right.
Qed.

Ltac ws_cases s :=
  let codes := fresh "codes" in let rest := fresh "rest" in let Hin := fresh "Hin" in
  destruct (wsLen_cases s) as [?|(codes & rest & Hin & ->)];
  [|simpl in Hin; repeat (destruct Hin as [<-|Hin]; [|]); [..|destruct Hin]].

(** A white-space character is read off its own bytes, none of its later
    bytes starts one, and a text that starts with one still does when it is
    cut or goes on otherwise behind it. *)
Lemma wsLen_own s k z :
  Js.wsLen s = S k → Js.wsLen (substring 0 (S k) s +:+ z) = S k.
Proof.
  ws_cases s; [congruence|..]; intros H; vm_compute in H; injection H as <-;
    vm_compute; reflexivity.
Qed.

Lemma wsLen_inner s k i :
  Js.wsLen s = S k → 0 < i ≤ k →
  Js.wsLen (Re.skipn i s) = 0 ∧ Re.skipn i s ≠ EmptyString.
Proof.
  ws_cases s; [congruence|..]; intros H Hi; vm_compute in H; injection H as <-.
  all: try lia.
  all: destruct i as [|[|[|i]]].
  all: try lia.
  all: split; [vm_compute; reflexivity|intros E; vm_compute in E; discriminate E].
Qed.

Lemma wsLen_prefix u v : Js.wsLen (u +:+ v) = 0 → Js.wsLen u = 0.
Proof.
  ws_cases u; [done|..]; intros H; vm_compute in H; discriminate H.
Qed.

Lemma wsLen_empty : Js.wsLen EmptyString = 0.
Proof. reflexivity. Qed.

Lemma dropWs_skip s : ∀ k, Js.dropWs k s = Js.dropWs 0 (Re.skipn k s).
Proof.
  induction s as [|c s IH]; intros [|k]; try done. cbn [Js.dropWs Re.skipn]. apply IH.
Qed.

Lemma trimStart_unfold s :
  Js.trimStart s = match Js.wsLen s with
                   | O => s
                   | S k => Js.trimStart (Re.skipn (S k) s)
                   end.
Proof.
  unfold Js.trimStart. destruct s as [|c s]; [done|]. cbn [Js.dropWs].
  destruct (Js.wsLen (String c s)) as [|k]; [done|]. cbn [Re.skipn]. apply dropWs_skip.
Qed.

Lemma trimStart_fixed s : Js.wsLen s = 0 → Js.trimStart s = s.
Proof. intros H. by rewrite trimStart_unfold, H. Qed.

Lemma trimStart_done n : ∀ s,
  String.length s ≤ n → Js.wsLen (Js.trimStart s) = 0.
Proof.
  induction n as [|n IH]; intros s Hn; rewrite trimStart_unfold.
  - destruct s; [done|simpl in Hn; lia].
  - destruct (Js.wsLen s) as [|k] eqn:E; [done|].
    apply IH. rewrite skipn_length. lia.
Qed.

Lemma take_skipn n : ∀ s, n ≤ String.length s → substring 0 n s +:+ Re.skipn n s = s.
Proof.
  induction n as [|n IH]; intros s Hn.
  - rewrite skipn_0. by destruct s.
  - destruct s as [|c s]; [simpl in Hn; lia|]. simpl. rewrite append_cons.
    f_equal. apply IH. simpl in Hn. lia.
Qed.

Lemma take_length n : ∀ s, n ≤ String.length s → String.length (substring 0 n s) = n.
Proof.
  induction n as [|n IH]; intros s Hn.
  - by destruct s.
  - destruct s as [|c s]; [simpl in Hn; lia|]. simpl. f_equal. apply IH. simpl in Hn. lia.
Qed.

Lemma skipn_app p : ∀ z, Re.skipn (String.length p) (p +:+ z) = z.
Proof. induction p as [|c p IH]; intros z; [by destruct z|]. simpl. apply IH. Qed.

Lemma trimEnd_prefix s : ∃ v, s = Js.trimEnd s +:+ v.
Proof.
  induction s as [|c s [v IH]]; [by exists EmptyString|]. simpl.
  destruct (Js.isEmpty _); [by eexists|]. exists v. rewrite append_cons. by f_equal.
Qed.

(** [trimEnd] keeps a stretch at the start of a text when, from every place
    in the stretch on, the text is not all white space. *)
Lemma trimEnd_keep n : ∀ s,
  n ≤ String.length s →
  (∀ i, i < n → Js.trimStart (Re.skipn i s) ≠ EmptyString) →
  Js.trimEnd s = substring 0 n s +:+ Js.trimEnd (Re.skipn n s).
Proof.
  induction n as [|n IH]; intros s Hn H.
  - destruct s; done.
  - destruct s as [|c s]; [simpl in Hn; lia|].
    cbn [Js.trimEnd]. pose proof (H 0 ltac:(lia)) as H0. rewrite skipn_0 in H0.
    destruct (Js.trimStart (String c s)) eqn:E; [done|]. cbn [Js.isEmpty].
    simpl substring. rewrite append_cons. f_equal. cbn [Re.skipn].
    apply IH; [simpl in Hn; lia|]. intros i Hi. apply (H (S i)). lia.
Qed.

(** A text that is not all white space stays so when its white space at the
    end is cut. *)
Lemma trimEnd_not_blank n : ∀ s,
  String.length s ≤ n → Js.trimStart s ≠ EmptyString →
  Js.trimStart (Js.trimEnd s) ≠ EmptyString.
Proof.
  induction n as [|n IH]; intros s Hn Hs.
  { destruct s; [done|simpl in Hn; lia]. }
  destruct (Js.wsLen s) as [|k] eqn:E.
  - rewrite trimStart_fixed in Hs by done.
    destruct (trimEnd_prefix s) as [v Hv].
    rewrite trimStart_fixed by (apply (wsLen_prefix _ v); by rewrite <- Hv).
    destruct s as [|c s]; [done|]. cbn [Js.trimEnd].
    rewrite trimStart_fixed by done. done.
  - pose proof (wsLen_le s) as Hle. rewrite E in Hle.
    rewrite trimStart_unfold, E in Hs.
    rewrite (trimEnd_keep (S k) s Hle).
    + rewrite trimStart_unfold, (wsLen_own s k _ E).
      rewrite <- (take_length (S k) s Hle) at 1. rewrite skipn_app.
      apply IH; [rewrite skipn_length; lia|done].
    + intros [|i] Hi.
      * by rewrite skipn_0, trimStart_unfold, E.
      * destruct (wsLen_inner s k (S i) E ltac:(lia)) as [H0 Hne].
        by rewrite trimStart_fixed.
Qed.

Lemma trimEnd_twice s : Js.trimEnd (Js.trimEnd s) = Js.trimEnd s.
Proof.
  induction s as [|c s IH]; [done|]. cbn [Js.trimEnd].
  destruct (Js.trimStart (String c s)) eqn:E; [done|]. cbn [Js.isEmpty].
  assert (H : Js.trimStart (Js.trimEnd (String c s)) ≠ EmptyString).
  { apply (trimEnd_not_blank (String.length (String c s))); [done|by rewrite E]. }
  cbn [Js.trimEnd] in H. rewrite E in H. cbn [Js.isEmpty] in H.
  cbn [Js.trimEnd].
  destruct (Js.trimStart (String c (Js.trimEnd s))); [done|]. cbn [Js.isEmpty].
  by rewrite IH.
Qed.

Lemma trim_twice s : Js.trim (Js.trim s) = Js.trim s.
Proof.
  unfold Js.trim.
  assert (H : Js.wsLen (Js.trimEnd (Js.trimStart s)) = 0).
  { destruct (trimEnd_prefix (Js.trimStart s)) as [v Hv].
    apply (wsLen_prefix _ v). rewrite <- Hv. by apply (trimStart_done (String.length s)). }
  by rewrite (trimStart_fixed _ H), trimEnd_twice.
Qed.

Lemma Reads_titles forest es :
  Reads forest es → forallb titlesTrimmed forest = true.
Proof.
  induction 1 as [|i title level content kids rest h cs es1 es2 Hh Htitle Hcs Hcontent
                    Hkids IHkids Hrest IHrest]; [done|].
  cbn [forallb titlesTrimmed]. rewrite IHkids, IHrest, <- Htitle, trim_twice.
  by rewrite String.eqb_refl.
Qed.

(** X21.  Every title in the returned tree is trimmed: it does not start or
    end with white space, so that trimming it again changes nothing. *)
Theorem titles_are_trimmed random parse (html : string) :
  forallb titlesTrimmed (buildTreeFromHtml random parse html) = true.
Proof. eapply Reads_titles, buildTree_spells. Qed.

(** ** Bodies without elements *)

Lemma Reads_nil_inv es : Reads [] es → es = [].
Proof. by inversion 1. Qed.

(** X22.  The returned tree is empty exactly when the body has no element:
    text and comments that stand directly in the body never reach the tree,
    and every element, heading or not, gives rise to a Section. *)
Theorem empty_tree_iff_no_element random parse (html : string) :
  buildTreeFromHtml random parse html = [] ↔ Dom.children (parse html) = [].
Proof.
  unfold buildTreeFromHtml. split.
  - intros E. pose proof (buildTree_spells random (Dom.children (parse html))) as H.
    rewrite E in H. apply Reads_nil_inv in H.
    destruct (Dom.children (parse html)) as [|e rest]; [done|].
    revert H. unfold withIntro. by destruct (isContent e).
  - by intros ->.
Qed.

(** ** The round trip *)

Lemma plainHeading_level level title :
  (1 ≤ level ≤ 6)%Z → headingLevel (plainHeading level title) = Some level.
Proof.
  intros H.
  assert (level = 1 ∨ level = 2 ∨ level = 3 ∨ level = 4 ∨ level = 5 ∨ level = 6)%Z
    as [->|[->|[->|[->|[->| ->]]]]] by lia; reflexivity.
Qed.

Lemma plainHeading_text level title : Dom.textContent (plainHeading level title) = title.
Proof.
  unfold plainHeading, textNodes. destruct title as [|c title]; [done|].
  cbn [Js.isEmpty Dom.textContent List.map]. unfold Dom.concat. simpl foldr.
  apply append_nil_r.
Qed.

Lemma plainHeading_markup level title :
  (1 ≤ level ≤ 6)%Z → Dom.escape false title = title →
  Dom.outerHTML (plainHeading level title) =
  "<h" +:+ Js.showZ level +:+ ">" +:+ title +:+ "</h" +:+ Js.showZ level +:+ ">".
Proof.
  intros H Ht.
  assert (G : ∀ tag, Dom.voidTag ("h" +:+ tag) = false → Dom.rawTextTag ("h" +:+ tag) = false →
              Dom.outerHTML (Dom.Element ("h" +:+ tag) [] (textNodes title)) =
              "<h" +:+ tag +:+ ">" +:+ title +:+ "</h" +:+ tag +:+ ">").
  { intros tag Hv Hr. unfold Dom.outerHTML. cbn [Dom.serialize]. rewrite Hv, Hr.
    unfold Dom.startTag, Dom.endTag. cbn [List.map]. unfold Dom.concat at 1. cbn [foldr].
    unfold textNodes. destruct title as [|c title].
    - cbn [Js.isEmpty List.map]. unfold Dom.concat. cbn [foldr].
      by rewrite !append_assoc, ?append_nil_l.
    - cbn [Js.isEmpty List.map Dom.serialize]. rewrite Ht. unfold Dom.concat. cbn [foldr].
      by rewrite !append_assoc, ?append_nil_l, ?append_nil_r. }
  unfold plainHeading.
  assert (level = 1 ∨ level = 2 ∨ level = 3 ∨ level = 4 ∨ level = 5 ∨ level = 6)%Z
    as [->|[->|[->|[->|[->| ->]]]]] by lia; by apply G.
Qed.

Lemma innerHTML_cons e es : Dom.innerHTML (e :: es) = Dom.outerHTML e +:+ Dom.innerHTML es.
Proof. done. Qed.

Section RoundTrip.

Variable parse : string -> list Dom.Node.

Lemma sanitizedNodes_markup content :
  Dom.innerHTML (sanitizedNodes parse content) = sanitized parse content.
Proof. unfold sanitizedNodes, sanitized. by destruct (Js.isEmpty content). Qed.

Lemma spellBack_cons i title level content kids rest :
  spellBack parse (Sec.mk i title level content kids :: rest) =
  plainHeading level title :: sanitizedNodes parse content ++
  spellBack parse kids ++ spellBack parse rest.
Proof. unfold spellBack. cbn [flat_map spellSec]. simpl. by rewrite <- app_assoc. Qed.

(** The export of a built forest is the serialization of the nodes that
    spell it back. *)
Lemma export_spellBack forest es :
  Reads forest es →
  forallb (readsBack parse) (preorderAll forest) = true →
  Dom.concat (List.map (ownMarkup parse) (preorderAll forest)) =
  Dom.innerHTML (spellBack parse forest).
Proof.
  induction 1 as [|i title level content kids rest h cs es1 es2 Hh Htitle Hcs Hcontent
                    Hkids IHkids Hrest IHrest]; [done|].
  rewrite preorderAll_cons. cbn [Sec.children forallb]. rewrite forallb_app.
  intros [Hw [Hk Hr]%andb_prop]%andb_prop.
  cbn [List.map]. rewrite List.map_app, concat_cons, concat_app, (IHkids Hk), (IHrest Hr).
  rewrite spellBack_cons, innerHTML_cons, !innerHTML_app, sanitizedNodes_markup.
  unfold readsBack in Hw. cbn [Sec.title Sec.contentHtml] in Hw.
  apply andb_prop in Hw as [Ht%String.eqb_eq _].
  rewrite (plainHeading_markup level title) by
    (by apply (headingLevel_range h) || done).
  unfold ownMarkup, headingMarkup, sanitizedContent, sanitized.
  cbn [Sec.title Sec.level Sec.contentHtml].
  by rewrite !append_assoc.
Qed.

(** Those nodes spell the forest with every [contentHtml] sanitized. *)
Lemma Reads_spellBack forest es :
  Reads forest es →
  forallb (readsBack parse) (preorderAll forest) = true →
  Reads (List.map (sanitizeSec parse) forest) (spellBack parse forest).
Proof.
  induction 1 as [|i title level content kids rest h cs es1 es2 Hh Htitle Hcs Hcontent
                    Hkids IHkids Hrest IHrest]; [constructor|].
  rewrite preorderAll_cons. cbn [Sec.children forallb]. rewrite forallb_app.
  intros [Hw [Hk Hr]%andb_prop]%andb_prop.
  rewrite spellBack_cons. cbn [List.map sanitizeSec].
  unfold readsBack in Hw. cbn [Sec.title Sec.contentHtml] in Hw.
  apply andb_prop in Hw as [_ Hc].
  constructor; auto.
  - apply plainHeading_level. by apply (headingLevel_range h).
  - by rewrite plainHeading_text, <- Htitle, trim_twice.
  - apply Forall_forall. intros n Hn. rewrite forallb_forall in Hc.
    apply list_elem_of_In, Hc in Hn. unfold isContent in Hn.
    by destruct (headingLevel n).
  - apply sanitizedNodes_markup.
Qed.

Lemma sanitizeSec_level s : Sec.level (sanitizeSec parse s) = Sec.level s.
Proof. by destruct s. Qed.

Lemma canon_sanitizeSec s : ∀ lo, canon lo (sanitizeSec parse s) = canon lo s.
Proof.
  induction s as [i title level content kids IH] using Sec_induction.
  intros lo. cbn [sanitizeSec canon]. f_equal; [f_equal|].
  - induction IH as [|k kids Hk _ IHk]; [done|]. cbn [List.map forallb]. by rewrite Hk, IHk.
  - f_equal. rewrite map_map. apply List.map_ext. apply sanitizeSec_level.
Qed.

Lemma canonForest_sanitizeSec lo forest :
  canonForest lo (List.map (sanitizeSec parse) forest) = canonForest lo forest.
Proof.
  unfold canonForest. f_equal.
  - induction forest as [|k forest IH]; [done|]. cbn [List.map forallb].
    by rewrite canon_sanitizeSec, IH.
  - f_equal. rewrite map_map. apply List.map_ext. apply sanitizeSec_level.
Qed.

Lemma map_eq_Forall {A B} (f g : A → B) l :
  List.map f l = List.map g l ↔ Forall (λ x, f x = g x) l.
Proof.
  induction l as [|x l IH]; simpl; [by split|].
  split.
  - intros [= H1 H2]. constructor; [done|by apply IH].
  - intros [H1 H2]%Forall_cons. f_equal; [done|by apply IH].
Qed.

(** Sanitizing leaves a tree as it is exactly when it leaves the
    [contentHtml] of every Section of the tree as it is. *)
Lemma sanitizeSec_kept s :
  eraseId (sanitizeSec parse s) = eraseId s ↔
  forallb (contentKept parse) (preorder s) = true.
Proof.
  induction s as [i title level content kids IH] using Sec_induction.
  cbn [sanitizeSec eraseId preorder forallb Sec.children].
  unfold contentKept at 1. cbn [Sec.contentHtml].
  rewrite andb_true_iff, String.eqb_eq.
  assert (G : List.map eraseId (List.map (sanitizeSec parse) kids) = List.map eraseId kids ↔
              forallb (contentKept parse) (flat_map preorder kids) = true).
  { rewrite map_map, map_eq_Forall.
    induction IH as [|k kids Hk _ IHk]; [done|].
    cbn [flat_map]. rewrite forallb_app, andb_true_iff, Forall_cons. by rewrite Hk, IHk. }
  rewrite <- G. split.
  - by intros [= -> ->].
  - by intros [-> ->].
Qed.

Lemma sanitizeSec_kept_all forest :
  List.map eraseId (List.map (sanitizeSec parse) forest) = List.map eraseId forest ↔
  forallb (contentKept parse) (preorderAll forest) = true.
Proof.
  rewrite map_map, map_eq_Forall. unfold preorderAll.
  induction forest as [|k forest IH]; [done|].
  cbn [flat_map]. rewrite forallb_app, andb_true_iff, Forall_cons.
  by rewrite sanitizeSec_kept, IH.
Qed.

End RoundTrip.

(** C2, as the code has it.  The export of a built tree is the serialization
    of its Sections in pre-order, each a plain heading followed by the
    sanitized nodes of its [contentHtml].  When the parser reads that
    serialization back as those nodes, the tree built from the export has the
    titles, the levels and the nesting of the first tree, and for
    [contentHtml] what the export wrote, the sanitized [contentHtml]: it is
    the first tree exactly when sanitizing leaves every [contentHtml] as it
    is.  This is for trees whose titles hold no character that the
    serialization of text escapes and whose sanitized nodes hold no
    heading. *)
Theorem round_trip_up_to_sanitizing random1 random2 parse (markup : string) :
  let t := buildTreeFromHtml random1 parse markup in
  let back := buildTreeFromHtml random2 parse (exportHtml parse t) in
  forallb (readsBack parse) (preorderAll t) = true →
  Dom.children (parse (Dom.innerHTML (spellBack parse t))) = spellBack parse t →
  exportHtml parse t = Dom.innerHTML (spellBack parse t) ∧
  List.map eraseId back = List.map eraseId (List.map (sanitizeSec parse) t) ∧
  (List.map eraseId back = List.map eraseId t ↔
   forallb (contentKept parse) (preorderAll t) = true).
Proof.
  intros t back Hw Hp.
  assert (Hr : Reads t (withIntro (Dom.children (parse markup)))) by apply buildTree_spells.
  assert (He : exportHtml parse t = Dom.innerHTML (spellBack parse t)).
  { unfold exportHtml. rewrite buildHtml_own, append_nil_l. by eapply export_spellBack. }
  assert (Hb : List.map eraseId back = List.map eraseId (List.map (sanitizeSec parse) t)).
  { unfold back, buildTreeFromHtml at 1. rewrite He, Hp.
    apply rebuild_elements.
    - rewrite canonForest_sanitizeSec. apply buildTree_canon.
    - by eapply Reads_spellBack. }
  split; [exact He|]. split; [exact Hb|].
  rewrite Hb. apply sanitizeSec_kept_all.
Qed.
(** ** Matches in a longer text *)







(** ** What a pass keeps whole *)






Lemma trues_le m : trues m ≤ length m.
Proof. unfold trues. induction m as [|[] m IH]; simpl; lia. Qed.

Section Marks.

Variable re : string -> option nat.



Lemma keeps_app pre rest : ∀ skip,
  ∃ before skip', length before = String.length pre ∧
                  keeps re skip (pre +:+ rest) = before ++ keeps re skip' rest.
Proof.
  induction pre as [|c pre IH]; intros skip.
  - by exists [], skip.
  - rewrite append_cons. cbn [keeps]. destruct skip as [|k].
    + destruct (re (String c (pre +:+ rest))) as [[|k]|].
      * destruct (IH 0) as (before & skip' & Hl & ->).
        exists (true :: before), skip'. split; [simpl; lia|done].
      * destruct (IH k) as (before & skip' & Hl & ->).
        exists (false :: before), skip'. split; [simpl; lia|done].
      * destruct (IH 0) as (before & skip' & Hl & ->).
        exists (true :: before), skip'. split; [simpl; lia|done].
    + destruct (IH k) as (before & skip' & Hl & ->).
      exists (false :: before), skip'. split; [simpl; lia|done].
Qed.

(** A match stays one when the text goes on behind it. *)
Hypothesis extend : ∀ u k y, re u = Some (S k) → ∃ k', re (u +:+ y) = Some (S k').

Lemma keeps_whole_run run : ∀ post skip after,
  keeps re skip (run +:+ post) = replicate (String.length run) true ++ after →
  Re.occursAt re run = false.
Proof.
  induction run as [|c run IH]; intros post skip after; [done|].
  rewrite append_cons. cbn [keeps String.length replicate app].
  destruct skip as [|k]; [|done].
  destruct (re (String c (run +:+ post))) as [[|k]|] eqn:E; [|done|].
  - intros [= H]. cbn [Re.occursAt].
    destruct (re (String c run)) as [[|k]|] eqn:E'; try by eapply IH.
    destruct (extend _ _ post E') as [k' Hk']. rewrite append_cons in Hk'. congruence.
  - intros [= H]. cbn [Re.occursAt].
    destruct (re (String c run)) as [[|k]|] eqn:E'; try by eapply IH.
    destruct (extend _ _ post E') as [k' Hk']. rewrite append_cons in Hk'. congruence.
Qed.

Lemma pass_whole pre run post :
  keptWhole (keeps re 0 (pre +:+ run +:+ post)) pre run → Re.occursAt re run = false.
Proof.
  intros (before & after & E & Hl).
  destruct (keeps_app pre (run +:+ post) 0) as (before' & skip' & Hl' & E').
  rewrite E' in E. apply app_inj_1 in E as [_ E]; [|lia].
  by apply (keeps_whole_run run post skip' after).
Qed.

End Marks.

(** ** What the passes keep whole *)










(** ** The theorems at concrete inputs *)

Lemma heading_closure_witness :
  (1 ∈ childrenOf (heap (run draws init threeHeadings)) 0 ↔ (1 < 3)%Z) ∧
  (2 ∈ childrenOf (heap (run draws init threeHeadings)) 1 ↔ (3 < 2)%Z).
Proof.
  assert (H : Forall (λ e, is_Some (headingLevel e)) threeHeadings).
  { repeat (constructor; [by eexists|]). constructor. }
  split.
  - exact (proj1 (proj2 (heading_closure draws threeHeadings 0 1 3 H eq_refl eq_refl))).
  - exact (proj1 (proj2 (heading_closure draws threeHeadings 1 3 2 H eq_refl eq_refl))).
Defined.

Lemma example_two_roots_witness :
  buildTreeFromHtml draws Html.parse headings =
    [Sec.mk "n_4fzyo82" "A" 1 "<p>x</p>" [Sec.mk "n_4fzyo82" "B" 2 "<p>y</p>" []];
     Sec.mk "n_4fzyo82" "C" 1 EmptyString []].
Proof. apply (example_two_roots draws Html.parse). vm_compute. reflexivity. Defined.

Lemma intro_synthesized_once_witness :
  (∃ kids others,
     buildTree draws (contentFirst ++ thenHeading) =
       Sec.mk (cryptoId draws 0) "Intro" 1 "<p>a</p><div>b</div>" kids :: others) ∧
  buildTreeFromHtml draws Html.parse "<p>hello</p>" =
    [Sec.mk (cryptoId draws 0) "Intro" 1 "<p>hello</p>" []].
Proof.
  assert (H := intro_synthesized_once draws contentFirst thenHeading).
  destruct H as (H1 & _ & H3).
  - discriminate.
  - repeat (constructor; [vm_compute; reflexivity|]). constructor.
  - vm_compute. discriminate.
  - split; [exact H1|]. apply H3. vm_compute. reflexivity.
Defined.

(** A Section of level 3 above a Section of level 1 is written as [h3] and
    [h1]: the levels are taken as they stand. *)
Example export_of_edited : exportHtml Html.parse edited = "<h3>T</h3><p>x</p><h1>U</h1>".
Proof. by vm_compute. Qed.

Lemma serialize_preorder_live_level_witness :
  exportHtml Html.parse edited = serializeSpec Html.parse edited.
Proof. apply (serialize_preorder_live_level Html.parse). vm_compute. reflexivity. Defined.

Lemma stack_stays_open_witness :
  let heading := Dom.Element "h2" [] [Dom.Text "T"] in
  let node := Dom.Element "p" [] [Dom.Text "c"] in
  ∃ top rest, stack (run draws init [heading]) = top :: rest ∧
    S top = length (heap (run draws init [heading])) ∧
    Node.contentHtml (heap (run draws init ([heading] ++ [node])) !!! top) =
      Node.contentHtml (heap (run draws init [heading]) !!! top) +:+ Dom.outerHTML node.
Proof.
  intros heading node.
  destruct (proj2 (stack_stays_open draws ([heading] ++ node :: [])) [heading] node [] eq_refl)
    as (top & rest & H1 & H2 & _ & H4).
  - discriminate.
  - exists top, rest. split; [exact H1|]. split; [exact H2|].
    apply H4. vm_compute. reflexivity.
Defined.

Lemma intro_as_heading_witness :
  headingLevel (Dom.Element "p" [] [Dom.Text "a"]) = None ∧
  buildTree draws (Dom.Element "p" [] [Dom.Text "a"] :: thenHeading) =
  buildTree draws (introHeading :: Dom.Element "p" [] [Dom.Text "a"] :: thenHeading).
Proof.
  split; [reflexivity|].
  apply (intro_as_heading draws (Dom.Element "p" [] [Dom.Text "a"]) thenHeading).
  reflexivity.
Defined.

Lemma builder_inverts_spelling_witness :
  let forest := [Sec.mk "a" "A" 1 "<p>x</p>" [Sec.mk "b" "B" 2 "<p>y</p>" []];
                 Sec.mk "c" "C" 1 EmptyString []] in
  canonForest 0 forest = true ∧
  Reads forest (Dom.children (Html.parse headings)) ∧
  List.map eraseId (buildTreeFromHtml draws Html.parse headings) = List.map eraseId forest.
Proof.
  intros forest.
  assert (Hc : canonForest 0 forest = true) by (vm_compute; reflexivity).
  assert (Hr : Reads forest (Dom.children (Html.parse headings))).
  { replace (Dom.children (Html.parse headings)) with
      (Dom.Element "h1" [] [Dom.Text "A"] ::
       [Dom.Element "p" [] [Dom.Text "x"]] ++
       (Dom.Element "h2" [] [Dom.Text "B"] :: [Dom.Element "p" [] [Dom.Text "y"]] ++ [] ++ []) ++
       (Dom.Element "h1" [] [Dom.Text "C"] :: [] ++ [] ++ []))
      by (vm_compute; reflexivity).
    unfold forest.
    repeat (constructor; try (vm_compute; reflexivity)). }
  split; [exact Hc|]. split; [exact Hr|].
  exact (builder_inverts_spelling draws Html.parse forest headings Hc Hr).
Defined.

Lemma cleanHtml_keeps_plain_text_witness :
  let html := "Total: 3 < 4 & done" in
  holds true Re.Q html = false ∧ holds true "mso-" html = false ∧
  holds true "<!--" html = false ∧ cleanHtml html = html.
Proof.
  intros html.
  assert (Hq : holds true Re.Q html = false) by (vm_compute; reflexivity).
  assert (Hm : holds true "mso-" html = false) by (vm_compute; reflexivity).
  assert (Hc : holds true "<!--" html = false) by (vm_compute; reflexivity).
  split; [exact Hq|]. split; [exact Hm|]. split; [exact Hc|].
  exact (cleanHtml_keeps_plain_text html Hq Hm Hc).
Defined.

Lemma toPlainText_without_tags_witness :
  let contentHtml := "a & b > c" in
  holds false "<" contentHtml = false ∧ Plain.toPlainText contentHtml = contentHtml.
Proof.
  intros contentHtml.
  assert (H : holds false "<" contentHtml = false) by (vm_compute; reflexivity).
  split; [exact H|]. exact (toPlainText_without_tags contentHtml H).
Defined.

Lemma sanitizeTable_of_bare_witness :
  forallb bareBelow (Html.parse templated) = true ∧
  sanitizeTable Html.parse templated = Dom.innerHTML (Html.parse templated).
Proof.
  assert (H : forallb bareBelow (Html.parse templated) = true) by (vm_compute; reflexivity).
  split; [exact H|]. exact (sanitizeTable_of_bare Html.parse templated H).
Defined.

Lemma getImage_data_url_witness :
  let header := "data:image/png;base64" in
  let payload := "iVBORw0KGgo=" in
  String.prefix "data:image" header = true ∧
  (","%char ∉ chars header) ∧ (","%char ∉ chars payload) ∧
  getImage (header +:+ "," +:+ payload) = Buffer payload ∧
  getImage (header +:+ "," +:+ payload +:+ "," +:+ "x") = Buffer payload.
Proof.
  intros header payload.
  assert (Hp : String.prefix "data:image" header = true) by reflexivity.
  assert (Hh : ","%char ∉ chars header) by (refine (bool_decide_unpack _ _); vm_compute; exact I).
  assert (Hpay : ","%char ∉ chars payload) by (refine (bool_decide_unpack _ _); vm_compute; exact I).
  split; [exact Hp|]. split; [exact Hh|]. split; [exact Hpay|].
  exact (getImage_data_url header payload "x" Hp Hh Hpay).
Defined.

Lemma uploadBase64_without_comma_witness :
  let convert := λ _ : string, Some "<h1>A</h1>" in
  "UEsDBBQ" ≠ EmptyString ∧ (","%char ∉ chars "UEsDBBQ") ∧
  uploadBase64 draws Html.parse convert (Some "UEsDBBQ") = Status500.
Proof.
  intros convert.
  assert (Hne : "UEsDBBQ" ≠ EmptyString) by discriminate.
  assert (Hc : ","%char ∉ chars "UEsDBBQ") by (refine (bool_decide_unpack _ _); vm_compute; exact I).
  split; [exact Hne|]. split; [exact Hc|].
  exact (uploadBase64_without_comma draws Html.parse convert "UEsDBBQ" Hne Hc).
Defined.

Lemma uploadBase64_header_unread_witness :
  let convert := λ _ : string, Some "<h1>A</h1>" in
  let header := "data:application/octet-stream;base64" in
  let other := λ _ : nat, "0.k2j9x1c7p" in
  (","%char ∉ chars header) ∧ (","%char ∉ chars EmptyString) ∧
  eraseIds (uploadBase64 draws Html.parse convert (Some (header +:+ "," +:+ "UEsDBBQ"))) =
  eraseIds (uploadBase64 other Html.parse convert (Some (EmptyString +:+ "," +:+ "UEsDBBQ"))).
Proof.
  intros convert header other.
  assert (H1 : ","%char ∉ chars header) by (refine (bool_decide_unpack _ _); vm_compute; exact I).
  assert (H2 : ","%char ∉ chars EmptyString) by (refine (bool_decide_unpack _ _); vm_compute; exact I).
  split; [exact H1|]. split; [exact H2|].
  exact (uploadBase64_header_unread draws other Html.parse convert header EmptyString
           "UEsDBBQ" H1 H2).
Defined.

Lemma round_trip_up_to_sanitizing_witness :
  let t := buildTreeFromHtml draws Html.parse headings in
  let back := buildTreeFromHtml draws Html.parse (exportHtml Html.parse t) in
  forallb (readsBack Html.parse) (preorderAll t) = true ∧
  Dom.children (Html.parse (Dom.innerHTML (spellBack Html.parse t))) = spellBack Html.parse t ∧
  forallb (contentKept Html.parse) (preorderAll t) = true ∧
  exportHtml Html.parse t = headings ∧
  List.map eraseId back = List.map eraseId t.
Proof.
  intros t back.
  assert (Hw : forallb (readsBack Html.parse) (preorderAll t) = true)
    by (vm_compute; reflexivity).
  assert (Hp : Dom.children (Html.parse (Dom.innerHTML (spellBack Html.parse t))) =
               spellBack Html.parse t) by (vm_compute; reflexivity).
  assert (Hk : forallb (contentKept Html.parse) (preorderAll t) = true)
    by (vm_compute; reflexivity).
  destruct (round_trip_up_to_sanitizing draws draws Html.parse headings Hw Hp)
    as (He & _ & Hiff).
  split; [exact Hw|]. split; [exact Hp|]. split; [exact Hk|].
  split; [etrans; [exact He|]; vm_compute; reflexivity|].
  exact (proj2 Hiff Hk).
Defined.

(** The markup of the counterexample comes back as the theorem says, its
    [contentHtml] sanitized. *)
Example round_trip_of_widthy :
  let t := buildTreeFromHtml draws Html.parse widthy in
  forallb (readsBack Html.parse) (preorderAll t) = true ∧
  Dom.children (Html.parse (Dom.innerHTML (spellBack Html.parse t))) = spellBack Html.parse t ∧
  forallb (contentKept Html.parse) (preorderAll t) = false ∧
  List.map (sanitizeSec Html.parse) t = [Sec.mk "n_4fzyo82" "Intro" 1 "<p>x</p>" []].
Proof. by vm_compute. Qed.
